(** * beets-check: a shallow embedding of [beetsplug/check.py]

    The plugin keeps a SHA-256 checksum per library item, verifies it
    against the file on disk, runs external validators (mp3val, flac,
    oggz-validate) and repairs MP3 files.  This development embeds the
    functions of [beetsplug/check.py] as state-and-exception passing
    functions over an explicit world (file system, library rows, the
    class-level checker cache, pending prompt answers and an event trace)
    and proves properties of the embedded code. *)

From Stdlib Require Import ZArith NArith Ascii String List Lia.
From stdpp Require Import base strings pretty gmap list.

Open Scope string_scope.
Open Scope list_scope.

(** ** Python string helpers *)

Module PyStr.

Definition newline : ascii := "010"%char.

(** [s.split(sep)] for a one-character separator: never returns the
    empty list, and [''.split(sep) == ['']]. *)
Fixpoint split (sep : ascii) (s : string) : list string :=
  match s with
  | EmptyString => [EmptyString]
  | String c s' =>
      if Ascii.eqb c sep then EmptyString :: split sep s'
      else match split sep s' with
           | piece :: rest => String c piece :: rest
           | [] => [String c EmptyString]
           end
  end.

(** [s.replace(c, '')]. *)
Fixpoint remove_char (c : ascii) (s : string) : string :=
  match s with
  | EmptyString => EmptyString
  | String a s' =>
      if Ascii.eqb a c then remove_char c s' else String a (remove_char c s')
  end.

(** [sep.join(l)]. *)
Fixpoint join (sep : string) (l : list string) : string :=
  match l with
  | [] => ""
  | [x] => x
  | x :: rest => x +:+ sep +:+ join sep rest
  end.

Fixpoint strip_prefix (p s : string) : option string :=
  match p, s with
  | EmptyString, _ => Some s
  | String a p', String b s' =>
      if Ascii.eqb a b then strip_prefix p' s' else None
  | String _ _, EmptyString => None
  end.

Fixpoint take (n : nat) (s : string) : string :=
  match n, s with
  | S n', String c s' => String c (take n' s')
  | _, _ => EmptyString
  end.

Fixpoint contains_char (c : ascii) (s : string) : bool :=
  match s with
  | EmptyString => false
  | String a s' => Ascii.eqb a c || contains_char c s'
  end.

Definition cr : string := String "013"%char EmptyString.
Definition lf : string := String newline EmptyString.

(** [n * ' ']. *)
Fixpoint spaces (n : nat) : string :=
  match n with
  | O => EmptyString
  | S n' => String " "%char (spaces n')
  end.

(** Truthiness of a Python string. *)
Definition truthy (s : string) : bool :=
  match s with EmptyString => false | _ => true end.

End PyStr.

(** ** A backtracking matcher for the regular expressions of the plugin

    Only the constructs that occur in [MP3Val.log_matcher] and
    [FlacTest.error_matcher] are present.  Repetition is greedy and
    backtracks, as Python's [re] does; [.] excludes the newline and [$]
    matches at the end or before a final newline (no [MULTILINE]). *)

Module Re.

Inductive cclass :=
| Dot            (* .        *)
| HexLower.      (* [0-9a-f] *)

Definition cclass_mem (cl : cclass) (c : ascii) : bool :=
  match cl with
  | Dot => negb (Ascii.eqb c PyStr.newline)
  | HexLower =>
      let n := nat_of_ascii c in
      (Nat.leb 48 n && Nat.leb n 57) || (Nat.leb 97 n && Nat.leb n 102)
  end.

Inductive regex :=
| Lit (s : string)
| Star (cl : cclass)
| Plus (cl : cclass)
| Opt (c : ascii)
| Group (r : regex)
| Cat (r1 r2 : regex)
| Bol
| Eol.

Definition cont := nat -> string -> list string -> option (list string).

(** Greedy [cl*]: the longest run first, then shorter ones. *)
Fixpoint star_match (p : ascii -> bool) (pos : nat) (s : string)
    (k : nat -> string -> option (list string)) : option (list string) :=
  match s with
  | String c s' =>
      if p c then
        match star_match p (S pos) s' k with
        | Some r => Some r
        | None => k pos s
        end
      else k pos s
  | EmptyString => k pos s
  end.

(** [pos] is the number of characters consumed so far, [s] the rest of
    the subject, [caps] the groups closed so far. *)
Fixpoint rmatch (r : regex) (pos : nat) (s : string) (caps : list string)
    (k : cont) : option (list string) :=
  match r with
  | Lit l =>
      match PyStr.strip_prefix l s with
      | Some s' => k (pos + String.length l) s' caps
      | None => None
      end
  | Star cl => star_match (cclass_mem cl) pos s (fun p s' => k p s' caps)
  | Plus cl =>
      match s with
      | String c s' =>
          if cclass_mem cl c
          then star_match (cclass_mem cl) (S pos) s' (fun p s' => k p s' caps)
          else None
      | EmptyString => None
      end
  | Opt c =>
      match s with
      | String b s' =>
          if Ascii.eqb b c then
            match k (S pos) s' caps with
            | Some res => Some res
            | None => k pos s caps
            end
          else k pos s caps
      | EmptyString => k pos s caps
      end
  | Group r' =>
      rmatch r' pos s caps
        (fun p s' caps' => k p s' (caps' ++ [PyStr.take (p - pos) s]))
  | Cat r1 r2 =>
      rmatch r1 pos s caps (fun p s' caps' => rmatch r2 p s' caps' k)
  | Bol => if Nat.eqb pos 0 then k pos s caps else None
  | Eol =>
      match s with
      | EmptyString => k pos s caps
      | String c EmptyString =>
          if Ascii.eqb c PyStr.newline then k pos s caps else None
      | _ => None
      end
  end.

(** [re.compile(r).match(s)]: anchored at the start only; the result
    is the list of captured groups. *)
Definition match_ (r : regex) (s : string) : option (list string) :=
  rmatch r 0 s [] (fun _ _ caps => Some caps).

(** [m.group(1)]. *)
Definition group1 (caps : list string) : string :=
  match caps with
  | g :: _ => g
  | [] => ""
  end.

Fixpoint seq (rs : list regex) : regex :=
  match rs with
  | [] => Lit ""
  | [r] => r
  | r :: rest => Cat r (seq rest)
  end.

End Re.

(** ** hashlib.sha256

    FIPS 180-4 SHA-256 over 32-bit words held in [N], with the wrap-around
    written out. *)

Module Hashlib.

Local Open Scope N_scope.

Definition w32 (x : N) : N := x mod 0x100000000.
Definition add32 (a b : N) : N := w32 (a + b).
Definition rotr (n x : N) : N :=
  w32 (N.lor (N.shiftr x n) (N.shiftl x (32 - n))).
Definition shr (n x : N) : N := N.shiftr x n.
Definition not32 (x : N) : N := N.lxor x 0xFFFFFFFF.

Definition Ch (x y z : N) : N := N.lxor (N.land x y) (N.land (not32 x) z).
Definition Maj (x y z : N) : N :=
  N.lxor (N.lxor (N.land x y) (N.land x z)) (N.land y z).
Definition Sigma0 (x : N) : N := N.lxor (N.lxor (rotr 2 x) (rotr 13 x)) (rotr 22 x).
Definition Sigma1 (x : N) : N := N.lxor (N.lxor (rotr 6 x) (rotr 11 x)) (rotr 25 x).
Definition sigma0 (x : N) : N := N.lxor (N.lxor (rotr 7 x) (rotr 18 x)) (shr 3 x).
Definition sigma1 (x : N) : N := N.lxor (N.lxor (rotr 17 x) (rotr 19 x)) (shr 10 x).

(** The round constants and the initial hash value are not tabulated
    but derived as the standard defines them: the first 32 bits of the
    fractional parts of the cube roots of the first 64 primes, and of
    the square roots of the first 8. *)
Definition is_prime (n : nat) : bool :=
  Nat.ltb 1 n && forallb (fun d => negb (Nat.eqb (Nat.modulo n d) 0)) (List.seq 2 (n - 2)).

Definition primes : list N :=
  map N.of_nat (List.filter is_prime (List.seq 2 310)).

(** The integer cube root, bit by bit from [2 ^ bits] down. *)
Fixpoint icbrt_from (bits : nat) (r n : N) : N :=
  match bits with
  | O => r
  | S b =>
      let c := r + N.shiftl 1 (N.of_nat b) in
      if c * c * c <=? n then icbrt_from b c n else icbrt_from b r n
  end.

Definition K : list N :=
  map (fun p => w32 (icbrt_from 35 0 (N.shiftl p 96))) primes.

Definition H0 : list N :=
  map (fun p => w32 (N.sqrt (N.shiftl p 64))) (firstn 8 primes).

Definition bytes_of_string (s : string) : list N :=
  map N_of_ascii (list_ascii_of_string s).

(** Big-endian bytes of [x], [n] of them. *)
Fixpoint be_bytes (n : nat) (x : N) : list N :=
  match n with
  | O => []
  | S n' => (N.shiftr x (8 * N.of_nat n')) mod 256 :: be_bytes n' x
  end.

(** Message padding: 0x80, zeros up to 56 mod 64, the bit length on
    eight bytes. *)
Definition pad (msg : list N) : list N :=
  let len := N.of_nat (length msg) in
  let zeros := N.to_nat ((64 + 55 - len mod 64) mod 64) in
  msg ++ [0x80] ++ repeat 0 zeros ++ be_bytes 8 (8 * len).

Fixpoint words (fuel : nat) (bs : list N) : list N :=
  match fuel, bs with
  | S f, b0 :: b1 :: b2 :: b3 :: rest =>
      (b0 * 0x1000000 + b1 * 0x10000 + b2 * 0x100 + b3) :: words f rest
  | _, _ => []
  end.

Fixpoint blocks (fuel : nat) (ws : list N) : list (list N) :=
  match fuel, ws with
  | _, [] => []
  | O, _ => []
  | S f, _ => firstn 16 ws :: blocks f (skipn 16 ws)
  end.

(** Message schedule: [w] holds W[0..t-1]; append W[t] for [n] steps. *)
Fixpoint schedule (n : nat) (w : list N) : list N :=
  match n with
  | O => w
  | S n' =>
      let t := length w in
      let g i := nth (t - i) w 0 in
      schedule n' (w ++ [add32 (add32 (sigma1 (g 2%nat)) (g 7%nat))
                               (add32 (sigma0 (g 15%nat)) (g 16%nat))])
  end.

Record regs := { ra : N; rb : N; rc : N; rd : N; re : N; rf : N; rg : N; rh : N }.

Definition round (r : regs) (kw : N * N) : regs :=
  let '(k, w) := kw in
  let t1 := add32 (add32 (add32 (add32 (rh r) (Sigma1 (re r))) (Ch (re r) (rf r) (rg r))) k) w in
  let t2 := add32 (Sigma0 (ra r)) (Maj (ra r) (rb r) (rc r)) in
  {| ra := add32 t1 t2; rb := ra r; rc := rb r; rd := rc r;
     re := add32 (rd r) t1; rf := re r; rg := rf r; rh := rg r |}.

Definition regs_of (h : list N) : regs :=
  let g i := nth i h 0 in
  {| ra := g 0%nat; rb := g 1%nat; rc := g 2%nat; rd := g 3%nat;
     re := g 4%nat; rf := g 5%nat; rg := g 6%nat; rh := g 7%nat |}.

Definition list_of (r : regs) : list N :=
  [ra r; rb r; rc r; rd r; re r; rf r; rg r; rh r].

Definition compress (h : list N) (block : list N) : list N :=
  let w := schedule 48 block in
  let r := fold_left round (combine K w) (regs_of h) in
  map (fun p => add32 (fst p) (snd p)) (combine h (list_of r)).

Definition digest (msg : string) : list N :=
  let bs := pad (bytes_of_string msg) in
  let ws := words (length bs) bs in
  let h := fold_left compress (blocks (length ws) ws) H0 in
  flat_map (be_bytes 4) h.

Definition hex_digit (n : N) : ascii :=
  if n <? 10 then ascii_of_N (48 + n) else ascii_of_N (87 + n).

Definition hex_of_bytes (bs : list N) : string :=
  string_of_list_ascii
    (flat_map (fun b => [hex_digit (b / 16); hex_digit (b mod 16)]) bs).

(** [h = sha256(); h.update(data); h.hexdigest()]. *)
Definition sha256_hexdigest (data : string) : string :=
  hex_of_bytes (digest data).

End Hashlib.

(** ** Exceptions, items, events and the world *)

Inductive exn :=
| ChecksumError (path reason : string)     (* class ChecksumError(ReadError)  *)
| IntegrityError (path reason : string)    (* class IntegrityError(ReadError) *)
| IOError (path : string)                  (* open() of an unreadable file    *)
| OSError (path : string)                  (* os.remove, failed exec          *)
| CalledProcessError (returncode : Z)      (* subprocess.check_call           *)
| IndexError
| KeyError (key : string)
| AttributeError (name : string)
| UnboundLocalError (name : string)
| ZeroDivisionError
| NotImplementedError
| UserError (msg : string)                 (* beets.ui.UserError              *)
| SystemExit (code : Z).                   (* sys.exit(code)                  *)

Inductive result (A : Type) :=
| Ok (a : A)
| Raise (e : exn).
Arguments Ok {A} a.
Arguments Raise {A} e.

(** A library item: [item.id], [item.path], [item.format] and the flexible
    field [item['checksum']], absent until first computed. *)
Record Item := {
  item_id : nat;
  path : string;
  format : string;
  checksum : option string
}.

Definition with_checksum (c : string) (item : Item) : Item :=
  {| item_id := item_id item; path := path item; format := format item;
     checksum := Some c |}.

Inductive level := DEBUG | INFO | WARN | ERROR.

(** The arguments of the format string of each [log.*] call of the plugin. *)
Inductive logmsg :=
| MsgOK (p : string)                  (* '{}: {}'      OK, path                 *)
| MsgFAILED (p : string)              (* '{}: {}'      FAILED, path             *)
| MsgWARNING (reason p : string)      (* '{} {}: {}'   WARNING, reason, path    *)
| MsgERROR (e : exn)                  (* '{} {}'       ERROR, exc               *)
| MsgFAILEDChecksum (p : string)      (* '{}: {}'      FAILED checksum, path    *)
| MsgFIXED (p : string)               (* '{}: {}'      FIXED, path              *)
| MsgPath (p : string)                (* log.info(item.path)                    *)
| MsgText (s : string).

Inductive event :=
| EvPopen (argv : list string)        (* a subprocess is spawned                *)
| EvLog (lv : level) (m : logmsg)     (* log.debug / info / warn / error        *)
| EvPrint (s : string)                (* print(s)                               *)
| EvStdoutWrite (s : string)          (* sys.stdout.write(s)                    *)
| EvInputYn (prompt : string)         (* input_yn(prompt, require=True)         *)
| EvStore (item : Item)               (* item.store()                           *)
| EvRemove (p : string).              (* os.remove(p)                           *)

(** What a finished subprocess leaves behind. *)
Record ProcResult := {
  p_stdout : string;
  p_stderr : string;
  p_returncode : Z;
  p_fs : gmap string string
}.

Inductive checker := MP3Val | FlacTest | OggzValidate.

Record World := {
  fs : gmap string string;                 (* path -> bytes of the file       *)
  db : list Item;                          (* rows of the library             *)
  all_available : option (list checker);   (* IntegrityChecker._all_available *)
  stdin : list bool;                       (* answers waiting for input_yn    *)
  isatty : bool;                           (* sys.stdout.isatty()             *)
  trace : list event
}.

Definition set_fs (f : gmap string string) (w : World) : World :=
  {| fs := f; db := db w; all_available := all_available w;
     stdin := stdin w; isatty := isatty w; trace := trace w |}.
Definition set_db (d : list Item) (w : World) : World :=
  {| fs := fs w; db := d; all_available := all_available w;
     stdin := stdin w; isatty := isatty w; trace := trace w |}.
Definition set_all_available (c : option (list checker)) (w : World) : World :=
  {| fs := fs w; db := db w; all_available := c;
     stdin := stdin w; isatty := isatty w; trace := trace w |}.
Definition set_stdin (a : list bool) (w : World) : World :=
  {| fs := fs w; db := db w; all_available := all_available w;
     stdin := a; isatty := isatty w; trace := trace w |}.
Definition add_event (e : event) (w : World) : World :=
  {| fs := fs w; db := db w; all_available := all_available w;
     stdin := stdin w; isatty := isatty w; trace := trace w ++ [e] |}.

(** ** The monad: world passing with exceptions *)

Definition M (A : Type) : Type := World -> result A * World.

Definition ret {A} (a : A) : M A := fun w => (Ok a, w).
Definition raise {A} (e : exn) : M A := fun w => (Raise e, w).
Definition bind {A B} (m : M A) (k : A -> M B) : M B :=
  fun w =>
    match m w with
    | (Ok a, w') => k a w'
    | (Raise e, w') => (Raise e, w')
    end.

(** [try: m  except ...: h]: [h e = None] when no clause matches [e]. *)
Definition try_except {A} (m : M A) (h : exn -> option (M A)) : M A :=
  fun w =>
    match m w with
    | (Ok a, w') => (Ok a, w')
    | (Raise e, w') =>
        match h e with
        | Some handler => handler w'
        | None => (Raise e, w')
        end
    end.

Notation "x <- m ;; k" := (bind m (fun x => k))
  (at level 100, m at next level, right associativity).
Notation "m ;;; k" := (bind m (fun _ => k))
  (at level 100, right associativity).

(** [for x in l: f(x)]. *)
Fixpoint for_each {A} (l : list A) (f : A -> M unit) : M unit :=
  match l with
  | [] => ret tt
  | x :: rest => f x ;;; for_each rest f
  end.

(** [[x for x in l if f(x)]]. *)
Fixpoint filter_m {A} (f : A -> M bool) (l : list A) : M (list A) :=
  match l with
  | [] => ret []
  | x :: rest =>
      b <- f x ;;
      tl <- filter_m f rest ;;
      ret (if b : bool then x :: tl else tl)
  end.

Definition emit (e : event) : M unit := fun w => (Ok tt, add_event e w).

Definition log_debug (m : logmsg) : M unit := emit (EvLog DEBUG m).
Definition log_info (m : logmsg) : M unit := emit (EvLog INFO m).
Definition log_warn (m : logmsg) : M unit := emit (EvLog WARN m).
Definition log_error (m : logmsg) : M unit := emit (EvLog ERROR m).
Definition print (s : string) : M unit := emit (EvPrint s).
Definition stdout_write (s : string) : M unit := emit (EvStdoutWrite s).

(** [with open(p, 'rb') as file: file.read()]. *)
Definition open_read (p : string) : M string :=
  fun w =>
    match fs w !! p with
    | Some data => (Ok data, w)
    | None => (Raise (IOError p), w)
    end.

(** [os.remove(p)]: an absent file is an [OSError]. *)
Definition os_remove (p : string) : M unit :=
  emit (EvRemove p) ;;;
  fun w =>
    match fs w !! p with
    | Some _ => (Ok tt, set_fs (delete p (fs w)) w)
    | None => (Raise (OSError p), w)
    end.

(** [beets.ui.input_yn(prompt, require=True)]: the next pending answer;
    an exhausted stdin is a [UserError]. *)
Definition input_yn (prompt : string) : M bool :=
  emit (EvInputYn prompt) ;;;
  fun w =>
    match stdin w with
    | a :: rest => (Ok a, set_stdin rest w)
    | [] => (Raise (UserError "stdin stream ended while input required"), w)
    end.

(** [item.store()]: the row with the item's id is replaced. *)
Definition store (item : Item) : M unit :=
  emit (EvStore item) ;;;
  fun w =>
    (Ok tt,
     set_db (map (fun row => if Nat.eqb (item_id row) (item_id item)
                             then item else row) (db w)) w).

(** [item['checksum']]. *)
Definition getitem_checksum (item : Item) : M string :=
  match checksum item with
  | Some c => ret c
  | None => raise (KeyError "checksum")
  end.

(** Truth value of [item.get('checksum', None)]. *)
Definition get_checksum_truthy (item : Item) : bool :=
  match checksum item with
  | Some c => PyStr.truthy c
  | None => false
  end.

(** ['checksum' in item]. *)
Definition contains_checksum (item : Item) : bool :=
  match checksum item with
  | Some _ => true
  | None => false
  end.

(** ** The plugin *)

Section Plugin.

(** The subprocess contract: what running [argv] on a file system yields.
    [None] is an executable that cannot be started. *)
Variable popen : list string -> gmap string string -> option ProcResult.

(** The query language of the library: whether a row is selected. *)
Variable matches : list string -> Item -> bool.

(** [beets.util.displayable_path]. *)
Variable displayable_path : string -> string.

(** [Popen(argv, ...).communicate()] with the return code. *)
Definition Popen_communicate (argv : list string) : M (string * string * Z) :=
  emit (EvPopen argv) ;;;
  fun w =>
    match popen argv (fs w) with
    | Some pr => (Ok (p_stdout pr, p_stderr pr, p_returncode pr), set_fs (p_fs pr) w)
    | None => (Raise (OSError (hd "" argv)), w)
    end.

(** [subprocess.check_call(argv)]. *)
Definition check_call (argv : list string) : M unit :=
  r <- Popen_communicate argv ;;
  if Z.eqb (snd r) 0 then ret tt else raise (CalledProcessError (snd r)).

(** [self.lib.items(self.query)]. *)
Definition lib_items (query : list string) : M (list Item) :=
  fun w => (Ok (List.filter (matches query) (db w)), w).

(** *** Checksums *)

Definition compute_checksum (item : Item) : M string :=
  data <- open_read (path item) ;;
  ret (Hashlib.sha256_hexdigest data).

(** The item is a mutable object in the source; here the mutated item is
    returned. *)
Definition set_checksum (item : Item) : M Item :=
  c <- compute_checksum item ;;
  let item' := with_checksum c item in
  store item' ;;;
  ret item'.

Definition verify_checksum (item : Item) : M unit :=
  stored <- getitem_checksum item ;;
  computed <- compute_checksum item ;;
  if negb (String.eqb stored computed)
  then raise (ChecksumError (path item) "checksum did not match value in library.")
  else ret tt.

(** *** Integrity checkers *)

Definition program (c : checker) : string :=
  match c with
  | MP3Val => "mp3val"
  | FlacTest => "flac"
  | OggzValidate => "oggz-validate"
  end.

Definition arguments (c : checker) : list string :=
  match c with
  | FlacTest => ["--test"; "--silent"]
  | _ => []
  end.

Definition formats (c : checker) : list string :=
  match c with
  | MP3Val => ["MP3"]
  | FlacTest => ["FLAC"]
  | OggzValidate => ["OGG"]
  end.

Definition in_formats (fmt : string) (c : checker) : bool :=
  existsb (String.eqb fmt) (formats c).

(** [log_matcher]: [^WARNING: .* \(offset 0x[0-9a-f]+\): G$], where the
    group [G] is a greedy run of any characters. *)
Definition log_matcher : Re.regex :=
  Re.seq [Re.Bol; Re.Lit "WARNING: "; Re.Star Re.Dot; Re.Lit " (offset 0x";
          Re.Plus Re.HexLower; Re.Lit "): "; Re.Group (Re.Star Re.Dot); Re.Eol].

(** [error_matcher]: [^.*: ERROR,? G$], with the same group [G]. *)
Definition error_matcher : Re.regex :=
  Re.seq [Re.Bol; Re.Star Re.Dot; Re.Lit ": ERROR"; Re.Opt ","%char; Re.Lit " ";
          Re.Group (Re.Star Re.Dot); Re.Eol].

(** [for line in lines: match = r.match(line); if match: raise
    IntegrityError(path, match.group(1))]. *)
Fixpoint raise_on_first_match (r : Re.regex) (lines : list string)
    (p : string) : result unit :=
  match lines with
  | [] => Ok tt
  | line :: rest =>
      match Re.match_ r line with
      | Some caps => Raise (IntegrityError p (Re.group1 caps))
      | None => raise_on_first_match r rest p
      end
  end.

Definition MP3Val_parse (stdout stderr : string) (returncode : Z)
    (p : string) : result unit :=
  raise_on_first_match log_matcher (PyStr.split PyStr.newline stdout) p.

Definition FlacTest_parse (stdout stderr : string) (returncode : Z)
    (p : string) : result unit :=
  if Z.eqb returncode 0 then Ok tt
  else raise_on_first_match error_matcher (PyStr.split PyStr.newline stderr) p.

Definition OggzValidate_parse (stdout stderr : string) (returncode : Z)
    (p : string) : result unit :=
  if Z.eqb returncode 0 then Ok tt
  else
    match nth_error (PyStr.split PyStr.newline stderr) 1 with
    | Some line => Raise (IntegrityError p (PyStr.remove_char ":"%char line))
    | None => Raise IndexError
    end.

Definition parse (c : checker) (stdout stderr : string) (returncode : Z)
    (p : string) : result unit :=
  match c with
  | MP3Val => MP3Val_parse stdout stderr returncode p
  | FlacTest => FlacTest_parse stdout stderr returncode p
  | OggzValidate => OggzValidate_parse stdout stderr returncode p
  end.

Definition lift {A} (r : result A) : M A := fun w => (r, w).

(** [IntegrityChecker.all()]: one instance per subclass, in definition
    order. *)
Definition all_checkers : list checker := [MP3Val; FlacTest; OggzValidate].

(** [available]: only an [OSError] means "not installed". *)
Definition available (c : checker) : M bool :=
  try_except (check_call [program c; "-v"] ;;; ret true)
    (fun e => match e with
              | OSError _ => Some (ret false)
              | _ => None
              end).

(** [allAvailable], cached in the class attribute [_all_available]. *)
Definition allAvailable : M (list checker) :=
  fun w =>
    match all_available w with
    | Some l => (Ok l, w)
    | None =>
        (l <- filter_m available all_checkers ;;
         (fun w' => (Ok tt, set_all_available (Some l) w')) ;;;
         ret l) w
    end.

Definition can_fix (c : checker) (item : Item) : bool :=
  match c with
  | MP3Val => in_formats (format item) MP3Val
  | _ => false
  end.

(** [IntegrityChecker.fixer]: the first available checker that can fix
    the item, [None] when the loop ends. *)
Definition fixer (item : Item) : M (option checker) :=
  l <- allAvailable ;;
  ret (find (fun c => can_fix c item) l).

Definition run (c : checker) (item : Item) : M unit :=
  if negb (in_formats (format item) c) then ret tt
  else
    r <- Popen_communicate ([program c] ++ arguments c ++ [path item]) ;;
    lift (parse c (fst (fst r)) (snd (fst r)) (snd r) (path item)).

Definition checker_check (c : checker) (item : Item) : M unit := run c item.

(** [MP3Val.fix]; the other checkers have no [fix] method. *)
Definition checker_fix (c : checker) (item : Item) (backup : bool) : M unit :=
  match c with
  | MP3Val =>
      Popen_communicate [program MP3Val; "-f"; path item] ;;;
      if negb backup then os_remove (path item +:+ ".bak") else ret tt
  | _ => raise (AttributeError "fix")
  end.

Definition verify_integrity (item : Item) : M unit :=
  l <- allAvailable ;;
  for_each l (fun c => run c item).

Definition verify (item : Item) : M unit :=
  verify_checksum item ;;;
  verify_integrity item.

(** *** The [check] command *)

Record CheckCommand := {
  threads : nat;
  check_integrity : bool;
  fix_backup : bool;
  quiet : bool;
  query : list string;
  force_update : bool
}.

Variable self : CheckCommand.

(** [self.log]. *)
Definition cmd_log (msg : string) : M unit :=
  if quiet self then ret tt else print msg.

Definition progress_text (msg : string) (index total : nat) : string :=
  msg +:+ ": " +:+ pretty index +:+ "/" +:+ pretty total
      +:+ " [" +:+ pretty (index * 100 / total) +:+ "%]".

Definition log_progress (msg : string) (index total : nat) : M unit :=
  fun w =>
    if quiet self || negb (isatty w) then (Ok tt, w)
    else
      (if Nat.eqb total 0 then raise ZeroDivisionError
       else
         let m := progress_text msg index total in
         stdout_write (m +:+ PyStr.cr) ;;;
         if Nat.eqb index total then stdout_write PyStr.lf
         else stdout_write (PyStr.spaces (String.length m) +:+ PyStr.cr)) w.

(** The loop of [execute_with_progress] from [finished] on.  The closure
    [func] updates the variables it captured, here the value [st].  The
    tasks of the pool are run one at a time, in the order of submission;
    an exception that leaves [func] surfaces when the loop reaches its
    result and ends the loop. *)
Fixpoint execute_loop {S} (func : Item -> S -> M S) (args : list Item)
    (msg : string) (total finished : nat) (st : S) : M S :=
  match args with
  | [] => ret st
  | item :: rest =>
      st' <- func item st ;;
      log_progress msg (finished + 1) total ;;;
      execute_loop func rest msg total (finished + 1) st'
  end.

Definition execute_with_progress {S} (func : Item -> S -> M S)
    (args : list Item) (msg : string) (st : S) : M S :=
  execute_loop func args msg (length args) 0 st.

Record status := { failures : nat; integrity : nat }.

Definition no_checkers_warning : string :=
  "No integrity checkers found. Run 'beet check --list -tools'".

(** The [try] block of the closure [check] of [CheckCommand.check]. *)
Definition check_body (checksums integ : bool) (item : Item) : M unit :=
  (if checksums && get_checksum_truthy item then verify_checksum item else ret tt) ;;;
  (if integ then verify_integrity item else ret tt) ;;;
  log_debug (MsgOK (path item)).

(** The closure [check] of [CheckCommand.check] with its [except] clauses. *)
Definition check_item (checksums integ : bool) (item : Item) (st : status) : M status :=
  try_except (check_body checksums integ item ;;; ret st)
    (fun e =>
       match e with
       | ChecksumError _ _ =>
           Some (log_error (MsgFAILED (path item)) ;;;
                 ret {| failures := failures st + 1; integrity := integrity st |})
       | IntegrityError _ reason =>
           Some (log_warn (MsgWARNING reason (path item)) ;;;
                 ret {| failures := failures st; integrity := integrity st + 1 |})
       | IOError _ =>
           Some (log_error (MsgERROR e) ;;;
                 ret {| failures := failures st + 1; integrity := integrity st |})
       | _ => None
       end).

Definition check (checksums : bool) (integ : option bool) : M unit :=
  let integ0 := match integ with Some b => b | None => check_integrity self end in
  integ1 <- (if integ0 then
               avail <- allAvailable ;;
               match avail with
               | [] =>
                   if negb checksums then raise (UserError no_checkers_warning)
                   else log_warn (MsgText no_checkers_warning) ;;; ret false
               | _ :: _ => ret true
               end
             else ret false) ;;
  (if integ1 : bool then
     avail <- allAvailable ;;
     let progs := map program avail in
     let plural := if Nat.ltb 1 (length progs) then "s" else "" in
     cmd_log ("Using integrity checker" +:+ plural +:+ " " +:+ PyStr.join ", " progs)
   else ret tt) ;;;
  items <- lib_items (query self) ;;
  msg <- (if checksums && integ1 then ret "Verifying checksums and integrity"
          else if checksums then ret "Verifying checksums"
          else if integ1 then ret "Verifying integrity"
          else raise (UnboundLocalError "msg")) ;;
  st <- execute_with_progress (check_item checksums integ1) items msg
          {| failures := 0; integrity := 0 |} ;;
  (if negb (Nat.eqb (integrity st) 0)
   then cmd_log ("Found " +:+ pretty (integrity st) +:+ " integrity error(s)")
   else if negb checksums then cmd_log "Integrity successfully verified"
   else ret tt) ;;;
  if negb (Nat.eqb (failures st) 0)
  then cmd_log ("Failed to verify checksum of " +:+ pretty (failures st) +:+ " file(s)") ;;;
       raise (SystemExit 15)
  else if checksums then cmd_log "All checksums successfully verified"
  else ret tt.

(** *** [export] *)

Definition export_line (item : Item) : string :=
  match checksum item with
  | Some c => c +:+ " *" +:+ displayable_path (path item)
  | None => ""
  end.

Definition export : M unit :=
  items <- lib_items (query self) ;;
  for_each items
    (fun item => if get_checksum_truthy item then print (export_line item) else ret tt).

(** *** [fix] *)

(** The [try] block of the closure [check] of [CheckCommand.fix]. *)
Definition fix_check_body (item : Item) : M unit :=
  (if contains_checksum item then verify_checksum item else ret tt) ;;;
  f <- fixer item ;;
  match f with
  | Some c => checker_check c item ;;; log_debug (MsgOK (path item))
  | None => ret tt
  end.

(** The closure [check] of [CheckCommand.fix]; [failed] is the captured
    list it appends to. *)
Definition fix_check_item (item : Item) (failed : list Item) : M (list Item) :=
  try_except (fix_check_body item ;;; ret failed)
    (fun e =>
       match e with
       | IntegrityError _ _ => Some (ret (failed ++ [item]))
       | ChecksumError _ _ =>
           Some (log_error (MsgFAILEDChecksum (path item)) ;;; ret failed)
       | IOError _ => Some (log_error (MsgERROR e) ;;; ret failed)
       | _ => None
       end).

(** The closure [fix] of [CheckCommand.fix]. *)
Definition fix_item (backup : bool) (item : Item) (st : unit) : M unit :=
  f <- fixer item ;;
  match f with
  | Some c =>
      checker_fix c item backup ;;;
      log_debug (MsgFIXED (path item)) ;;;
      set_checksum item ;;;
      ret tt
  | None => ret tt
  end.

(** [CheckCommand.fix]; [fix] is reserved in Rocq. *)
Definition fix_ (ask backup : bool) : M unit :=
  items <- lib_items (query self) ;;
  failed <- execute_with_progress fix_check_item items "Verifying integrity" [] ;;
  match failed with
  | [] => cmd_log "No MP3 files to fix"
  | _ :: _ =>
      for_each failed (fun item => log_info (MsgPath (path item))) ;;;
      let backup_msg := if backup then "Backup files will be created."
                        else "No backup files will be created." in
      go <- (if ask
             then input_yn ("Do you want to fix these files? " +:+ backup_msg +:+ " (y/n)")
             else ret true) ;;
      if negb go then ret tt
      else execute_with_progress (fix_item backup) failed "Fixing files" tt
  end.

(** The result of the [try] block [body] for each item that the loop of
    [execute_with_progress] reaches, in order.  The loop runs [func] (the
    block with its [except] clauses) and [log_progress] on each item. *)
Fixpoint body_results {S} (body : Item -> M unit) (func : Item -> S -> M S)
    (args : list Item) (msg : string) (total finished : nat) (st : S)
    (w : World) : list (result unit) :=
  match args with
  | [] => []
  | item :: rest =>
      fst (body item w) ::
      match (st' <- func item st ;;
             log_progress msg (finished + 1) total ;;;
             ret st') w with
      | (Ok st', w') => body_results body func rest msg total (finished + 1) st' w'
      | (Raise _, _) => []
      end
  end.

(** The selected items that [export] prints, with what it prints. *)
Definition exported_items (w : World) : list Item :=
  List.filter get_checksum_truthy (List.filter (matches (query self)) (db w)).

End Plugin.

(** ** The other commands and the plugin's event handlers *)

(** [[f(x) for x in l]]. *)
Fixpoint map_m {A B} (f : A -> M B) (l : list A) : M (list B) :=
  match l with
  | [] => ret []
  | x :: rest =>
      y <- f x ;;
      tl <- map_m f rest ;;
      ret (y :: tl)
  end.

(** The inner loop of [copy_original_checksum]: [found] is the value of
    the variable [checksum] so far; a replaced item without the field is
    skipped ([KeyError], [continue]), a truthy value ends the loop
    ([break]). *)
Fixpoint first_checksum (found : option string) (replaced : list Item) : option string :=
  match replaced with
  | [] => found
  | r :: rest =>
      match checksum r with
      | None => first_checksum found rest
      | Some c => if PyStr.truthy c then Some c else first_checksum (Some c) rest
      end
  end.

(** The options of the command line, as [optparse] stores them. *)
Record Options := {
  opt_only_integrity : bool;
  opt_add : bool;
  opt_update : bool;
  opt_force : bool;
  opt_export : bool;
  opt_fix : bool;
  opt_fix_backup : bool;
  opt_list_tools : bool;
  opt_quiet : bool
}.

Section Commands.

Variable popen : list string -> gmap string string -> option ProcResult.
Variable matches : list string -> Item -> bool.
Variable displayable_path : string -> string.

(** [beets.ui.colorize]. *)
Variable colorize : string -> string -> string.

(** [str(exc)] of an exception. *)
Variable exn_str : exn -> string.

(** *** Event handlers of [CheckPlugin] *)

Definition item_imported (item : Item) : M Item :=
  if negb (get_checksum_truthy item) then set_checksum item else ret item.

Definition album_imported (items : list Item) : M unit :=
  for_each items (fun item => item_imported item ;;; ret tt).

Definition item_before_write (item : Item) (p : string) : M unit :=
  if negb (String.eqb p (path item)) then ret tt
  else if get_checksum_truthy item then verify_checksum item
  else ret tt.

Definition item_after_write (item : Item) (p : string) : M Item :=
  if negb (String.eqb p (path item)) then ret item
  else set_checksum item.

Definition after_convert (item : Item) (dest : string) (keepnew : bool) : M Item :=
  if keepnew then set_checksum item else ret item.

(** The task gives each imported item with the items it replaces. *)
Definition copy_original_checksum (task : list (Item * list Item)) : M unit :=
  for_each task
    (fun entry =>
       match first_checksum None (snd entry) with
       | Some c =>
           if PyStr.truthy c then store (with_checksum c (fst entry)) else ret tt
       | None => ret tt
       end).

(** The first loop of [verify_import_integrity]. *)
Fixpoint import_integrity_errors (items : list Item) (errors : list exn) : M (list exn) :=
  match items with
  | [] => ret errors
  | item :: rest =>
      errors' <- try_except (verify_integrity popen item ;;; ret errors)
                   (fun e => match e with
                             | IntegrityError _ _ => Some (ret (errors ++ [e]))
                             | _ => None
                             end) ;;
      import_integrity_errors rest errors'
  end.

(** The result tells whether [task.choice_flag] was set to [SKIP];
    [import_quiet] is [beets.config['import']['quiet']].  In the second
    loop [item] is still the variable of the first loop: its last
    value. *)
Definition verify_import_integrity (import_quiet : bool) (items : list Item) : M bool :=
  match last items with
  | None => ret false
  | Some item =>
      integrity_errors <- import_integrity_errors items [] ;;
      match integrity_errors with
      | [] => ret false
      | _ :: _ =>
          log_warn (MsgText "Warning: failed to verify integrity") ;;;
          for_each integrity_errors
            (fun error =>
               log_warn (MsgText ("  " +:+ path item +:+ ": " +:+ exn_str error))) ;;;
          skip <- (if import_quiet then ret true
                   else input_yn "Do you want to skip this album (Y/n)") ;;
          if skip : bool then log_info (MsgText "Skipping.") ;;; ret true
          else ret false
      end
  end.

(** *** [add], [update] and [list_tools] *)

Variable self : CheckCommand.

(** The closure [add] of [CheckCommand.add]. *)
Definition add_item (item : Item) (st : unit) : M unit :=
  log_debug (MsgText ("adding checksum for " +:+ path item)) ;;;
  item' <- set_checksum item ;;
  if check_integrity self then
    try_except (verify_integrity popen item')
      (fun e => match e with
                | IntegrityError _ reason =>
                    Some (log_warn (MsgWARNING reason (path item')))
                | _ => None
                end)
  else ret tt.

Definition add : M unit :=
  cmd_log self "Looking for files without checksums..." ;;;
  selected <- lib_items matches (query self) ;;
  let items := List.filter (fun i => negb (get_checksum_truthy i)) selected in
  execute_with_progress self add_item items "Adding missing checksums" tt.

(** The closure [update] of [CheckCommand.update]. *)
Definition update_item (item : Item) (st : unit) : M unit :=
  log_debug (MsgText ("updating checksum: " +:+ displayable_path (path item))) ;;;
  try_except (set_checksum item ;;; ret tt)
    (fun e => match e with
              | IOError _ => Some (log_error (MsgERROR e))
              | _ => None
              end).

Definition update : M unit :=
  go <- (if match query self with [] => true | _ :: _ => false end
            && negb (force_update self)
         then input_yn "Do you want to overwrite all checksums in your database? (y/n)"
         else ret true) ;;
  if negb go then ret tt
  else
    items <- lib_items matches (query self) ;;
    execute_with_progress self update_item items "Updating checksums" tt.

Definition list_tools : M unit :=
  checkers <- map_m (fun c => a <- available popen c ;; ret (program c, a)) all_checkers ;;
  let prog_length := list_max (map (fun c => String.length (fst c)) checkers) + 3 in
  for_each checkers
    (fun c =>
       let msg := fst c +:+ PyStr.spaces (prog_length - String.length (fst c)) in
       print (msg +:+ (if snd c : bool then colorize "green" "found"
                       else colorize "red" "not found"))).

End Commands.

Section Dispatch.

Variable popen : list string -> gmap string string -> option ProcResult.
Variable matches : list string -> Item -> bool.
Variable displayable_path : string -> string.
Variable colorize : string -> string -> string.

(** [CheckCommand.func]: [self] holds the configuration read by
    [__init__]; the options and the query are stored in it first. *)
Definition func (self : CheckCommand) (options : Options) (arguments : list string) : M unit :=
  let self' := {| threads := threads self;
                  check_integrity := check_integrity self;
                  fix_backup := fix_backup self;
                  quiet := opt_quiet options;
                  query := arguments;
                  force_update := opt_force options |} in
  if opt_add options then add popen matches self'
  else if opt_update options then update matches displayable_path self'
  else if opt_export options then export matches displayable_path self'
  else if opt_fix options then
    fix_ popen matches self' (negb (opt_force options))
      (opt_fix_backup options && fix_backup self')
  else if opt_list_tools options then list_tools popen colorize
  else if opt_only_integrity options then check popen matches self' false (Some true)
  else check popen matches self' true None.

End Dispatch.

Arguments Hashlib.sha256_hexdigest : simpl never.
Arguments progress_text : simpl never.

(** ** Observations of a trace *)

(** The observations [f] makes of a trace, in order. *)
Definition obs {B} (f : event -> option B) (t : list event) : list B := omap f t.

Definition count_ev (p : event -> bool) (t : list event) : nat :=
  length (List.filter p t).

(** [w'] shows nothing new to [f]. *)
Definition silent {B} (f : event -> option B) (w w' : World) : Prop :=
  obs f (trace w') = obs f (trace w).

Definition is_ok (e : event) : bool :=
  match e with EvLog DEBUG (MsgOK _) => true | _ => false end.
Definition is_failed (e : event) : bool :=
  match e with EvLog ERROR (MsgFAILED _) => true | _ => false end.
Definition is_warning (e : event) : bool :=
  match e with EvLog WARN (MsgWARNING _ _) => true | _ => false end.
Definition is_error (e : event) : bool :=
  match e with EvLog ERROR (MsgERROR _) => true | _ => false end.
Definition is_log (e : event) : bool :=
  match e with EvLog _ _ => true | _ => false end.

(** The command line of a repair: [[program, '-f', path]]. *)
Definition is_repair_argv (argv : list string) : bool :=
  match argv with
  | [_; flag; _] => String.eqb flag "-f"
  | _ => false
  end.


(** What was written to standard output. *)
Fixpoint stdout_of (t : list event) : string :=
  match t with
  | [] => ""
  | EvPrint s :: rest => s +:+ PyStr.lf +:+ stdout_of rest
  | EvStdoutWrite s :: rest => s +:+ stdout_of rest
  | _ :: rest => stdout_of rest
  end.

(** ** Frames: what a computation leaves as it is

    [Frame R E m]: every run of [m] relates the world before to the world
    after by [R], and raises only exceptions in [E]. *)

Definition Frame (R : World -> World -> Prop) (E : exn -> Prop) {A} (m : M A) : Prop :=
  forall w r w', m w = (r, w') -> R w w' /\ (forall e, r = Raise e -> E e).

Definition any_exn (e : exn) : Prop := True.

(** What [verify_checksum] can raise. *)
Definition checksum_exn (e : exn) : Prop :=
  match e with
  | ChecksumError _ _ | IOError _ | KeyError _ => True
  | _ => False
  end.

Definition same_db (w w' : World) : Prop := db w' = db w.
Definition same_stdin (w w' : World) : Prop := stdin w' = stdin w.
Definition same_fs (w w' : World) : Prop := fs w' = fs w.






Definition is_store (e : event) : bool :=
  match e with EvStore _ => true | _ => false end.

(** An availability probe: [[program, '-v']]. *)
Definition is_probe (e : event) : bool :=
  match e with
  | EvPopen [_; flag] => String.eqb flag "-v"
  | _ => false
  end.

(** A reader of the export format: one record per newline-terminated
    line, cut at the first [" *"] into checksum and path. *)
Fixpoint split_star (line : string) : option (string * string) :=
  match line with
  | EmptyString => None
  | String a rest =>
      match PyStr.strip_prefix " *" line with
      | Some p => Some (EmptyString, p)
      | None =>
          match split_star rest with
          | Some (c, p) => Some (String a c, p)
          | None => None
          end
      end
  end.

Definition parse_export (out : string) : list (string * string) :=
  omap split_star (removelast (PyStr.split PyStr.newline out)).

(** The (checksum, path) pair of an item with a checksum. *)
Definition stored_pair (item : Item) : option (string * string) :=
  match checksum item with
  | Some c => Some (c, path item)
  | None => None
  end.

(** Relations that the steps of a validation keep: a change of the
    checker cache, a write to the terminal, and a subprocess other than
    a repair. *)
Class ValSafe (popen : list string -> gmap string string -> option ProcResult)
    (R : World -> World -> Prop) := {
  vs_preorder :: PreOrder R;
  vs_cache : forall c w, R w (set_all_available c w);
  vs_write : forall s w, R w (add_event (EvStdoutWrite s) w);
  vs_spawn : forall argv w, is_repair_argv argv = false -> R w (add_event (EvPopen argv) w);
  vs_proc : forall argv w pr,
      is_repair_argv argv = false -> popen argv (fs w) = Some pr -> R w (set_fs (p_fs pr) w)
}.

(** What may leave an item of a batch: anything but [SystemExit] and
    [UserError]. *)
Definition batch_exn (e : exn) : Prop :=
  match e with
  | SystemExit _ | UserError _ => False
  | _ => True
  end.


(** An observer of log lines only. *)
Definition log_observer (p : event -> bool) : Prop :=
  forall e, is_log e = false -> p e = false.

Definition counting (p : event -> bool) (e : event) : option event :=
  if p e then Some e else None.

(** What the [except] clauses of the closure [check] make of the result
    of its [try] block: the line that is logged and the new counters. *)
Definition check_report (item : Item) (r : result unit) : list event :=
  match r with
  | Ok _ => [EvLog DEBUG (MsgOK (path item))]
  | Raise (ChecksumError _ _) => [EvLog ERROR (MsgFAILED (path item))]
  | Raise (IntegrityError _ reason) => [EvLog WARN (MsgWARNING reason (path item))]
  | Raise (IOError x) => [EvLog ERROR (MsgERROR (IOError x))]
  | Raise _ => []
  end.

Definition check_status (st : status) (r : result unit) : result status :=
  match r with
  | Ok _ => Ok st
  | Raise (ChecksumError _ _) =>
      Ok {| failures := failures st + 1; integrity := integrity st |}
  | Raise (IntegrityError _ _) =>
      Ok {| failures := failures st; integrity := integrity st + 1 |}
  | Raise (IOError _) =>
      Ok {| failures := failures st + 1; integrity := integrity st |}
  | Raise e => Raise e
  end.

(** The failures reported so far: [FAILED] and [ERROR] lines. *)
Definition failure_reports (w : World) : nat :=
  count_ev is_failed (trace w) + count_ev is_error (trace w).

Definition same_failures (w w' : World) : Prop :=
  failure_reports w' = failure_reports w.

Definition not_SystemExit (e : exn) : Prop :=
  match e with
  | SystemExit _ => False
  | _ => True
  end.

(** A check run that got to its end: it returned or left through
    [sys.exit]. *)
Definition run_completed {A} (r : result A) : Prop :=
  match r with
  | Ok _ | Raise (SystemExit _) => True
  | Raise _ => False
  end.

(** How the result of a check run depends on the failures it reported. *)
Definition exit_status_spec (w : World) (r : result unit) (w' : World) : Prop :=
  (r = Raise (SystemExit 15) <->
   run_completed r /\ failure_reports w < failure_reports w') /\
  (r = Ok tt -> failure_reports w' = failure_reports w) /\
  (forall c, r = Raise (SystemExit c) -> c = 15%Z).

(** Every event added on the way from [w] to [w'] is an availability
    probe. *)
Definition only_probes (w w' : World) : Prop :=
  exists d, trace w' = trace w ++ d /\ forallb is_probe d = true.

(** A string of lowercase hexadecimal digits, as [hexdigest()] returns. *)
Fixpoint is_hex (s : string) : bool :=
  match s with
  | EmptyString => true
  | String c s' => Re.cclass_mem Re.HexLower c && is_hex s'
  end.

(** An item whose export line can be read back: a hexadecimal checksum
    and a displayed path without a newline. *)
Definition exportable (displayable_path : string -> string) (item : Item) : bool :=
  match checksum item with
  | Some c => is_hex c && negb (PyStr.contains_char PyStr.newline (displayable_path (path item)))
  | None => false
  end.

(** The pair an export line stands for. *)
Definition displayed_pair (displayable_path : string -> string) (item : Item)
    : string * string :=
  (match checksum item with Some c => c | None => EmptyString end,
   displayable_path (path item)).

(** The checksum that [copy_original_checksum] carries over from the
    replaced items: that of the first one with a non-empty checksum. *)
Definition carried_checksum (replaced : list Item) : option string :=
  match find get_checksum_truthy replaced with
  | Some r => checksum r
  | None => None
  end.

Definition carried_store (entry : Item * list Item) : option event :=
  match carried_checksum (snd entry) with
  | Some c => Some (EvStore (with_checksum c (fst entry)))
  | None => None
  end.

Definition is_prompt (e : event) : bool :=
  match e with EvInputYn _ => true | _ => false end.

Definition is_popen (e : event) : bool :=
  match e with EvPopen _ => true | _ => false end.

(** Events by which files or library rows are changed: a repair, a
    store, a removal. *)
Definition is_change (e : event) : bool :=
  match e with
  | EvPopen argv => is_repair_argv argv
  | EvStore _ => true
  | EvRemove _ => true
  | _ => false
  end.

(** Only events that satisfy [P] are added on the way from [w] to [w']. *)
Definition adds_only (P : event -> Prop) (w w' : World) : Prop :=
  exists d, trace w' = trace w ++ d /\ Forall P d.

(** Neither the pending input nor the prompts change. *)
Definition no_prompt (w w' : World) : Prop :=
  stdin w' = stdin w /\ count_ev is_prompt (trace w') = count_ev is_prompt (trace w).

(** A line that reports the outcome of one item of a check batch. *)
Definition is_report (e : event) : bool :=
  is_ok e || is_failed e || is_warning e || is_error e.

(** Log lines, printed lines and terminal writes. *)
Definition is_output (e : event) : bool :=
  match e with
  | EvLog _ _ | EvPrint _ | EvStdoutWrite _ => true
  | _ => false
  end.

(** Files, library rows, pending input and the checker cache are the
    same. *)
Definition same_state (w w' : World) : Prop :=
  fs w' = fs w /\ db w' = db w /\ stdin w' = stdin w /\
  all_available w' = all_available w.

(** Nothing happened but output. *)
Definition outputs_only (w w' : World) : Prop :=
  same_state w w' /\ exists d, trace w' = trace w ++ d /\ forallb is_output d = true.

(** The exceptions the closure [check] handles itself. *)
Definition handled_by_check (e : exn) : bool :=
  match e with
  | ChecksumError _ _ | IntegrityError _ _ | IOError _ => true
  | _ => false
  end.

Definition is_write (e : event) : bool :=
  match e with EvStdoutWrite _ => true | _ => false end.

(** The events [add] may cause when [selected] are the items it works
    on: output, validations and probes, and the store of a selected
    item with a checksum put in. *)
Definition add_event_allowed (selected : list Item) (e : event) : Prop :=
  match e with
  | EvStore item' => exists item c, In item selected /\ item' = with_checksum c item
  | EvPopen argv => is_repair_argv argv = false
  | EvRemove _ | EvInputYn _ => False
  | _ => True
  end.

(** Items dealt with by [update]: stored, or reported with an ERROR
    line. *)
Definition update_handled (w : World) : nat :=
  count_ev is_store (trace w) + count_ev is_error (trace w).


(** The items [add] works on: the selected rows without a checksum. *)
Definition add_selection (matches : list string -> Item -> bool)
    (self : CheckCommand) (w : World) : list Item :=
  List.filter (fun i => negb (get_checksum_truthy i))
    (List.filter (matches (query self)) (db w)).

(** Library rows and pending input are the same and nothing was
    repaired, stored or removed. *)
Definition untouched (w w' : World) : Prop :=
  db w' = db w /\ stdin w' = stdin w /\
  count_ev is_change (trace w') = count_ev is_change (trace w).

(** What [album_imported] stores for an item when the files are
    [files]: nothing for an item that has a checksum, else the item with
    the digest of its file. *)
Definition imported_store (files : gmap string string) (item : Item) : option event :=
  if get_checksum_truthy item then None
  else match files !! path item with
       | Some data => Some (EvStore (with_checksum (Hashlib.sha256_hexdigest data) item))
       | None => None
       end.

(** ** A small concrete installation

    Only [mp3val] is installed.  A file whose content is ["broken"] gets
    one warning from [mp3val]; [mp3val -f] rewrites the file and leaves
    the old bytes in [<path>.bak]. *)

Module Demo.

Definition popen (argv : list string) (files : gmap string string) : option ProcResult :=
  match argv with
  | [prog; arg] =>
      if negb (String.eqb prog "mp3val") then None
      else if String.eqb arg "-v" then
        Some {| p_stdout := ""; p_stderr := ""; p_returncode := 0; p_fs := files |}
      else
        Some {| p_stdout :=
                  if bool_decide (files !! arg = Some "broken")
                  then "WARNING: " +:+ arg +:+ " (offset 0x10): Garbage at the end of the file"
                  else "";
                p_stderr := ""; p_returncode := 0; p_fs := files |}
  | [prog; flag; arg] =>
      if String.eqb prog "mp3val" && String.eqb flag "-f" then
        match files !! arg with
        | Some old =>
            Some {| p_stdout := "FIXED"; p_stderr := ""; p_returncode := 0;
                    p_fs := <[arg := "fixed"]> (<[arg +:+ ".bak" := old]> files) |}
        | None =>
            Some {| p_stdout := ""; p_stderr := ""; p_returncode := 1; p_fs := files |}
        end
      else None
  | _ => None
  end.

(** No validator at all is installed. *)
Definition popen_none (argv : list string) (files : gmap string string) : option ProcResult :=
  None.

Definition matches (query : list string) (item : Item) : bool := true.

Definition displayable_path (p : string) : string := p.

Definition sha_abc : string :=
  "ba7816bf8f01cfea414140de5dae2223b00361a396177a9cb410ff61f20015ad".
Definition sha_empty : string :=
  "e3b0c44298fc1c149afbf4c8996fb92427ae41e4649b934ca495991b7852b855".

(** File A matches its checksum, file B was altered after it was
    fingerprinted, file C has no checksum yet. *)
Definition itemA : Item :=
  {| item_id := 1; path := "/music/a.mp3"; format := "MP3"; checksum := Some sha_abc |}.
Definition itemB : Item :=
  {| item_id := 2; path := "/music/b.mp3"; format := "MP3"; checksum := Some sha_abc |}.
Definition itemC : Item :=
  {| item_id := 3; path := "/music/c.mp3"; format := "MP3"; checksum := None |}.

Definition files : gmap string string :=
  {[ "/music/a.mp3" := "abc"; "/music/b.mp3" := "abd"; "/music/c.mp3" := "" ]}.

Definition world : World :=
  {| fs := files; db := [itemA; itemB; itemC]; all_available := None;
     stdin := []; isatty := false; trace := [] |}.

(** Two libraries with the same export: one file whose name holds a
    newline, and two files. *)
Definition item_newline : Item :=
  {| item_id := 1;
     path := "/music/a.mp3" +:+ PyStr.lf +:+ sha_empty +:+ " */music/b.mp3";
     format := "MP3"; checksum := Some sha_abc |}.
Definition item_a : Item :=
  {| item_id := 1; path := "/music/a.mp3"; format := "MP3"; checksum := Some sha_abc |}.
Definition item_b : Item :=
  {| item_id := 2; path := "/music/b.mp3"; format := "MP3"; checksum := Some sha_empty |}.

Definition world_newline : World :=
  {| fs := ∅; db := [item_newline]; all_available := None;
     stdin := []; isatty := false; trace := [] |}.
Definition world_two : World :=
  {| fs := ∅; db := [item_a; item_b]; all_available := None;
     stdin := []; isatty := false; trace := [] |}.

(** The file of item A is gone. *)
Definition world_missing : World :=
  {| fs := ∅; db := [itemA]; all_available := None;
     stdin := []; isatty := false; trace := [] |}.

(** File C is an MP3 file with a defect. *)
Definition world_broken : World :=
  {| fs := <["/music/c.mp3" := "broken"]> files; db := [itemA; itemB; itemC];
     all_available := None; stdin := []; isatty := false; trace := [] |}.

(** What [mp3val -f /music/c.mp3] leaves in [world_broken]. *)
Definition repair_result : ProcResult :=
  {| p_stdout := "FIXED"; p_stderr := ""; p_returncode := 0;
     p_fs := <["/music/c.mp3" := "fixed"]>
               (<["/music/c.mp3.bak" := "broken"]> (fs world_broken)) |}.

Definition cmd : CheckCommand :=
  {| threads := 4; check_integrity := false; fix_backup := true;
     quiet := false; query := []; force_update := false |}.

(** The same command run with [--force]. *)
Definition cmd_forced : CheckCommand :=
  {| threads := 4; check_integrity := false; fix_backup := true;
     quiet := false; query := []; force_update := true |}.

(** [beet check --fix --force]. *)
Definition options_fix_forced : Options :=
  {| opt_only_integrity := false; opt_add := false; opt_update := false;
     opt_force := true; opt_export := false; opt_fix := true;
     opt_fix_backup := true; opt_list_tools := false; opt_quiet := false |}.

Definition colorize (color text : string) : string := text.

Definition exn_str (e : exn) : string :=
  match e with
  | IntegrityError _ reason => reason
  | _ => "error"
  end.

(** The defect of file C is there and the user answers no. *)
Definition world_declining : World :=
  {| fs := <["/music/c.mp3" := "broken"]> files; db := [itemA; itemB; itemC];
     all_available := None; stdin := [false]; isatty := false; trace := [] |}.


(** A line of mp3val that reports a defect, and an output with it. *)
Definition warning_line : string :=
  "WARNING: /music/c.mp3 (offset 0x10): Garbage at the end of the file".
Definition mp3val_output : string := "fine" +:+ PyStr.lf +:+ warning_line.

End Demo.

(** ** Basic facts about the monad *)

Example sha256_constants :
  length Hashlib.K = 64 /\
  nth 0 Hashlib.K 0%N = 0x428a2f98%N /\ nth 63 Hashlib.K 0%N = 0xc67178f2%N /\
  nth 0 Hashlib.H0 0%N = 0x6a09e667%N /\ nth 7 Hashlib.H0 0%N = 0x5be0cd19%N.
Proof. vm_compute. repeat split. Qed.

Example sha256_abc :
  Hashlib.sha256_hexdigest "abc"
  = "ba7816bf8f01cfea414140de5dae2223b00361a396177a9cb410ff61f20015ad".
Proof. vm_compute. reflexivity. Qed.

Example sha256_empty :
  Hashlib.sha256_hexdigest ""
  = "e3b0c44298fc1c149afbf4c8996fb92427ae41e4649b934ca495991b7852b855".
Proof. vm_compute. reflexivity. Qed.

Example split_two : PyStr.split PyStr.newline (String "a" (String PyStr.newline "b")) = ["a"; "b"].
Proof. reflexivity. Qed.

Example split_empty : PyStr.split PyStr.newline "" = [""].
Proof. reflexivity. Qed.

Example split_trailing_newline :
  PyStr.split PyStr.newline ("error" +:+ PyStr.lf) = ["error"; ""].
Proof. reflexivity. Qed.

Example log_matcher_warning :
  Re.match_ log_matcher "WARNING: file.mp3 (offset 0x1a2b): Garbage at end"
  = Some ["Garbage at end"].
Proof. vm_compute. reflexivity. Qed.

Example log_matcher_uppercase_offset :
  Re.match_ log_matcher "WARNING: file.mp3 (offset 0x1A2b): Garbage at end" = None.
Proof. vm_compute. reflexivity. Qed.

Example error_matcher_error :
  Re.match_ error_matcher "file.flac: ERROR while decoding data"
  = Some ["while decoding data"].
Proof. vm_compute. reflexivity. Qed.

(** The greedy prefix takes the last [": ERROR"]. *)
Example error_matcher_greedy :
  Re.match_ error_matcher "file.flac: ERROR, MD5 mismatch: ERROR x" = Some ["x"].
Proof. vm_compute. reflexivity. Qed.

Example oggz_second_line :
  OggzValidate_parse "" ("a.ogg:" +:+ PyStr.lf +:+ "serialno 1: bad page") 1 "a.ogg"
  = Raise (IntegrityError "a.ogg" "serialno 1 bad page").
Proof. vm_compute. reflexivity. Qed.

(** The three-file collection: A is verified, B fails, C has no checksum
    and counts as verified; the run exits with status 15. *)
Example check_three_files :
  let '(r, w') := check Demo.popen Demo.matches Demo.cmd true None Demo.world in
  r = Raise (SystemExit 15) /\
  trace w' = [EvLog DEBUG (MsgOK "/music/a.mp3");
              EvLog ERROR (MsgFAILED "/music/b.mp3");
              EvLog DEBUG (MsgOK "/music/c.mp3");
              EvPrint "Failed to verify checksum of 1 file(s)"].
Proof. vm_compute. split; reflexivity. Qed.

(** A defective MP3 file is found, repaired without backup, and gets the
    checksum of the repaired bytes. *)
Example fix_broken_file :
  let '(r, w') := fix_ Demo.popen Demo.matches Demo.cmd false false Demo.world_broken in
  r = Ok tt /\
  drop 7 (trace w')
  = [EvLog INFO (MsgPath "/music/c.mp3");
     EvPopen ["mp3val"; "-f"; "/music/c.mp3"];
     EvRemove "/music/c.mp3.bak";
     EvLog DEBUG (MsgFIXED "/music/c.mp3");
     EvStore (with_checksum (Hashlib.sha256_hexdigest "fixed") Demo.itemC)] /\
  fs w' !! "/music/c.mp3" = Some "fixed" /\ fs w' !! "/music/c.mp3.bak" = None.
Proof. vm_compute. repeat split. Qed.

Example export_two_lines :
  stdout_of (trace (snd (export Demo.matches Demo.displayable_path Demo.cmd Demo.world)))
  = Demo.sha_abc +:+ " */music/a.mp3" +:+ PyStr.lf
    +:+ Demo.sha_abc +:+ " */music/b.mp3" +:+ PyStr.lf.
Proof. vm_compute. reflexivity. Qed.


Lemma bind_Ok {A B} (m : M A) (k : A -> M B) w a w1 :
  m w = (Ok a, w1) -> bind m k w = k a w1.
Proof. intros H. unfold bind. rewrite H. reflexivity. Qed.

Lemma bind_Raise {A B} (m : M A) (k : A -> M B) w e w1 :
  m w = (Raise e, w1) -> bind m k w = (Raise e, w1).
Proof. intros H. unfold bind. rewrite H. reflexivity. Qed.

Lemma bind_inv {A B} (m : M A) (k : A -> M B) w r w' :
  bind m k w = (r, w') ->
  (exists a w1, m w = (Ok a, w1) /\ k a w1 = (r, w')) \/
  (exists e, m w = (Raise e, w') /\ r = Raise e).
Proof.
  unfold bind. destruct (m w) as [[a|e] w1]; intros H.
  - left. eauto.
  - right. inversion H; subst. eauto.
Qed.

Lemma try_except_Ok {A} (m : M A) h w a w1 :
  m w = (Ok a, w1) -> try_except m h w = (Ok a, w1).
Proof. intros H. unfold try_except. rewrite H. reflexivity. Qed.

Lemma try_except_caught {A} (m : M A) h w e w1 handler :
  m w = (Raise e, w1) -> h e = Some handler -> try_except m h w = handler w1.
Proof. intros H Hh. unfold try_except. rewrite H, Hh. reflexivity. Qed.

Lemma try_except_escapes {A} (m : M A) h w e w1 :
  m w = (Raise e, w1) -> h e = None -> try_except m h w = (Raise e, w1).
Proof. intros H Hh. unfold try_except. rewrite H, Hh. reflexivity. Qed.

Lemma trace_add_event e w : trace (add_event e w) = trace w ++ [e].
Proof. reflexivity. Qed.

Lemma obs_app {B} (f : event -> option B) t1 t2 :
  obs f (t1 ++ t2) = obs f t1 ++ obs f t2.
Proof. unfold obs. apply omap_app. Qed.

Lemma count_ev_app p t1 t2 :
  count_ev p (t1 ++ t2) = count_ev p t1 + count_ev p t2.
Proof. unfold count_ev. rewrite List.filter_app, length_app. reflexivity. Qed.

Lemma count_ev_snoc p t e :
  count_ev p (t ++ [e]) = count_ev p t + (if p e then 1 else 0).
Proof. rewrite count_ev_app. unfold count_ev. simpl. destruct (p e); reflexivity. Qed.

Lemma count_ev_one p e : count_ev p [e] = if p e then 1 else 0.
Proof. unfold count_ev. simpl. destruct (p e); reflexivity. Qed.

Lemma count_ev_obs p t : count_ev p t = length (obs (counting p) t).
Proof.
  unfold count_ev, obs, counting. induction t as [|e t IH]; simpl; [reflexivity|].
  destruct (p e); simpl; rewrite IH; reflexivity.
Qed.

Lemma silent_count p w w' :
  silent (counting p) w w' -> count_ev p (trace w') = count_ev p (trace w).
Proof. unfold silent. intros H. rewrite !count_ev_obs, H. reflexivity. Qed.

(** ** Output parsers *)

Lemma raise_on_first_match_None r lines p :
  (forall line, In line lines -> Re.match_ r line = None) ->
  raise_on_first_match r lines p = Ok tt.
Proof.
  induction lines as [|l rest IH]; intros H; simpl.
  - reflexivity.
  - rewrite (H l) by (left; reflexivity).
    apply IH. intros line Hin. apply H. right. exact Hin.
Qed.

Lemma raise_on_first_match_Raise r lines p e :
  raise_on_first_match r lines p = Raise e ->
  exists line caps, In line lines /\ Re.match_ r line = Some caps /\
                    e = IntegrityError p (Re.group1 caps).
Proof.
  induction lines as [|l rest IH]; simpl; intros H.
  - discriminate.
  - destruct (Re.match_ r l) as [caps|] eqn:Hm.
    + inversion H; subst. exists l, caps. auto.
    + destruct (IH H) as (line & caps & Hin & Hmatch & He).
      exists line, caps. auto.
Qed.

(** C9. [OggzValidate.parse]: with a non-zero return code and fewer than
    two pieces in [stderr.split('\n')], reading element 1 is out of range
    and the parser raises [IndexError], not an [IntegrityError]. *)
Theorem OggzValidate_parse_IndexError (stdout stderr : string) (returncode : Z) (p : string) :
  returncode <> 0%Z ->
  length (PyStr.split PyStr.newline stderr) < 2 ->
  OggzValidate_parse stdout stderr returncode p = Raise IndexError.
Proof.
  intros Hrc Hlen. unfold OggzValidate_parse.
  destruct (Z.eqb_spec returncode 0) as [->|_]; [congruence|].
  destruct (PyStr.split PyStr.newline stderr) as [|l0 [|l1 rest]]; simpl in *;
    [reflexivity | reflexivity | lia].
Qed.

Lemma OggzValidate_parse_IndexError_witness :
  (1 <> 0)%Z /\ length (PyStr.split PyStr.newline "") < 2 /\
  OggzValidate_parse "" "" 1 "/music/a.ogg" = Raise IndexError.
Proof.
  split; [discriminate|]. split; [simpl; lia|].
  apply OggzValidate_parse_IndexError; [discriminate | simpl; lia].
Defined.

(** C10. [FlacTest.parse]: with a non-zero return code, when no line of
    stderr matches [error_matcher] the parser returns without raising;
    whatever it raises is an [IntegrityError] built from a matching
    line. *)
Theorem FlacTest_parse_needs_match (stdout stderr : string) (returncode : Z) (p : string) :
  returncode <> 0%Z ->
  ((forall line, In line (PyStr.split PyStr.newline stderr) ->
                 Re.match_ error_matcher line = None) ->
   FlacTest_parse stdout stderr returncode p = Ok tt) /\
  (forall e, FlacTest_parse stdout stderr returncode p = Raise e ->
     exists line caps, In line (PyStr.split PyStr.newline stderr) /\
       Re.match_ error_matcher line = Some caps /\
       e = IntegrityError p (Re.group1 caps)).
Proof.
  intros Hrc. unfold FlacTest_parse.
  destruct (Z.eqb_spec returncode 0) as [->|_]; [congruence|].
  split.
  - apply raise_on_first_match_None.
  - intros e. apply raise_on_first_match_Raise.
Qed.

Lemma FlacTest_parse_needs_match_witness :
  (1 <> 0)%Z /\
  (forall line, In line (PyStr.split PyStr.newline "a.flac: FAILED") ->
                Re.match_ error_matcher line = None) /\
  FlacTest_parse "" "a.flac: FAILED" 1 "/music/a.flac" = Ok tt.
Proof.
  assert (H : forall line, In line (PyStr.split PyStr.newline "a.flac: FAILED") ->
                           Re.match_ error_matcher line = None).
  { intros line [<-|[]]. reflexivity. }
  split; [discriminate|]. split; [exact H|].
  apply (FlacTest_parse_needs_match "" "a.flac: FAILED" 1 "/music/a.flac");
    [discriminate | exact H].
Defined.

(** ** Frame rules *)

Section Frames.

Context (R : World -> World -> Prop) `{!PreOrder R} (E : exn -> Prop).

Lemma frame_ret {A} (a : A) : Frame R E (ret a).
Proof. intros w r w' H. inversion H; subst. split; [reflexivity | discriminate]. Qed.

Lemma frame_raise {A} e : E e -> Frame R E (@raise A e).
Proof.
  intros He w r w' H. inversion H; subst.
  split; [reflexivity | intros e' He'; inversion He'; subst; exact He].
Qed.

Lemma frame_lift {A} (x : result A) :
  (forall e, x = Raise e -> E e) -> Frame R E (lift x).
Proof. intros Hx w r w' H. inversion H; subst. split; [reflexivity | exact Hx]. Qed.

Lemma frame_bind {A B} (m : M A) (k : A -> M B) :
  Frame R E m -> (forall a, Frame R E (k a)) -> Frame R E (bind m k).
Proof.
  intros Hm Hk w r w' H.
  destruct (bind_inv _ _ _ _ _ H) as [(a & w1 & H1 & H2)|(e & H1 & ->)].
  - destruct (Hm _ _ _ H1) as [HR1 _]. destruct (Hk _ _ _ _ H2) as [HR2 HE2].
    split; [transitivity w1; assumption | exact HE2].
  - destruct (Hm _ _ _ H1) as [HR1 HE1]. split; [exact HR1|].
    intros e' He'. inversion He'; subst. apply HE1. reflexivity.
Qed.

(** The [try] block may raise more ([E']) than what gets out ([E]). *)
Lemma frame_try_except {A} (E' : exn -> Prop) (m : M A) h :
  Frame R E' m ->
  (forall e handler, h e = Some handler -> Frame R E handler) ->
  (forall e, E' e -> h e = None -> E e) ->
  Frame R E (try_except m h).
Proof.
  intros Hm Hh Hesc w r w' H. unfold try_except in H.
  destruct (m w) as [[a|e] w1] eqn:Hmw.
  - inversion H; subst. destruct (Hm _ _ _ Hmw) as [HR _].
    split; [exact HR | discriminate].
  - destruct (Hm _ _ _ Hmw) as [HR HE].
    destruct (h e) as [handler|] eqn:He.
    + destruct (Hh _ _ He _ _ _ H) as [HR2 HE2].
      split; [transitivity w1; assumption | exact HE2].
    + inversion H; subst. split; [exact HR|].
      intros e' He'. inversion He'; subst. apply Hesc; [apply HE; reflexivity | exact He].
Qed.

Lemma frame_for_each {A} (l : list A) (f : A -> M unit) :
  (forall x, In x l -> Frame R E (f x)) -> Frame R E (for_each l f).
Proof.
  induction l as [|x rest IH]; intros Hf; simpl.
  - apply frame_ret.
  - apply frame_bind.
    + apply Hf. left. reflexivity.
    + intros _. apply IH. intros y Hy. apply Hf. right. exact Hy.
Qed.

Lemma frame_filter_m {A} (f : A -> M bool) (l : list A) :
  (forall x, Frame R E (f x)) -> Frame R E (filter_m f l).
Proof.
  intros Hf. induction l as [|x rest IH]; simpl.
  - apply frame_ret.
  - apply frame_bind; [apply Hf|]. intros b.
    apply frame_bind; [apply IH|]. intros tl. apply frame_ret.
Qed.

Lemma frame_open_read p : E (IOError p) -> Frame R E (open_read p).
Proof.
  intros HE w r w' H. unfold open_read in H.
  destruct (fs w !! p); inversion H; subst;
    (split; [reflexivity|]); intros e He; inversion He; subst; exact HE.
Qed.

Lemma frame_lib_items matches q : Frame R E (lib_items matches q).
Proof.
  intros w r w' H. inversion H; subst. split; [reflexivity | discriminate].
Qed.

End Frames.

Lemma frame_weaken (R : World -> World -> Prop) (E E' : exn -> Prop) {A} (m : M A) :
  (forall e, E e -> E' e) -> Frame R E m -> Frame R E' m.
Proof.
  intros HEE Hm w r w' H. destruct (Hm _ _ _ H) as [HR HE].
  split; [exact HR | intros e He; apply HEE, HE, He].
Qed.

Lemma frame_compute_checksum R `{!PreOrder R} item :
  Frame R checksum_exn (compute_checksum item).
Proof.
  unfold compute_checksum. apply frame_bind; try exact _.
  - apply frame_open_read; try exact _. exact I.
  - intros data. apply frame_ret; exact _.
Qed.

Lemma frame_verify_checksum R `{!PreOrder R} item :
  Frame R checksum_exn (verify_checksum item).
Proof.
  unfold verify_checksum. apply frame_bind; try exact _.
  - unfold getitem_checksum. destruct (checksum item).
    + apply frame_ret; exact _.
    + apply frame_raise; try exact _. exact I.
  - intros stored. apply frame_bind; try exact _.
    + apply frame_compute_checksum; exact _.
    + intros computed. destruct (negb _).
      * apply frame_raise; try exact _. exact I.
      * apply frame_ret; exact _.
Qed.

Global Instance silent_preorder {B} (f : event -> option B) : PreOrder (silent f).
Proof.
  split.
  - intros w. reflexivity.
  - intros w1 w2 w3 H12 H23. unfold silent in *. congruence.
Qed.

Global Instance same_db_preorder : PreOrder same_db.
Proof. split; unfold same_db; [intros w; reflexivity | intros w1 w2 w3; congruence]. Qed.
Global Instance same_stdin_preorder : PreOrder same_stdin.
Proof. split; unfold same_stdin; [intros w; reflexivity | intros w1 w2 w3; congruence]. Qed.
Global Instance same_fs_preorder : PreOrder same_fs.
Proof. split; unfold same_fs; [intros w; reflexivity | intros w1 w2 w3; congruence]. Qed.

Lemma silent_add_event {B} (f : event -> option B) e w :
  f e = None -> silent f w (add_event e w).
Proof.
  intros He. unfold silent. simpl.
  rewrite obs_app. unfold obs at 2. simpl. rewrite He. apply app_nil_r.
Qed.

(** C1. [verify_checksum] on an item with stored checksum [C]: it
    returns, leaving the world as it was, iff the file at [item.path]
    can be read and the hexadecimal SHA-256 digest of all its bytes is
    the string [C]; for a readable file any other digest raises
    [ChecksumError].  (A file that cannot be opened is the [IOError] of
    [open].) *)
Theorem verify_checksum_iff (item : Item) (C : string) (w : World) :
  checksum item = Some C ->
  (verify_checksum item w = (Ok tt, w) <->
   exists data, fs w !! path item = Some data /\ Hashlib.sha256_hexdigest data = C) /\
  (forall data,
     fs w !! path item = Some data ->
     Hashlib.sha256_hexdigest data <> C ->
     verify_checksum item w =
       (Raise (ChecksumError (path item) "checksum did not match value in library."), w)) /\
  (fs w !! path item = None ->
   verify_checksum item w = (Raise (IOError (path item)), w)).
Proof.
  intros HC.
  unfold verify_checksum, getitem_checksum, compute_checksum, bind, open_read, ret, raise.
  rewrite HC. destruct (fs w !! path item) as [data|] eqn:Hdata.
  - destruct (String.eqb_spec C (Hashlib.sha256_hexdigest data)) as [Heq|Hne]; simpl.
    + split; [split|split].
      * intros _. exists data. split; [reflexivity | symmetry; exact Heq].
      * reflexivity.
      * intros data' Hd Hn. inversion Hd; subst. congruence.
      * discriminate.
    + split; [split|split].
      * discriminate.
      * intros (data' & Hd & Heq). inversion Hd; subst. congruence.
      * reflexivity.
      * discriminate.
  - split; [split|split].
    + discriminate.
    + intros (data' & Hd & _). discriminate.
    + discriminate.
    + reflexivity.
Qed.

(** ** Validation keeps every [ValSafe] relation *)

Section Properties.

Variable popen : list string -> gmap string string -> option ProcResult.
Variable matches : list string -> Item -> bool.
Variable displayable_path : string -> string.
Variable self : CheckCommand.

Lemma validation_argv_not_repair c item :
  is_repair_argv ([program c] ++ arguments c ++ [path item]) = false.
Proof. destruct c; reflexivity. Qed.

Lemma probe_argv_not_repair c : is_repair_argv [program c; "-v"] = false.
Proof. reflexivity. Qed.

Lemma parse_exn c out err rc p e :
  parse c out err rc p = Raise e ->
  e = IndexError \/ exists reason, e = IntegrityError p reason.
Proof.
  destruct c; simpl.
  - unfold MP3Val_parse. intros H.
    destruct (raise_on_first_match_Raise _ _ _ _ H) as (l & caps & _ & _ & ->). eauto.
  - unfold FlacTest_parse. destruct (Z.eqb rc 0); [discriminate|]. intros H.
    destruct (raise_on_first_match_Raise _ _ _ _ H) as (l & caps & _ & _ & ->). eauto.
  - unfold OggzValidate_parse. destruct (Z.eqb rc 0); [discriminate|].
    destruct (nth_error _ 1); intros H; inversion H; subst; eauto.
Qed.

Section Validation.

Context (R : World -> World -> Prop) `{!ValSafe popen R}.

Lemma frame_Popen argv :
  is_repair_argv argv = false -> Frame R batch_exn (Popen_communicate popen argv).
Proof.
  intros Hargv w r w' H. unfold Popen_communicate, bind, emit in H. simpl in H.
  destruct (popen argv (fs w)) as [pr|] eqn:Hp; inversion H; subst.
  - split; [|discriminate].
    transitivity (add_event (EvPopen argv) w); [apply vs_spawn; exact Hargv|].
    apply (vs_proc argv); [exact Hargv | exact Hp].
  - split; [apply vs_spawn; exact Hargv|].
    intros e He. inversion He; subst. exact I.
Qed.

Lemma frame_available c : Frame R batch_exn (available popen c).
Proof.
  unfold available. apply (frame_try_except R batch_exn batch_exn).
  - apply frame_bind; try exact _.
    + unfold check_call. apply frame_bind; try exact _.
      * apply frame_Popen. reflexivity.
      * intros r. destruct (Z.eqb _ 0);
          [apply frame_ret; exact _ | apply frame_raise; [exact _ | exact I]].
    + intros _. apply frame_ret; exact _.
  - intros e handler He. destruct e; inversion He; subst. apply frame_ret; exact _.
  - intros e He _. exact He.
Qed.

Lemma frame_allAvailable : Frame R batch_exn (allAvailable popen).
Proof.
  intros w r w' H. unfold allAvailable in H.
  destruct (all_available w) as [l|] eqn:Hc.
  - inversion H; subst. split; [reflexivity | discriminate].
  - refine (_ w r w' H). clear H Hc.
    change (Frame R batch_exn
              (l <- filter_m (available popen) all_checkers ;;
               (fun w' => (Ok tt, set_all_available (Some l) w')) ;;; ret l)).
    apply frame_bind; try exact _.
    + apply frame_filter_m; try exact _. apply frame_available.
    + intros l. apply frame_bind; try exact _.
      * intros w1 r1 w1' H1. inversion H1; subst. split; [apply vs_cache | discriminate].
      * intros _. apply frame_ret; exact _.
Qed.

Lemma frame_fixer item : Frame R batch_exn (fixer popen item).
Proof.
  unfold fixer. apply frame_bind; try exact _; [apply frame_allAvailable|].
  intros l. apply frame_ret; exact _.
Qed.

Lemma frame_run c item : Frame R batch_exn (run popen c item).
Proof.
  unfold run. destruct (negb _); [apply frame_ret; exact _|].
  apply frame_bind; try exact _.
  - apply frame_Popen, validation_argv_not_repair.
  - intros r. apply frame_lift; try exact _. intros e He.
    destruct (parse_exn _ _ _ _ _ _ He) as [->|[reason ->]]; exact I.
Qed.

Lemma frame_verify_integrity item : Frame R batch_exn (verify_integrity popen item).
Proof.
  unfold verify_integrity. apply frame_bind; try exact _; [apply frame_allAvailable|].
  intros l. apply frame_for_each; try exact _. intros c _. apply frame_run.
Qed.

Lemma frame_log_progress msg index total :
  Frame R batch_exn (log_progress self msg index total).
Proof.
  intros w r w' H. unfold log_progress in H.
  destruct (quiet self || negb (isatty w)).
  - inversion H; subst. split; [reflexivity | discriminate].
  - destruct (Nat.eqb total 0).
    + inversion H; subst. split; [reflexivity|].
      intros e He. inversion He; subst. exact I.
    + unfold bind, stdout_write, emit in H. simpl in H.
      destruct (Nat.eqb index total); inversion H; subst;
        (split; [|discriminate]);
        (etransitivity; [apply vs_write|]); apply vs_write.
Qed.

Lemma frame_checksum_batch item : Frame R batch_exn (verify_checksum item).
Proof.
  apply (frame_weaken R checksum_exn); [|apply frame_verify_checksum; exact _].
  intros e He. destruct e; try exact I; destruct He.
Qed.

End Validation.

Lemma valsafe_silent {B} (f : event -> option B) :
  (forall s, f (EvStdoutWrite s) = None) ->
  (forall argv, is_repair_argv argv = false -> f (EvPopen argv) = None) ->
  ValSafe popen (silent f).
Proof.
  intros Hw Hp. split.
  - exact _.
  - intros c w. reflexivity.
  - intros s w. apply silent_add_event, Hw.
  - intros argv w Hargv. apply silent_add_event, Hp, Hargv.
  - intros argv w pr _ _. reflexivity.
Qed.

Lemma valsafe_counting p : log_observer p -> ValSafe popen (silent (counting p)).
Proof.
  intros Hp. apply valsafe_silent; intros; unfold counting; rewrite Hp; reflexivity.
Qed.

Lemma valsafe_same_db : ValSafe popen same_db.
Proof. split; [exact _ | reflexivity..]. Qed.

Lemma valsafe_same_stdin : ValSafe popen same_stdin.
Proof. split; [exact _ | reflexivity..]. Qed.


(** *** One item of a check batch *)

Lemma frame_check_prefix (R : World -> World -> Prop) `{!ValSafe popen R} checksums integ item :
  Frame R batch_exn
    ((if checksums && get_checksum_truthy item then verify_checksum item else ret tt) ;;;
     (if integ : bool then verify_integrity popen item else ret tt)).
Proof.
  apply frame_bind; try exact _.
  - destruct (checksums && _); [apply frame_checksum_batch; exact _ | apply frame_ret; exact _].
  - intros _. destruct integ; [apply frame_verify_integrity; exact _ | apply frame_ret; exact _].
Qed.

Lemma check_body_assoc checksums integ item w :
  check_body popen checksums integ item w =
  (((if checksums && get_checksum_truthy item then verify_checksum item else ret tt) ;;;
    (if integ then verify_integrity popen item else ret tt)) ;;;
   log_debug (MsgOK (path item))) w.
Proof.
  unfold check_body.
  generalize (if checksums && get_checksum_truthy item
              then verify_checksum item else ret tt).
  generalize (if integ then verify_integrity popen item else ret tt).
  intros B A. unfold bind. destruct (A w) as [[[]|e] w1]; reflexivity.
Qed.

Lemma check_body_spec checksums integ item w r w1 :
  check_body popen checksums integ item w = (r, w1) ->
  (forall e, r = Raise e -> batch_exn e) /\
  (forall p, log_observer p ->
     count_ev p (trace w1) = count_ev p (trace w) +
       match r with Ok _ => count_ev p (check_report item r) | Raise _ => 0 end).
Proof.
  rewrite check_body_assoc. intros H.
  destruct (bind_inv _ _ _ _ _ H) as [(a & w0 & H1 & H2)|(e & H1 & ->)].
  - inversion H2; subst. split; [discriminate|].
    intros p Hp.
    destruct (frame_check_prefix _ (ValSafe0 := valsafe_counting p Hp) _ _ _ _ _ _ H1)
      as [Hs _].
    simpl. rewrite count_ev_app, (silent_count _ _ _ Hs). reflexivity.
  - split.
    + destruct (frame_check_prefix _ (ValSafe0 := valsafe_same_db) _ _ _ _ _ _ H1) as [_ HE].
      intros e' He'. inversion He'; subst. apply HE. reflexivity.
    + intros p Hp.
      destruct (frame_check_prefix _ (ValSafe0 := valsafe_counting p Hp) _ _ _ _ _ _ H1)
        as [Hs _].
      rewrite (silent_count _ _ _ Hs). lia.
Qed.

Lemma check_item_spec checksums integ item st w r' w2 :
  check_item popen checksums integ item st w = (r', w2) ->
  r' = check_status st (fst (check_body popen checksums integ item w)) /\
  (forall e, r' = Raise e -> batch_exn e) /\
  (forall p, log_observer p ->
     count_ev p (trace w2) = count_ev p (trace w) +
       count_ev p (check_report item (fst (check_body popen checksums integ item w)))).
Proof.
  unfold check_item, try_except, bind at 1.
  destruct (check_body popen checksums integ item w) as [r w1] eqn:Hb.
  destruct (check_body_spec _ _ _ _ _ _ Hb) as [HE Hcount].
  destruct r as [[]|e]; simpl.
  - intros H. inversion H; subst. split; [reflexivity|]. split; [discriminate|].
    intros p Hp. rewrite (Hcount p Hp). reflexivity.
  - specialize (HE e eq_refl).
    destruct e; simpl; intros H; inversion H; subst;
      (split; [reflexivity|]);
      (split; [first [discriminate | intros e' He'; inversion He'; subst; exact HE]|]);
      intros p Hp; rewrite ?trace_add_event, ?count_ev_snoc, (Hcount p Hp);
      unfold count_ev; simpl; try destruct (p _); simpl; lia.
Qed.

Lemma is_failed_log : log_observer is_failed.
Proof. intros [] H; try reflexivity; discriminate. Qed.
Lemma is_warning_log : log_observer is_warning.
Proof. intros [] H; try reflexivity; discriminate. Qed.
Lemma is_error_log : log_observer is_error.
Proof. intros [] H; try reflexivity; discriminate. Qed.

Lemma log_progress_Ok msg index total w :
  total <> 0 -> exists w', log_progress self msg index total w = (Ok tt, w').
Proof.
  intros Ht. unfold log_progress.
  destruct (quiet self || negb (isatty w)); [eauto|].
  destruct (Nat.eqb_spec total 0) as [->|_]; [congruence|].
  unfold bind, stdout_write, emit. simpl. destruct (Nat.eqb index total); eauto.
Qed.

Lemma log_progress_counts msg index total w r w' p :
  log_observer p ->
  log_progress self msg index total w = (r, w') ->
  count_ev p (trace w') = count_ev p (trace w).
Proof.
  intros Hp H. apply silent_count.
  exact (proj1 (frame_log_progress _ (ValSafe0 := valsafe_counting p Hp) _ _ _ _ _ _ H)).
Qed.

(** *** The loop of [execute_with_progress] *)

Lemma loop_step_Ok {S} (body : Item -> M unit) (func : Item -> S -> M S)
    item rest msg total fin st w st1 w1 w2 :
  func item st w = (Ok st1, w1) ->
  log_progress self msg (fin + 1) total w1 = (Ok tt, w2) ->
  execute_loop self func (item :: rest) msg total fin st w
    = execute_loop self func rest msg total (fin + 1) st1 w2 /\
  body_results self body func (item :: rest) msg total fin st w
    = fst (body item w) :: body_results self body func rest msg total (fin + 1) st1 w2.
Proof.
  intros Hf Hl. simpl. unfold bind. rewrite Hf, Hl. split; reflexivity.
Qed.

Lemma loop_step_inv {S} (func : Item -> S -> M S) item rest msg total fin st w r w' :
  execute_loop self func (item :: rest) msg total fin st w = (r, w') ->
  (exists e, func item st w = (Raise e, w') /\ r = Raise e) \/
  (exists st1 w1,
     func item st w = (Ok st1, w1) /\
     ((exists e, log_progress self msg (fin + 1) total w1 = (Raise e, w') /\ r = Raise e) \/
      (exists w2, log_progress self msg (fin + 1) total w1 = (Ok tt, w2) /\
                  execute_loop self func rest msg total (fin + 1) st1 w2 = (r, w')))).
Proof.
  simpl. unfold bind.
  destruct (func item st w) as [[st1|e] w1] eqn:Hf.
  - destruct (log_progress self msg (fin + 1) total w1) as [[[]|e] w2] eqn:Hl; intros H.
    + right. exists st1, w1. split; [reflexivity|]. right.
      exists w2. split; [exact Hl | exact H].
    + inversion H; subst. right. exists st1, w1. split; [reflexivity|]. left.
      exists e. split; [exact Hl | reflexivity].
  - intros H. inversion H; subst. left. exists e. split; reflexivity.
Qed.

Lemma check_item_counts checksums integ item st w st1 w1 :
  check_item popen checksums integ item st w = (Ok st1, w1) ->
  failures st1 + failure_reports w = failures st + failure_reports w1 /\
  integrity st1 + count_ev is_warning (trace w) =
    integrity st + count_ev is_warning (trace w1).
Proof.
  intros H. destruct (check_item_spec _ _ _ _ _ _ _ H) as (Hr & _ & Hc).
  pose proof (Hc _ is_failed_log) as Hf.
  pose proof (Hc _ is_error_log) as He.
  pose proof (Hc _ is_warning_log) as Hw.
  unfold failure_reports. rewrite Hf, He, Hw. clear Hf He Hw Hc.
  destruct (fst (check_body popen checksums integ item w)) as [[]|e];
    [|destruct e]; simpl in Hr; inversion Hr; subst; unfold count_ev; simpl; lia.
Qed.

Lemma check_loop_spec checksums integ msg total items :
  forall fin st w r w',
    execute_loop self (check_item popen checksums integ) items msg total fin st w = (r, w') ->
    (forall e, r = Raise e -> batch_exn e) /\
    (forall st', r = Ok st' ->
       failures st' + failure_reports w = failures st + failure_reports w' /\
       integrity st' + count_ev is_warning (trace w) =
         integrity st + count_ev is_warning (trace w')).
Proof.
  induction items as [|item rest IH]; intros fin st w r w' H.
  - inversion H; subst. split; [discriminate|].
    intros st' Hst. inversion Hst; subst. split; reflexivity.
  - destruct (loop_step_inv _ _ _ _ _ _ _ _ _ _ H)
      as [(e & Hf & ->)|(st1 & w1 & Hf & [(e & Hl & ->)|(w2 & Hl & Hrest)])].
    + split; [|discriminate].
      intros e' He'. inversion He'; subst.
      exact (proj1 (proj2 (check_item_spec _ _ _ _ _ _ _ Hf)) _ eq_refl).
    + split; [|discriminate].
      intros e' He'. inversion He'; subst.
      exact (proj2 (frame_log_progress _ (ValSafe0 := valsafe_same_db) _ _ _ _ _ _ Hl)
               _ eq_refl).
    + destruct (IH _ _ _ _ _ Hrest) as [HE Hcount]. split; [exact HE|].
      intros st' Hst. destruct (Hcount st' Hst) as [Hc1 Hc2].
      destruct (check_item_counts _ _ _ _ _ _ _ Hf) as [Hi1 Hi2].
      pose proof (log_progress_counts _ _ _ _ _ _ _ is_failed_log Hl) as L1.
      pose proof (log_progress_counts _ _ _ _ _ _ _ is_error_log Hl) as L2.
      pose proof (log_progress_counts _ _ _ _ _ _ _ is_warning_log Hl) as L3.
      unfold failure_reports in *. lia.
Qed.




(** *** The exit status of a check run *)

Lemma frame_emit (R : World -> World -> Prop) E e :
  (forall w, R w (add_event e w)) -> Frame R E (emit e).
Proof. intros HR w r w' H. inversion H; subst. split; [apply HR | discriminate]. Qed.

Lemma frame_cmd_log (R : World -> World -> Prop) `{!PreOrder R} E msg :
  (forall w, R w (add_event (EvPrint msg) w)) -> Frame R E (cmd_log self msg).
Proof.
  intros HR. unfold cmd_log. destruct (quiet self).
  - apply frame_ret; exact _.
  - apply frame_emit, HR.
Qed.

Lemma same_failures_event e w :
  is_failed e = false -> is_error e = false -> same_failures w (add_event e w).
Proof.
  intros H1 H2. unfold same_failures, failure_reports.
  rewrite trace_add_event, !count_ev_snoc, H1, H2. lia.
Qed.

Global Instance same_failures_preorder : PreOrder same_failures.
Proof.
  split; unfold same_failures; [intros w; reflexivity | intros w1 w2 w3; congruence].
Qed.

Lemma valsafe_same_failures : ValSafe popen same_failures.
Proof.
  split.
  - exact _.
  - intros c w. reflexivity.
  - intros s w. apply same_failures_event; reflexivity.
  - intros argv w _. apply same_failures_event; reflexivity.
  - intros argv w pr _ _. reflexivity.
Qed.

Lemma batch_exn_not_SystemExit e : batch_exn e -> not_SystemExit e.
Proof. destruct e; simpl; auto. Qed.

Lemma exit_spec_aborted w e w' : not_SystemExit e -> exit_status_spec w (Raise e) w'.
Proof.
  intros Hn. unfold exit_status_spec. split; [split|split].
  - intros Heq. inversion Heq; subst. destruct Hn.
  - intros [Hc _]. destruct e; try destruct Hc. destruct Hn.
  - discriminate.
  - intros c Heq. inversion Heq; subst. destruct Hn.
Qed.

Lemma exit_spec_shift w w1 r w' :
  same_failures w w1 -> exit_status_spec w1 r w' -> exit_status_spec w r w'.
Proof. unfold same_failures, exit_status_spec. intros ->. auto. Qed.

Lemma exit_spec_bind {A} (m : M A) (k : A -> M unit) w r w' :
  Frame same_failures not_SystemExit m ->
  (forall a w1, k a w1 = (r, w') -> exit_status_spec w1 r w') ->
  bind m k w = (r, w') -> exit_status_spec w r w'.
Proof.
  intros Hm Hk H.
  destruct (bind_inv _ _ _ _ _ H) as [(a & w1 & H1 & H2)|(e & H1 & ->)].
  - apply (exit_spec_shift w w1); [exact (proj1 (Hm _ _ _ H1)) | exact (Hk _ _ H2)].
  - destruct (Hm _ _ _ H1) as [HR HE].
    apply exit_spec_aborted. apply HE. reflexivity.
Qed.

Lemma frame_allAvailable_failures :
  Frame same_failures not_SystemExit (allAvailable popen).
Proof.
  apply (frame_weaken _ batch_exn); [exact batch_exn_not_SystemExit|].
  apply frame_allAvailable. exact valsafe_same_failures.
Qed.

Lemma check_summary_spec checksums (st : status) w r w' :
  ((if negb (Nat.eqb (integrity st) 0)
    then cmd_log self ("Found " +:+ pretty (integrity st) +:+ " integrity error(s)")
    else if negb checksums then cmd_log self "Integrity successfully verified"
    else ret tt) ;;;
   if negb (Nat.eqb (failures st) 0)
   then cmd_log self ("Failed to verify checksum of " +:+ pretty (failures st) +:+ " file(s)") ;;;
        raise (SystemExit 15)
   else if checksums then cmd_log self "All checksums successfully verified"
   else ret tt) w = (r, w') ->
  same_failures w w' /\
  (failures st <> 0 -> r = Raise (SystemExit 15)) /\
  (failures st = 0 -> r = Ok tt).
Proof.
  assert (Hlog : forall msg w0 r0 w0',
             cmd_log self msg w0 = (r0, w0') -> same_failures w0 w0' /\ r0 = Ok tt).
  { intros msg w0 r0 w0'. unfold cmd_log, print, emit, ret.
    destruct (quiet self); intros H; inversion H; subst;
      (split; [|reflexivity]); [reflexivity | apply same_failures_event; reflexivity]. }
  intros H.
  destruct (bind_inv _ _ _ _ _ H) as [(a & w1 & H1 & H2)|(e & H1 & ->)].
  - assert (Hs1 : same_failures w w1).
    { destruct (negb (Nat.eqb (integrity st) 0)); [exact (proj1 (Hlog _ _ _ _ H1))|].
      destruct (negb checksums); [exact (proj1 (Hlog _ _ _ _ H1))|].
      inversion H1; subst. reflexivity. }
    destruct (Nat.eqb_spec (failures st) 0) as [Hz|Hnz]; simpl in H2.
    + assert (Hs2 : same_failures w1 w' /\ r = Ok tt).
      { destruct checksums; [exact (Hlog _ _ _ _ H2)|].
        inversion H2; subst. split; reflexivity. }
      destruct Hs2 as [Hs2 ->].
      split; [transitivity w1; assumption|]. split; [congruence | reflexivity].
    + destruct (bind_inv _ _ _ _ _ H2) as [(a2 & w2 & H3 & H4)|(e & H3 & ->)].
      * inversion H4; subst. destruct (Hlog _ _ _ _ H3) as [Hs2 _].
        split; [transitivity w1; assumption|]. split; [reflexivity | congruence].
      * destruct (Hlog _ _ _ _ H3) as [_ Habs]. discriminate.
  - exfalso.
    destruct (negb (Nat.eqb (integrity st) 0)); [destruct (Hlog _ _ _ _ H1); discriminate|].
    destruct (negb checksums); [destruct (Hlog _ _ _ _ H1); discriminate|].
    inversion H1.
Qed.

Lemma check_exit_status_spec checksums integ w r w' :
  check popen matches self checksums integ w = (r, w') -> exit_status_spec w r w'.
Proof.
  unfold check. apply exit_spec_bind.
  { destruct (match integ with Some b => b | None => check_integrity self end).
    - apply frame_bind; try exact _; [apply frame_allAvailable_failures|].
      intros [|c l].
      + destruct (negb checksums).
        * apply frame_raise; [exact _ | exact I].
        * apply frame_bind; try exact _.
          -- apply frame_emit. intros w0. apply same_failures_event; reflexivity.
          -- intros _. apply frame_ret; exact _.
      + apply frame_ret; exact _.
    - apply frame_ret; exact _. }
  intros integ1 w1. apply exit_spec_bind.
  { destruct integ1; [|apply frame_ret; exact _].
    apply frame_bind; try exact _; [apply frame_allAvailable_failures|].
    intros l. apply frame_cmd_log; try exact _.
    intros w0. apply same_failures_event; reflexivity. }
  intros _ w2. apply exit_spec_bind; [apply frame_lib_items; exact _|].
  intros items w3. apply exit_spec_bind.
  { destruct (checksums && integ1); [apply frame_ret; exact _|].
    destruct checksums; [apply frame_ret; exact _|].
    destruct integ1; [apply frame_ret; exact _ | apply frame_raise; [exact _ | exact I]]. }
  intros msg w4 H.
  destruct (bind_inv _ _ _ _ _ H) as [(st & w5 & H1 & H2)|(e & H1 & ->)].
  - destruct (proj2 (check_loop_spec _ _ _ _ _ _ _ _ _ _ H1) st eq_refl) as [Hf _].
    simpl in Hf.
    destruct (check_summary_spec _ _ _ _ _ H2) as (Hs & Hnz & Hz).
    unfold same_failures in Hs. unfold exit_status_spec. rewrite Hs.
    destruct (Nat.eq_dec (failures st) 0) as [Hz'|Hnz'].
    + rewrite (Hz Hz'). split; [split|split].
      * discriminate.
      * intros [_ Hlt]. lia.
      * intros _. lia.
      * discriminate.
    + rewrite (Hnz Hnz'). split; [split|split].
      * intros _. split; [exact I | lia].
      * reflexivity.
      * discriminate.
      * intros c Hc. inversion Hc; subst. reflexivity.
  - apply exit_spec_aborted, batch_exn_not_SystemExit.
    exact (proj1 (check_loop_spec _ _ _ _ _ _ _ _ _ _ H1) e eq_refl).
Qed.

(** C3, as amended.  A check run leaves through [sys.exit(15)] iff it got
    to its end and reported at least one failure, a FAILED line (the
    [except ChecksumError] clause) or an ERROR line (the [except IOError]
    clause); when it returns, no failure was reported.  Integrity
    warnings play no part, and 15 is the only exit status it sets. *)
Theorem check_exit_status checksums integ w r w' :
  check popen matches self checksums integ w = (r, w') ->
  (r = Raise (SystemExit 15) <->
   run_completed r /\ failure_reports w < failure_reports w') /\
  (r = Ok tt -> failure_reports w' = failure_reports w) /\
  (forall c, r = Raise (SystemExit c) -> c = 15%Z).
Proof. exact (check_exit_status_spec checksums integ w r w'). Qed.

(** *** No checker is installed *)

Global Instance only_probes_preorder : PreOrder only_probes.
Proof.
  split.
  - intros w. exists []. rewrite app_nil_r. split; reflexivity.
  - intros w1 w2 w3 (d1 & H1 & P1) (d2 & H2 & P2). exists (d1 ++ d2).
    rewrite H2, H1, app_assoc, forallb_app, P1, P2. split; reflexivity.
Qed.

Lemma probes_available c : Frame only_probes batch_exn (available popen c).
Proof.
  intros w r w' H.
  unfold available, try_except, check_call, Popen_communicate, bind, emit, ret, raise in H.
  simpl in H.
  assert (Hp : only_probes w (add_event (EvPopen [program c; "-v"]) w)).
  { exists [EvPopen [program c; "-v"]]. split; reflexivity. }
  destruct (popen [program c; "-v"] (fs w)) as [pr|]; simpl in H.
  - destruct (Z.eqb (p_returncode pr) 0); inversion H; subst;
      (split; [exact Hp|]); [discriminate|].
    intros e He. inversion He; subst. exact I.
  - inversion H; subst. split; [exact Hp | discriminate].
Qed.

Lemma probes_allAvailable : Frame only_probes batch_exn (allAvailable popen).
Proof.
  intros w r w' H. unfold allAvailable in H.
  destruct (all_available w) as [l|] eqn:Hc.
  - inversion H; subst. split; [reflexivity | discriminate].
  - refine (_ w r w' H). clear H Hc.
    change (Frame only_probes batch_exn
              (l <- filter_m (available popen) all_checkers ;;
               (fun w' => (Ok tt, set_all_available (Some l) w')) ;;; ret l)).
    apply frame_bind; try exact _.
    + apply frame_filter_m; try exact _. apply probes_available.
    + intros l. apply frame_bind; try exact _.
      * intros w1 r1 w1' H1. inversion H1; subst. split; [|discriminate].
        exists []. rewrite app_nil_r. split; reflexivity.
      * intros _. apply frame_ret; exact _.
Qed.

(** C6. Integrity checking is asked for (by the argument or, without
    one, by the configuration) and [allAvailable()] is empty.  With
    [checksums=False] the run raises [UserError] in the world the
    availability probes left: no item was fetched or processed.  With
    [checksums=True] it logs the warning and goes on exactly as a run
    with [integrity=False] does. *)
Theorem check_no_checkers integ w w1 :
  match integ with Some b => b | None => check_integrity self end = true ->
  allAvailable popen w = (Ok [], w1) ->
  check popen matches self false integ w = (Raise (UserError no_checkers_warning), w1) /\
  check popen matches self true integ w
    = check popen matches self true (Some false)
        (add_event (EvLog WARN (MsgText no_checkers_warning)) w1) /\
  only_probes w w1 /\ db w1 = db w.
Proof.
  intros Hint Hav. split; [|split; [|split]].
  - unfold check. rewrite Hint. unfold bind at 1. unfold bind at 1. rewrite Hav.
    reflexivity.
  - unfold check at 1. rewrite Hint. unfold bind at 1. unfold bind at 1. rewrite Hav.
    simpl negb. cbv iota. unfold bind at 1. unfold log_warn, emit.
    unfold check. unfold bind at 3. unfold ret at 5. reflexivity.
  - exact (proj1 (probes_allAvailable _ _ _ Hav)).
  - exact (proj1 (frame_allAvailable _ (ValSafe0 := valsafe_same_db) _ _ _ Hav)).
Qed.

(** *** Repair *)

(** C7. [MP3Val.fix] once [mp3val -f] has run: with [backup=True] the
    files are as the tool left them, [<path>.bak] included; with
    [backup=False] the file [<path>.bak] is removed after the tool has
    finished when it is there, and its absence is an [OSError], not a
    silent success. *)
Theorem MP3Val_fix_backup (item : Item) (w : World) (pr : ProcResult) :
  popen [program MP3Val; "-f"; path item] (fs w) = Some pr ->
  let bak := path item +:+ ".bak" in
  let w1 := set_fs (p_fs pr) (add_event (EvPopen [program MP3Val; "-f"; path item]) w) in
  checker_fix popen MP3Val item true w = (Ok tt, w1) /\
  fs w1 !! bak = p_fs pr !! bak /\
  (forall old, p_fs pr !! bak = Some old ->
     checker_fix popen MP3Val item false w
       = (Ok tt, set_fs (delete bak (p_fs pr)) (add_event (EvRemove bak) w1)) /\
     delete bak (p_fs pr) !! bak = None) /\
  (p_fs pr !! bak = None ->
     checker_fix popen MP3Val item false w
       = (Raise (OSError bak), add_event (EvRemove bak) w1)).
Proof.
  intros Hp bak w1. subst bak w1.
  unfold checker_fix, Popen_communicate, os_remove, bind, emit, ret.
  simpl in Hp |- *. rewrite Hp. simpl.
  split; [reflexivity|]. split; [reflexivity|]. split.
  - intros old Hold. rewrite Hold. split; [reflexivity|].
    apply lookup_delete_eq.
  - intros Hnone. rewrite Hnone. reflexivity.
Qed.

(** *** The validation pass of [fix] *)

Lemma frame_execute_loop (R : World -> World -> Prop) `{!ValSafe popen R} {S}
    (func : Item -> S -> M S) msg total items :
  (forall item st, Frame R batch_exn (func item st)) ->
  forall fin st, Frame R batch_exn (execute_loop self func items msg total fin st).
Proof.
  intros Hf. induction items as [|item rest IH]; intros fin st; simpl.
  - apply frame_ret; exact _.
  - apply frame_bind; try exact _; [apply Hf|]. intros st'.
    apply frame_bind; try exact _; [apply frame_log_progress; exact _|].
    intros _. apply IH.
Qed.

Lemma frame_fix_check_item (R : World -> World -> Prop) `{!ValSafe popen R} item failed :
  (forall q w, R w (add_event (EvLog DEBUG (MsgOK q)) w)) ->
  (forall m w, R w (add_event (EvLog ERROR m) w)) ->
  Frame R batch_exn (fix_check_item popen item failed).
Proof.
  intros Hok Herr. unfold fix_check_item.
  apply (frame_try_except R batch_exn batch_exn).
  - apply frame_bind; try exact _; [|intros _; apply frame_ret; exact _].
    unfold fix_check_body. apply frame_bind; try exact _.
    + destruct (contains_checksum item);
        [apply frame_checksum_batch; exact _ | apply frame_ret; exact _].
    + intros _. apply frame_bind; try exact _; [apply frame_fixer; exact _|].
      intros [c|]; [|apply frame_ret; exact _].
      apply frame_bind; try exact _; [apply frame_run; exact _|].
      intros _. apply frame_emit, Hok.
  - intros e handler He. destruct e; inversion He; subst.
    + apply frame_bind; try exact _; [apply frame_emit, Herr|].
      intros _. apply frame_ret; exact _.
    + apply frame_ret; exact _.
    + apply frame_bind; try exact _; [apply frame_emit, Herr|].
      intros _. apply frame_ret; exact _.
  - intros e He _. exact He.
Qed.





(** *** The repair pass of [fix] *)












(** *** [export] *)

Lemma export_loop items :
  forall w,
    for_each items
      (fun item => if get_checksum_truthy item
                   then print (export_line displayable_path item) else ret tt) w
    = (Ok tt,
       fold_left (fun w0 item => add_event (EvPrint (export_line displayable_path item)) w0)
         (List.filter get_checksum_truthy items) w).
Proof.
  induction items as [|item rest IH]; intros w; simpl.
  - reflexivity.
  - destruct (get_checksum_truthy item); simpl.
    + erewrite bind_Ok; [apply IH | reflexivity].
    + erewrite bind_Ok; [apply IH | reflexivity].
Qed.

Lemma fold_add_events (es : list event) :
  forall w,
    let w' := fold_left (fun w0 e => add_event e w0) es w in
    trace w' = trace w ++ es /\ fs w' = fs w /\ db w' = db w /\
    stdin w' = stdin w /\ all_available w' = all_available w.
Proof.
  induction es as [|e rest IH]; intros w; simpl.
  - rewrite app_nil_r. repeat split.
  - destruct (IH (add_event e w)) as (Ht & Hf & Hd & Hs & Ha).
    rewrite Ht, Hf, Hd, Hs, Ha. simpl. rewrite <- app_assoc. repeat split.
Qed.

Lemma fold_left_map {A B C} (f : C -> B -> C) (g : A -> B) (l : list A) :
  forall c, fold_left (fun c0 a => f c0 (g a)) l c = fold_left f (map g l) c.
Proof. induction l as [|a l IH]; intros c; simpl; [reflexivity | apply IH]. Qed.

Lemma split_line l rest :
  PyStr.contains_char PyStr.newline l = false ->
  PyStr.split PyStr.newline (l +:+ PyStr.lf +:+ rest)
  = l :: PyStr.split PyStr.newline rest.
Proof.
  induction l as [|c l IH]; simpl; intros H.
  - reflexivity.
  - apply orb_false_iff in H as [Hc Hl]. rewrite Hc, (IH Hl). reflexivity.
Qed.

Lemma stdout_of_prints lines :
  PyStr.split PyStr.newline (stdout_of (map EvPrint lines)) = lines ++ [EmptyString]
  \/ exists l, In l lines /\ PyStr.contains_char PyStr.newline l = true.
Proof.
  induction lines as [|l rest IH]; simpl.
  - left. reflexivity.
  - destruct (PyStr.contains_char PyStr.newline l) eqn:Hl.
    + right. exists l. split; [left; reflexivity | exact Hl].
    + destruct IH as [IH|(l' & Hin & Hl')].
      * left. rewrite (split_line _ _ Hl), IH. reflexivity.
      * right. exists l'. split; [right; exact Hin | exact Hl'].
Qed.

Lemma contains_char_app c a b :
  PyStr.contains_char c (a +:+ b) = PyStr.contains_char c a || PyStr.contains_char c b.
Proof.
  induction a as [|x a IH]; simpl; [reflexivity|].
  rewrite IH, orb_assoc. reflexivity.
Qed.

Lemma is_hex_no_char c s :
  Re.cclass_mem Re.HexLower c = false -> is_hex s = true ->
  PyStr.contains_char c s = false.
Proof.
  intros Hc. induction s as [|x s IH]; intros H; [reflexivity|].
  change (is_hex (String x s)) with (Re.cclass_mem Re.HexLower x && is_hex s) in H.
  change (PyStr.contains_char c (String x s))
    with (Ascii.eqb x c || PyStr.contains_char c s).
  apply andb_true_iff in H as [Hx Hs]. rewrite (IH Hs), orb_false_r.
  destruct (Ascii.eqb_spec x c) as [->|_]; [congruence | reflexivity].
Qed.

Lemma split_star_line c p :
  PyStr.contains_char " "%char c = false ->
  split_star (c +:+ " *" +:+ p) = Some (c, p).
Proof.
  induction c as [|x c IH]; intros H.
  - reflexivity.
  - simpl in H. apply orb_false_iff in H as [Hx Hc].
    change (split_star ((String x c) +:+ " *" +:+ p))
      with (match (if Ascii.eqb " "%char x
                   then PyStr.strip_prefix "*" (c +:+ " *" +:+ p) else None) with
            | Some p0 => Some (EmptyString, p0)
            | None =>
                match split_star (c +:+ " *" +:+ p) with
                | Some (c0, p0) => Some (String x c0, p0)
                | None => None
                end
            end).
    rewrite Ascii.eqb_sym, Hx, (IH Hc). reflexivity.
Qed.

Lemma exportable_line item :
  exportable displayable_path item = true ->
  PyStr.contains_char PyStr.newline (export_line displayable_path item) = false /\
  split_star (export_line displayable_path item) = Some (displayed_pair displayable_path item).
Proof.
  unfold exportable, export_line, displayed_pair.
  destruct (checksum item) as [c|]; [|discriminate].
  intros H. apply andb_true_iff in H as [Hhex Hnl]. apply negb_true_iff in Hnl.
  split.
  - rewrite !contains_char_app, Hnl, (is_hex_no_char PyStr.newline _ eq_refl Hhex).
    reflexivity.
  - apply split_star_line. exact (is_hex_no_char " "%char _ eq_refl Hhex).
Qed.

Lemma parse_export_lines items :
  (forall item, In item items -> exportable displayable_path item = true) ->
  parse_export (stdout_of (map (fun item => EvPrint (export_line displayable_path item)) items))
  = map (displayed_pair displayable_path) items.
Proof.
  intros Hex. unfold parse_export.
  rewrite <- (map_map (export_line displayable_path) EvPrint).
  destruct (stdout_of_prints (map (export_line displayable_path) items))
    as [->|(l & Hin & Hl)].
  - rewrite removelast_last. clear -Hex.
    induction items as [|item rest IH]; simpl; [reflexivity|].
    rewrite (proj2 (exportable_line item (Hex item (or_introl eq_refl)))). simpl.
    f_equal. apply IH. intros it Hit. apply Hex. right. exact Hit.
  - apply in_map_iff in Hin as (item & <- & Hitem).
    rewrite (proj1 (exportable_line item (Hex item Hitem))) in Hl. discriminate.
Qed.

(** C8, as amended.  [export] prints one line [<checksum> *<displayed
    path>], newline-terminated and without a header, for each selected
    item whose checksum is a non-empty string, in the order of the
    selection, and nothing else; files, library rows, pending input and
    the checker cache stay as they are.  When each of these items has a
    hexadecimal checksum and a displayed path without a newline, reading
    the output back line by line gives exactly their (checksum, displayed
    path) pairs. *)
Theorem export_roundtrip w :
  let exported := exported_items matches self w in
  let lines := map (fun item => EvPrint (export_line displayable_path item)) exported in
  exists w',
    export matches displayable_path self w = (Ok tt, w') /\
    trace w' = trace w ++ lines /\
    fs w' = fs w /\ db w' = db w /\ stdin w' = stdin w /\
    all_available w' = all_available w /\
    ((forall item, In item exported -> exportable displayable_path item = true) ->
     parse_export (stdout_of lines) = map (displayed_pair displayable_path) exported).
Proof.
  intros exported lines. unfold export, lib_items. unfold bind at 1.
  rewrite export_loop.
  rewrite (fold_left_map (fun w0 e => add_event e w0)
             (fun item => EvPrint (export_line displayable_path item))).
  fold (exported_items matches self w). fold exported. fold lines.
  destruct (fold_add_events lines w) as (Ht & Hf & Hd & Hs & Ha).
  eexists. split; [reflexivity|].
  split; [exact Ht|]. split; [exact Hf|]. split; [exact Hd|]. split; [exact Hs|].
  split; [exact Ha|]. apply parse_export_lines.
Qed.

End Properties.

(** ** The theorems on the concrete installation *)

Lemma verify_checksum_iff_witness :
  checksum Demo.itemA = Some Demo.sha_abc /\
  verify_checksum Demo.itemA Demo.world = (Ok tt, Demo.world) /\
  verify_checksum Demo.itemB Demo.world
  = (Raise (ChecksumError "/music/b.mp3" "checksum did not match value in library."),
     Demo.world).
Proof.
  split; [reflexivity|]. split.
  - apply (proj1 (verify_checksum_iff Demo.itemA Demo.sha_abc Demo.world eq_refl)).
    exists "abc". split; vm_compute; reflexivity.
  - apply (proj1 (proj2 (verify_checksum_iff Demo.itemB Demo.sha_abc Demo.world eq_refl))
             "abd").
    + vm_compute. reflexivity.
    + vm_compute. discriminate.
Defined.


Lemma check_exit_status_witness :
  fst (check Demo.popen Demo.matches Demo.cmd true None Demo.world)
    = Raise (SystemExit 15) /\
  failure_reports Demo.world
    < failure_reports (snd (check Demo.popen Demo.matches Demo.cmd true None Demo.world)).
Proof.
  assert (H : check Demo.popen Demo.matches Demo.cmd true None Demo.world
              = (fst (check Demo.popen Demo.matches Demo.cmd true None Demo.world),
                 snd (check Demo.popen Demo.matches Demo.cmd true None Demo.world)))
    by (vm_compute; reflexivity).
  assert (Hr : fst (check Demo.popen Demo.matches Demo.cmd true None Demo.world)
               = Raise (SystemExit 15)) by (vm_compute; reflexivity).
  split; [exact Hr|].
  exact (proj2 (proj1 (proj1 (check_exit_status Demo.popen Demo.matches Demo.cmd
                                true None Demo.world _ _ H)) Hr)).
Defined.

Lemma check_no_checkers_witness :
  check Demo.popen_none Demo.matches Demo.cmd false (Some true) Demo.world
    = (Raise (UserError no_checkers_warning),
       snd (allAvailable Demo.popen_none Demo.world)) /\
  check Demo.popen_none Demo.matches Demo.cmd true (Some true) Demo.world
    = check Demo.popen_none Demo.matches Demo.cmd true (Some false)
        (add_event (EvLog WARN (MsgText no_checkers_warning))
           (snd (allAvailable Demo.popen_none Demo.world))).
Proof.
  assert (H : allAvailable Demo.popen_none Demo.world
              = (Ok [], snd (allAvailable Demo.popen_none Demo.world)))
    by (vm_compute; reflexivity).
  destruct (check_no_checkers Demo.popen_none Demo.matches Demo.cmd (Some true)
              Demo.world _ eq_refl H) as (H1 & H2 & _).
  split; [exact H1 | exact H2].
Defined.

Lemma MP3Val_fix_backup_witness :
  Demo.popen [program MP3Val; "-f"; path Demo.itemC] (fs Demo.world_broken)
    = Some Demo.repair_result /\
  fst (checker_fix Demo.popen MP3Val Demo.itemC true Demo.world_broken) = Ok tt /\
  fs (snd (checker_fix Demo.popen MP3Val Demo.itemC true Demo.world_broken))
    !! "/music/c.mp3.bak" = Some "broken" /\
  fst (checker_fix Demo.popen MP3Val Demo.itemC false Demo.world_broken) = Ok tt /\
  fs (snd (checker_fix Demo.popen MP3Val Demo.itemC false Demo.world_broken))
    !! "/music/c.mp3.bak" = None.
Proof.
  assert (H : Demo.popen [program MP3Val; "-f"; path Demo.itemC] (fs Demo.world_broken)
              = Some Demo.repair_result) by (vm_compute; reflexivity).
  assert (Hb : p_fs Demo.repair_result !! (path Demo.itemC +:+ ".bak") = Some "broken")
    by (vm_compute; reflexivity).
  destruct (MP3Val_fix_backup Demo.popen Demo.itemC Demo.world_broken Demo.repair_result H)
    as (Hkeep & Hbak & Hdel & _).
  destruct (Hdel "broken" Hb) as [Hrm Hgone].
  split; [exact H|]. rewrite Hkeep, Hrm. simpl fst. simpl snd.
  split; [reflexivity|]. split; [exact (eq_trans Hbak Hb)|].
  split; [reflexivity | exact Hgone].
Defined.



Lemma export_roundtrip_witness :
  (forall item, In item (exported_items Demo.matches Demo.cmd Demo.world) ->
                exportable Demo.displayable_path item = true) /\
  parse_export
    (stdout_of (map (fun item => EvPrint (export_line Demo.displayable_path item))
                  (exported_items Demo.matches Demo.cmd Demo.world)))
  = [(Demo.sha_abc, "/music/a.mp3"); (Demo.sha_abc, "/music/b.mp3")].
Proof.
  assert (H : forall item, In item (exported_items Demo.matches Demo.cmd Demo.world) ->
                           exportable Demo.displayable_path item = true).
  { intros item [<-|[<-|[]]]; vm_compute; reflexivity. }
  split; [exact H|].
  destruct (export_roundtrip Demo.matches Demo.displayable_path Demo.cmd Demo.world)
    as (w' & _ & _ & _ & _ & _ & _ & Hparse).
  rewrite (Hparse H). reflexivity.
Defined.

(** ** Where the code differs from the specification *)

(** C3 as stated fails: a run in which no item's check raises
    [ChecksumError] (the only item's file cannot be read, an [IOError])
    reports no FAILED line and still leaves through [sys.exit(15)]. *)
Lemma check_exit_status_counterexample :
  fst (check Demo.popen Demo.matches Demo.cmd true None Demo.world_missing)
    = Raise (SystemExit 15) /\
  body_results Demo.cmd (check_body Demo.popen true false)
    (check_item Demo.popen true false) [Demo.itemA] "Verifying checksums" 1 0
    {| failures := 0; integrity := 0 |} Demo.world_missing
    = [Raise (IOError "/music/a.mp3")] /\
  count_ev is_failed
    (trace (snd (check Demo.popen Demo.matches Demo.cmd true None Demo.world_missing))) = 0.
Proof. vm_compute. repeat split. Qed.

(** C8 as stated fails: a library with one file whose name holds a
    newline and a library with two files are exported to the same text,
    though their stored (checksum, path) pairs differ; no reader of the
    text can give back both. *)
Lemma export_roundtrip_counterexample :
  stdout_of (trace (snd (export Demo.matches Demo.displayable_path Demo.cmd
                           Demo.world_newline)))
  = stdout_of (trace (snd (export Demo.matches Demo.displayable_path Demo.cmd
                             Demo.world_two))) /\
  omap stored_pair (db Demo.world_two)
    = [(Demo.sha_abc, "/music/a.mp3"); (Demo.sha_empty, "/music/b.mp3")] /\
  omap stored_pair (db Demo.world_newline) <> omap stored_pair (db Demo.world_two).
Proof.
  split; [vm_compute; reflexivity|]. split; [reflexivity|].
  vm_compute. discriminate.
Qed.

(** ** Further properties: checksums *)

Lemma hex_digit_is_hex n :
  (n < 16)%N -> Re.cclass_mem Re.HexLower (Hashlib.hex_digit n) = true.
Proof.
  intros H. destruct n as [|p]; [reflexivity|].
  do 4 (try (destruct p as [p|p|]; try reflexivity; try lia)).
Qed.

Lemma hex_of_bytes_cons b bs :
  Hashlib.hex_of_bytes (b :: bs)
  = String (Hashlib.hex_digit (b / 16))
      (String (Hashlib.hex_digit (b mod 16)) (Hashlib.hex_of_bytes bs)).
Proof. reflexivity. Qed.

Lemma is_hex_cons a s : is_hex (String a s) = Re.cclass_mem Re.HexLower a && is_hex s.
Proof. reflexivity. Qed.

Lemma hex_of_bytes_format bs :
  Forall (fun b => (b < 256)%N) bs ->
  String.length (Hashlib.hex_of_bytes bs) = 2 * length bs /\
  is_hex (Hashlib.hex_of_bytes bs) = true.
Proof.
  induction 1 as [|b bs Hb _ [IHl IHh]].
  - split; reflexivity.
  - rewrite hex_of_bytes_cons, !is_hex_cons, IHh.
    cbn [String.length length]. rewrite IHl. split; [lia|].
    rewrite !hex_digit_is_hex; [reflexivity | |].
    + apply N.mod_lt. discriminate.
    + apply N.Div0.div_lt_upper_bound. exact Hb.
Qed.

Lemma be_bytes_spec n x :
  length (Hashlib.be_bytes n x) = n /\
  Forall (fun b => (b < 256)%N) (Hashlib.be_bytes n x).
Proof.
  induction n as [|n [IHl IHf]]; simpl.
  - split; [reflexivity | constructor].
  - split; [rewrite IHl; reflexivity|].
    constructor; [apply N.mod_lt; discriminate | exact IHf].
Qed.

Lemma digest_words_spec (h : list N) :
  length (flat_map (Hashlib.be_bytes 4) h) = 4 * length h /\
  Forall (fun b => (b < 256)%N) (flat_map (Hashlib.be_bytes 4) h).
Proof.
  induction h as [|x h [IHl IHf]].
  - split; [reflexivity | constructor].
  - change (flat_map (Hashlib.be_bytes 4) (x :: h))
      with (Hashlib.be_bytes 4 x ++ flat_map (Hashlib.be_bytes 4) h).
    destruct (be_bytes_spec 4 x) as [Hl Hf].
    rewrite length_app, Hl, IHl. split; [simpl; lia|].
    apply Forall_app. split; assumption.
Qed.

Lemma compress_length h block :
  length h = 8 -> length (Hashlib.compress h block) = 8.
Proof.
  intros Hh. unfold Hashlib.compress.
  rewrite length_map, length_combine, Hh. reflexivity.
Qed.

Lemma compress_all_length blocks :
  forall h, length h = 8 -> length (fold_left Hashlib.compress blocks h) = 8.
Proof.
  induction blocks as [|b blocks IH]; intros h Hh; simpl.
  - exact Hh.
  - apply IH, compress_length, Hh.
Qed.

Lemma sha256_hexdigest_format (data : string) :
  String.length (Hashlib.sha256_hexdigest data) = 64 /\
  is_hex (Hashlib.sha256_hexdigest data) = true.
Proof.
  unfold Hashlib.sha256_hexdigest, Hashlib.digest.
  set (bs := Hashlib.pad (Hashlib.bytes_of_string data)).
  set (ws := Hashlib.words (length bs) bs).
  assert (H8 : length (fold_left Hashlib.compress (Hashlib.blocks (length ws) ws)
                         Hashlib.H0) = 8).
  { apply compress_all_length. vm_compute. reflexivity. }
  destruct (digest_words_spec
              (fold_left Hashlib.compress (Hashlib.blocks (length ws) ws) Hashlib.H0))
    as [Hl Hf].
  destruct (hex_of_bytes_format _ Hf) as [Hlen Hhex].
  rewrite Hlen, Hl, H8. split; [reflexivity | exact Hhex].
Qed.

(** X1. [compute_checksum] reads the file and changes nothing: it
    returns a string of 64 lowercase hexadecimal digits, the digest of
    the whole content, or raises the [IOError] of [open] when the file
    is not there. *)
Theorem compute_checksum_format (item : Item) (w : World) r w' :
  compute_checksum item w = (r, w') ->
  w' = w /\
  match r with
  | Ok c =>
      String.length c = 64 /\ is_hex c = true /\
      exists data, fs w !! path item = Some data /\ c = Hashlib.sha256_hexdigest data
  | Raise e => e = IOError (path item) /\ fs w !! path item = None
  end.
Proof.
  unfold compute_checksum, open_read, bind, ret.
  destruct (fs w !! path item) as [data|] eqn:Hd; intros H; inversion H; subst.
  - split; [reflexivity|]. destruct (sha256_hexdigest_format data) as [Hl Hh].
    split; [exact Hl|]. split; [exact Hh|]. exists data. split; reflexivity.
  - split; [reflexivity|]. split; reflexivity.
Qed.

Lemma compute_checksum_format_witness :
  compute_checksum Demo.itemA Demo.world = (Ok Demo.sha_abc, Demo.world) /\
  String.length Demo.sha_abc = 64 /\ is_hex Demo.sha_abc = true.
Proof.
  assert (H : compute_checksum Demo.itemA Demo.world = (Ok Demo.sha_abc, Demo.world))
    by (vm_compute; reflexivity).
  destruct (compute_checksum_format Demo.itemA Demo.world _ _ H) as (_ & Hl & Hh & _).
  split; [exact H|]. split; [exact Hl | exact Hh].
Defined.

Lemma truthy_length_64 c : String.length c = 64 -> PyStr.truthy c = true.
Proof. destruct c; [discriminate | reflexivity]. Qed.

Lemma set_checksum_readable item data w :
  fs w !! path item = Some data ->
  set_checksum item w
  = (Ok (with_checksum (Hashlib.sha256_hexdigest data) item),
     set_db (map (fun row =>
                    if Nat.eqb (item_id row) (item_id item)
                    then with_checksum (Hashlib.sha256_hexdigest data) item
                    else row) (db w))
       (add_event (EvStore (with_checksum (Hashlib.sha256_hexdigest data) item)) w)).
Proof.
  intros Hd. unfold set_checksum, compute_checksum, store, open_read, bind, emit, ret.
  rewrite Hd. reflexivity.
Qed.

Lemma set_checksum_unreadable item w :
  fs w !! path item = None -> set_checksum item w = (Raise (IOError (path item)), w).
Proof.
  intros Hd. unfold set_checksum, compute_checksum, store, open_read, bind, emit, ret.
  rewrite Hd. reflexivity.
Qed.

(** X2. After [set_checksum] on a readable file the item carries the
    digest of the file as a non-empty checksum, no file has changed, and
    [verify_checksum] on the item succeeds at once. *)
Theorem set_checksum_then_verify (item : Item) (data : string) (w : World) :
  fs w !! path item = Some data ->
  exists item' w',
    set_checksum item w = (Ok item', w') /\
    checksum item' = Some (Hashlib.sha256_hexdigest data) /\
    get_checksum_truthy item' = true /\
    fs w' = fs w /\
    verify_checksum item' w' = (Ok tt, w').
Proof.
  intros Hd. rewrite (set_checksum_readable _ _ _ Hd).
  eexists. eexists. split; [reflexivity|]. split; [reflexivity|].
  split; [apply truthy_length_64, sha256_hexdigest_format|].
  split; [reflexivity|].
  unfold verify_checksum, getitem_checksum, compute_checksum, open_read, bind, ret.
  simpl. rewrite Hd, String.eqb_refl. reflexivity.
Qed.

Lemma set_checksum_then_verify_witness :
  fs Demo.world !! path Demo.itemC = Some "" /\
  exists item' w',
    set_checksum Demo.itemC Demo.world = (Ok item', w') /\
    checksum item' = Some (Hashlib.sha256_hexdigest "") /\
    get_checksum_truthy item' = true /\
    fs w' = fs Demo.world /\
    verify_checksum item' w' = (Ok tt, w').
Proof.
  assert (H : fs Demo.world !! path Demo.itemC = Some "") by (vm_compute; reflexivity).
  split; [exact H|]. exact (set_checksum_then_verify Demo.itemC "" Demo.world H).
Defined.

(** X3. Calling [set_checksum] a second time on an unmodified file gives
    the same item and leaves the library rows as the first call made
    them. *)
Theorem set_checksum_idempotent (item item1 : Item) (w w1 : World) :
  set_checksum item w = (Ok item1, w1) ->
  exists w2,
    set_checksum item1 w1 = (Ok item1, w2) /\
    db w2 = db w1 /\ fs w2 = fs w1.
Proof.
  intros H. destruct (fs w !! path item) as [data|] eqn:Hd.
  - rewrite (set_checksum_readable _ _ _ Hd) in H. inversion H; subst. clear H.
    rewrite (set_checksum_readable _ data); [|exact Hd].
    eexists. split; [reflexivity|]. split; [|reflexivity].
    simpl. rewrite map_map. apply map_ext. intros row.
    destruct (Nat.eqb (item_id row) (item_id item)) eqn:He; simpl.
    + rewrite Nat.eqb_refl. reflexivity.
    + rewrite He. reflexivity.
  - rewrite (set_checksum_unreadable _ _ Hd) in H. discriminate.
Qed.

Lemma set_checksum_idempotent_witness :
  exists w2,
    set_checksum (with_checksum (Hashlib.sha256_hexdigest "") Demo.itemC)
      (snd (set_checksum Demo.itemC Demo.world))
    = (Ok (with_checksum (Hashlib.sha256_hexdigest "") Demo.itemC), w2) /\
    db w2 = db (snd (set_checksum Demo.itemC Demo.world)) /\
    fs w2 = fs (snd (set_checksum Demo.itemC Demo.world)).
Proof.
  apply (set_checksum_idempotent Demo.itemC _ Demo.world).
  vm_compute. reflexivity.
Defined.

(** X4. [set_checksum] changes no file and no pending input; it keeps
    the number of library rows and every row whose id is not the
    item's; when it raises, it is the [IOError] of [open] and the world
    is as before. *)
Theorem set_checksum_frame (item : Item) (w : World) r w' :
  set_checksum item w = (r, w') ->
  fs w' = fs w /\ stdin w' = stdin w /\ length (db w') = length (db w) /\
  (forall i row, db w !! i = Some row -> item_id row <> item_id item ->
                 db w' !! i = Some row) /\
  (forall e, r = Raise e -> e = IOError (path item) /\ w' = w).
Proof.
  intros H. destruct (fs w !! path item) as [data|] eqn:Hd.
  - rewrite (set_checksum_readable _ _ _ Hd) in H. inversion H; subst. clear H. simpl.
    split; [reflexivity|]. split; [reflexivity|]. split; [apply length_map|].
    split; [|discriminate].
    intros i row Hrow Hid.
    change (map ?f ?l) with (f <$> l). rewrite list_lookup_fmap, Hrow. simpl.
    destruct (Nat.eqb_spec (item_id row) (item_id item)); [contradiction | reflexivity].
  - rewrite (set_checksum_unreadable _ _ Hd) in H. inversion H; subst.
    split; [reflexivity|]. split; [reflexivity|]. split; [reflexivity|].
    split; [intros i row Hrow _; exact Hrow|].
    intros e He. inversion He; subst. split; reflexivity.
Qed.

Lemma set_checksum_frame_witness :
  db (snd (set_checksum Demo.itemC Demo.world)) !! 0 = Some Demo.itemA.
Proof.
  apply (proj1 (proj2 (proj2 (proj2
           (set_checksum_frame Demo.itemC Demo.world
              (fst (set_checksum Demo.itemC Demo.world))
              (snd (set_checksum Demo.itemC Demo.world))
              ltac:(vm_compute; reflexivity)))))).
  - reflexivity.
  - vm_compute. discriminate.
Defined.

(** ** Further properties: the event handlers *)

(** X5. [item_imported] never overwrites a checksum: an item with a
    non-empty checksum is returned as it is, without reading its file,
    in an unchanged world; any item it returns has a non-empty
    checksum, which for an item that had none is the digest of the
    file. *)
Theorem item_imported_keeps_checksum (item : Item) (w : World) item' w' :
  item_imported item w = (Ok item', w') ->
  get_checksum_truthy item' = true /\
  (get_checksum_truthy item = true -> item' = item /\ w' = w) /\
  (get_checksum_truthy item = false ->
   exists data, fs w !! path item = Some data /\
                checksum item' = Some (Hashlib.sha256_hexdigest data)).
Proof.
  unfold item_imported. destruct (get_checksum_truthy item) eqn:Ht; simpl; intros H.
  - inversion H; subst. split; [exact Ht|]. split; [split; reflexivity | discriminate].
  - destruct (fs w !! path item) as [data|] eqn:Hd.
    + rewrite (set_checksum_readable _ _ _ Hd) in H. inversion H; subst.
      split; [apply truthy_length_64, sha256_hexdigest_format|].
      split; [discriminate|]. intros _. exists data. split; reflexivity.
    + rewrite (set_checksum_unreadable _ _ Hd) in H. discriminate.
Qed.

Lemma item_imported_keeps_checksum_witness :
  item_imported Demo.itemB Demo.world = (Ok Demo.itemB, Demo.world) /\
  get_checksum_truthy Demo.itemB = true.
Proof.
  assert (H : item_imported Demo.itemB Demo.world = (Ok Demo.itemB, Demo.world))
    by (vm_compute; reflexivity).
  split; [exact H|].
  exact (proj1 (item_imported_keeps_checksum Demo.itemB Demo.world _ _ H)).
Defined.

(** X6. The write handlers act only on the item's own file: for any
    other path both do nothing.  For the item's own path, the checksum
    that [item_after_write] stores passes [item_before_write] at the
    next write. *)
Theorem write_handlers_round_trip (item : Item) (w : World) :
  (forall p, p <> path item ->
     item_before_write item p w = (Ok tt, w) /\
     item_after_write item p w = (Ok item, w)) /\
  (forall item' w',
     item_after_write item (path item) w = (Ok item', w') ->
     item_before_write item' (path item') w' = (Ok tt, w')).
Proof.
  split.
  - intros p Hp. unfold item_before_write, item_after_write.
    destruct (String.eqb_spec p (path item)); [contradiction|]. split; reflexivity.
  - intros item' w' H. unfold item_after_write in H.
    rewrite String.eqb_refl in H. simpl in H.
    destruct (fs w !! path item) as [data|] eqn:Hd.
    + rewrite (set_checksum_readable _ _ _ Hd) in H. inversion H; subst.
      unfold item_before_write. rewrite String.eqb_refl.
      assert (Ht : get_checksum_truthy (with_checksum (Hashlib.sha256_hexdigest data) item)
                   = true) by apply truthy_length_64, sha256_hexdigest_format.
      rewrite Ht. simpl negb. cbv iota.
      unfold verify_checksum, getitem_checksum, compute_checksum, open_read, bind, ret.
      simpl. rewrite Hd, String.eqb_refl. reflexivity.
    + rewrite (set_checksum_unreadable _ _ Hd) in H. discriminate.
Qed.

Lemma write_handlers_round_trip_witness :
  item_before_write Demo.itemB "/music/other.mp3" Demo.world = (Ok tt, Demo.world) /\
  item_before_write (with_checksum (Hashlib.sha256_hexdigest "abd") Demo.itemB)
    "/music/b.mp3" (snd (item_after_write Demo.itemB "/music/b.mp3" Demo.world))
  = (Ok tt, snd (item_after_write Demo.itemB "/music/b.mp3" Demo.world)).
Proof.
  split.
  - apply (proj1 (write_handlers_round_trip Demo.itemB Demo.world)). discriminate.
  - apply (proj2 (write_handlers_round_trip Demo.itemB Demo.world)
             (with_checksum (Hashlib.sha256_hexdigest "abd") Demo.itemB)).
    vm_compute. reflexivity.
Defined.

Lemma first_checksum_carried replaced :
  forall found,
    match found with Some c => PyStr.truthy c = false | None => True end ->
    match first_checksum found replaced with
    | Some c => if PyStr.truthy c then Some c else None
    | None => None
    end = carried_checksum replaced.
Proof.
  unfold carried_checksum.
  induction replaced as [|r rest IH]; intros found Hf; simpl.
  - destruct found as [c|]; [rewrite Hf|]; reflexivity.
  - unfold get_checksum_truthy at 1. destruct (checksum r) as [c|] eqn:Hc.
    + destruct (PyStr.truthy c) eqn:Ht.
      * rewrite Ht, Hc. reflexivity.
      * apply (IH (Some c)). exact Ht.
    + apply IH. exact Hf.
Qed.

Lemma copy_entry_spec entry w :
  match first_checksum None (snd entry) with
  | Some c => if PyStr.truthy c then store (with_checksum c (fst entry)) else ret tt
  | None => ret tt
  end w
  = match carried_checksum (snd entry) with
    | Some c => store (with_checksum c (fst entry)) w
    | None => (Ok tt, w)
    end.
Proof.
  rewrite <- (first_checksum_carried (snd entry) None I).
  destruct (first_checksum None (snd entry)) as [c|]; [|reflexivity].
  destruct (PyStr.truthy c); reflexivity.
Qed.

(** X7. [copy_original_checksum] gives each imported item the checksum of
    the first replaced item that has a non-empty one and stores it;
    items without such a predecessor are left alone.  No file is read,
    so it never raises, and files and pending input stay as they are. *)
Theorem copy_original_checksum_carries (task : list (Item * list Item)) (w : World) :
  exists w',
    copy_original_checksum task w = (Ok tt, w') /\
    trace w' = trace w ++ omap carried_store task /\
    fs w' = fs w /\ stdin w' = stdin w /\ length (db w') = length (db w).
Proof.
  unfold copy_original_checksum. revert w.
  induction task as [|entry rest IH]; intros w.
  - exists w. simpl. rewrite app_nil_r. repeat split.
  - simpl for_each. unfold bind at 1. rewrite copy_entry_spec.
    unfold carried_store at 1. simpl omap.
    fold (carried_store entry). unfold carried_store at 1.
    destruct (carried_checksum (snd entry)) as [c|].
    + unfold store, bind, emit. simpl.
      match goal with |- context [for_each rest ?f ?w0] =>
        destruct (IH w0) as (w' & Hrun & Ht & Hf & Hs & Hl) end.
      exists w'. split; [exact Hrun|]. rewrite Ht, Hf, Hs, Hl. simpl.
      rewrite <- app_assoc, length_map. repeat split.
    + destruct (IH w) as (w' & Hrun & Ht & Hf & Hs & Hl).
      exists w'. split; [exact Hrun|]. repeat split; assumption.
Qed.

(** ** Further properties: the integrity checkers *)

Section CheckerProperties.

Variable popen : list string -> gmap string string -> option ProcResult.

Lemma available_cases c w :
  available popen c w
  = match popen [program c; "-v"] (fs w) with
    | None => (Ok false, add_event (EvPopen [program c; "-v"]) w)
    | Some pr =>
        if Z.eqb (p_returncode pr) 0
        then (Ok true, set_fs (p_fs pr) (add_event (EvPopen [program c; "-v"]) w))
        else (Raise (CalledProcessError (p_returncode pr)),
              set_fs (p_fs pr) (add_event (EvPopen [program c; "-v"]) w))
    end.
Proof.
  unfold available, try_except, check_call, Popen_communicate, bind, emit, ret, raise.
  simpl. destruct (popen [program c; "-v"] (fs w)) as [pr|]; simpl; [|reflexivity].
  destruct (Z.eqb (p_returncode pr) 0); reflexivity.
Qed.

(** X8. [available] spawns [[program, '-v']] once.  It answers [False]
    exactly when the program cannot be started and [True] when the probe
    exits with 0; a probe that exits with another status is not caught:
    it leaves [available] as [CalledProcessError]. *)
Theorem available_spec (c : checker) (w : World) r w' :
  available popen c w = (r, w') ->
  trace w' = trace w ++ [EvPopen [program c; "-v"]] /\
  (r = Ok false <-> popen [program c; "-v"] (fs w) = None) /\
  (r = Ok true <->
   exists pr, popen [program c; "-v"] (fs w) = Some pr /\ p_returncode pr = 0%Z) /\
  (forall e, r = Raise e ->
     exists pr, popen [program c; "-v"] (fs w) = Some pr /\
                p_returncode pr <> 0%Z /\ e = CalledProcessError (p_returncode pr)).
Proof.
  rewrite available_cases.
  destruct (popen [program c; "-v"] (fs w)) as [pr|] eqn:Hp.
  - destruct (Z.eqb_spec (p_returncode pr) 0) as [Hz|Hnz]; intros H; inversion H; subst.
    + split; [reflexivity|]. split; [split; discriminate|].
      split; [split; [intros _; exists pr; split; [reflexivity | exact Hz] | reflexivity]|].
      discriminate.
    + split; [reflexivity|]. split; [split; discriminate|].
      split; [split; [discriminate | intros (pr' & Hpr & Hz); congruence]|].
      intros e He. inversion He; subst. exists pr. repeat split. exact Hnz.
  - intros H. inversion H; subst.
    split; [reflexivity|]. split; [split; reflexivity|].
    split; [split; [discriminate | intros (pr' & Hpr & _); discriminate]|].
    discriminate.
Qed.



(** X10. Only MP3 files have a fixer: when [fixer] returns a checker it
    is the MP3 checker, and it returns it exactly when the item's format
    is MP3 and mp3val is among the available checkers. *)
Theorem fixer_only_mp3 (item : Item) (w : World) f w' :
  fixer popen item w = (Ok f, w') ->
  exists l,
    allAvailable popen w = (Ok l, w') /\
    (forall c, f = Some c -> c = MP3Val) /\
    (f = Some MP3Val <-> format item = "MP3" /\ In MP3Val l).
Proof.
  unfold fixer. intros H.
  destruct (bind_inv _ _ _ _ _ H) as [(l & w0 & H1 & H2)|(e & _ & Habs)];
    [|discriminate].
  inversion H2; subst. exists l. split; [exact H1|]. clear.
  assert (Hcan : forall c, can_fix c item = true <-> c = MP3Val /\ format item = "MP3").
  { intros c. destruct c; simpl; unfold in_formats; simpl.
    - rewrite orb_false_r. split.
      + intros He. apply String.eqb_eq in He. split; [reflexivity | exact He].
      + intros [_ He]. apply String.eqb_eq. exact He.
    - split; [discriminate | intros [Habs _]; discriminate].
    - split; [discriminate | intros [Habs _]; discriminate]. }
  induction l as [|c rest [IH1 IH2]]; simpl.
  - split; [discriminate|]. split; [discriminate | intros [_ []]].
  - destruct (can_fix c item) eqn:Hc.
    + apply Hcan in Hc as [-> Hfmt]. split.
      * intros c Heq. inversion Heq. reflexivity.
      * split; [intros _; split; [exact Hfmt | left; reflexivity] | reflexivity].
    + split; [exact IH1|]. rewrite IH2. split.
      * intros [Hfmt Hin]. split; [exact Hfmt | right; exact Hin].
      * intros [Hfmt [Heq|Hin]]; [|split; assumption].
        subst c. exfalso.
        assert (Ht : can_fix MP3Val item = true) by (apply Hcan; split; [reflexivity|exact Hfmt]).
        congruence.
Qed.

Lemma verify_integrity_loop item l :
  forall w,
    for_each l (fun c => run popen c item) w
    = for_each (List.filter (in_formats (format item)) l) (fun c => run popen c item) w.
Proof.
  induction l as [|c rest IH]; intros w; simpl.
  - reflexivity.
  - destruct (in_formats (format item) c) eqn:Hf; simpl.
    + unfold bind. destruct (run popen c item w) as [[[]|e] w0]; [apply IH | reflexivity].
    + unfold run at 1. rewrite Hf. simpl. unfold bind, ret. apply IH.
Qed.

(** X11. [verify_integrity] runs only the available checkers whose
    formats hold the item's format; for an item of a format that no
    checker supports it spawns no validator and returns. *)
Theorem verify_integrity_format_scoped (item : Item) (w : World) l w1 :
  allAvailable popen w = (Ok l, w1) ->
  verify_integrity popen item w
  = for_each (List.filter (in_formats (format item)) l) (fun c => run popen c item) w1 /\
  ((forall c, in_formats (format item) c = false) ->
   verify_integrity popen item w = (Ok tt, w1)).
Proof.
  intros H. unfold verify_integrity. rewrite (bind_Ok _ _ _ _ _ H).
  rewrite verify_integrity_loop. split; [reflexivity|].
  intros Hnone. replace (List.filter (in_formats (format item)) l) with (@nil checker).
  - reflexivity.
  - clear H. induction l as [|c rest IH]; simpl; [reflexivity|].
    rewrite (Hnone c). exact IH.
Qed.

End CheckerProperties.

(** X12. Only the first violation is reported: when the first line that
    matches stands after lines that do not, [MP3Val.parse] (whatever the
    return code) and [FlacTest.parse] (with a non-zero return code)
    raise the [IntegrityError] whose reason is group 1 of that line. *)
Theorem parse_first_match_wins (pre post : list string) (line : string)
    (out other : string) (returncode : Z) (p : string) :
  PyStr.split PyStr.newline out = pre ++ line :: post ->
  (forall caps,
     (forall l, In l pre -> Re.match_ log_matcher l = None) ->
     Re.match_ log_matcher line = Some caps ->
     MP3Val_parse out other returncode p = Raise (IntegrityError p (Re.group1 caps))) /\
  (forall caps,
     returncode <> 0%Z ->
     (forall l, In l pre -> Re.match_ error_matcher l = None) ->
     Re.match_ error_matcher line = Some caps ->
     FlacTest_parse other out returncode p = Raise (IntegrityError p (Re.group1 caps))).
Proof.
  intros Hsplit.
  assert (Hfirst : forall r caps,
             (forall l, In l pre -> Re.match_ r l = None) ->
             Re.match_ r line = Some caps ->
             raise_on_first_match r (pre ++ line :: post) p
             = Raise (IntegrityError p (Re.group1 caps))).
  { intros r caps Hpre Hline. clear Hsplit.
    induction pre as [|l0 pre IH]; simpl.
    - rewrite Hline. reflexivity.
    - rewrite (Hpre l0 (or_introl eq_refl)). apply IH.
      intros l Hl. apply Hpre. right. exact Hl. }
  split.
  - intros caps Hpre Hline. unfold MP3Val_parse. rewrite Hsplit.
    apply Hfirst; assumption.
  - intros caps Hrc Hpre Hline. unfold FlacTest_parse.
    destruct (Z.eqb_spec returncode 0); [contradiction|].
    rewrite Hsplit. apply Hfirst; assumption.
Qed.



(** ** Further properties: the check batch *)

Global Instance outputs_only_preorder : PreOrder outputs_only.
Proof.
  split.
  - intros w. split; [repeat split|]. exists []. rewrite app_nil_r. split; reflexivity.
  - intros w1 w2 w3 [(F1 & D1 & S1 & A1) (d1 & T1 & P1)] [(F2 & D2 & S2 & A2) (d2 & T2 & P2)].
    split; [repeat split; congruence|].
    exists (d1 ++ d2). rewrite T2, T1, app_assoc, forallb_app, P1, P2. split; reflexivity.
Qed.

Lemma outputs_only_event e w : is_output e = true -> outputs_only w (add_event e w).
Proof.
  intros He. split; [repeat split|]. exists [e]. simpl. rewrite He. split; reflexivity.
Qed.

Lemma outputs_only_count p w w' :
  (forall e, is_output e = true -> p e = false) ->
  outputs_only w w' -> count_ev p (trace w') = count_ev p (trace w).
Proof.
  intros Hp [_ (d & Ht & Hd)]. rewrite Ht, count_ev_app.
  assert (Hz : count_ev p d = 0).
  { clear Ht. induction d as [|e d IH]; [reflexivity|].
    simpl in Hd. apply andb_true_iff in Hd as [He Hd].
    change (e :: d) with ([e] ++ d). rewrite count_ev_app, count_ev_one, (Hp e He), (IH Hd).
    reflexivity. }
  rewrite Hz. lia.
Qed.

Lemma is_report_log : log_observer is_report.
Proof. intros [] H; try reflexivity; discriminate. Qed.

Lemma verify_checksum_cases item C w :
  checksum item = Some C ->
  verify_checksum item w
  = match fs w !! path item with
    | None => (Raise (IOError (path item)), w)
    | Some data =>
        if String.eqb C (Hashlib.sha256_hexdigest data) then (Ok tt, w)
        else (Raise (ChecksumError (path item)
                       "checksum did not match value in library."), w)
    end.
Proof.
  intros HC.
  unfold verify_checksum, getitem_checksum, compute_checksum, bind, open_read, ret, raise.
  rewrite HC. destruct (fs w !! path item) as [data|]; [|reflexivity].
  destruct (String.eqb C (Hashlib.sha256_hexdigest data)); reflexivity.
Qed.

Section BatchProperties.

Variable popen : list string -> gmap string string -> option ProcResult.
Variable matches : list string -> Item -> bool.
Variable self : CheckCommand.

(** X14. The closure [check] accounts for every outcome it handles: when
    it returns it has logged exactly one report line (OK, FAILED, WARNING
    or ERROR) and counted it in [status]; no [ChecksumError],
    [IntegrityError] or [IOError] ever leaves it, and an exception that
    does leave it is reported by no line. *)
Theorem check_item_classifies checksums integ item st w r' w2 :
  check_item popen checksums integ item st w = (r', w2) ->
  (forall e, r' = Raise e ->
     handled_by_check e = false /\
     count_ev is_report (trace w2) = count_ev is_report (trace w)) /\
  (forall st', r' = Ok st' ->
     count_ev is_report (trace w2) = count_ev is_report (trace w) + 1 /\
     failures st' + failure_reports w = failures st + failure_reports w2 /\
     integrity st' + count_ev is_warning (trace w)
       = integrity st + count_ev is_warning (trace w2)).
Proof.
  intros H. destruct (check_item_spec _ _ _ _ _ _ _ _ H) as (Hr & _ & Hc).
  pose proof (Hc _ is_report_log) as Hrep.
  split.
  - intros e ->. rewrite Hrep.
    destruct (fst (check_body popen checksums integ item w)) as [[]|e0];
      [discriminate|].
    destruct e0; simpl in Hr; inversion Hr; subst; split; try reflexivity;
      unfold count_ev; simpl; lia.
  - intros st' ->. split; [|exact (check_item_counts _ _ _ _ _ _ _ _ H)].
    rewrite Hrep.
    destruct (fst (check_body popen checksums integ item w)) as [[]|e0];
      [reflexivity|].
    destruct e0; simpl in Hr; inversion Hr; subst; reflexivity.
Qed.

(** X15. A checksum failure ends the check of the item: when the stored
    checksum is non-empty and differs from the digest of the file, the
    closure [check] logs FAILED and counts a failure without spawning a
    validator, whether integrity checks are on or not. *)
Theorem check_item_mismatch_skips_validation integ item C data st w :
  checksum item = Some C ->
  PyStr.truthy C = true ->
  fs w !! path item = Some data ->
  Hashlib.sha256_hexdigest data <> C ->
  check_item popen true integ item st w
  = (Ok {| failures := failures st + 1; integrity := integrity st |},
     add_event (EvLog ERROR (MsgFAILED (path item))) w).
Proof.
  intros HC Ht Hd Hne.
  assert (Hv : verify_checksum item w
               = (Raise (ChecksumError (path item)
                           "checksum did not match value in library."), w)).
  { rewrite (verify_checksum_cases _ _ _ HC), Hd.
    destruct (String.eqb_spec C (Hashlib.sha256_hexdigest data)); [congruence|reflexivity]. }
  unfold check_item, check_body, try_except, get_checksum_truthy.
  rewrite HC, Ht. simpl andb. cbv iota.
  unfold bind at 1. unfold bind at 1. rewrite Hv. reflexivity.
Qed.

End BatchProperties.

Section ChecksumOnly.

Variable popen : list string -> gmap string string -> option ProcResult.
Variable matches : list string -> Item -> bool.
Variable self : CheckCommand.

Lemma check_item_checksum_only checksums item st w :
  exists st' e,
    check_item popen checksums false item st w = (Ok st', add_event e w) /\
    is_report e = true /\ is_output e = true /\
    integrity st' = integrity st /\
    failures st' = failures st + (if is_failed e || is_error e then 1 else 0).
Proof.
  unfold check_item, check_body, try_except.
  destruct (checksums && get_checksum_truthy item) eqn:Hc.
  - apply andb_true_iff in Hc as [_ Ht]. unfold get_checksum_truthy in Ht.
    destruct (checksum item) as [C|] eqn:HC; [|discriminate].
    unfold bind at 1. unfold bind at 1. rewrite (verify_checksum_cases _ _ _ HC).
    destruct (fs w !! path item) as [data|].
    + destruct (String.eqb C (Hashlib.sha256_hexdigest data)).
      * eexists. eexists. split; [reflexivity|]. simpl. repeat split. lia.
      * eexists. eexists. split; [reflexivity|]. simpl. repeat split.
    + eexists. eexists. split; [reflexivity|]. simpl. repeat split.
  - eexists. eexists. split; [reflexivity|]. simpl. repeat split. lia.
Qed.

Lemma frame_loop (R : World -> World -> Prop) `{!PreOrder R} E {S}
    (func : Item -> S -> M S) msg total items :
  (forall item st, Frame R E (func item st)) ->
  (forall index, Frame R E (log_progress self msg index total)) ->
  forall fin st, Frame R E (execute_loop self func items msg total fin st).
Proof.
  intros Hf Hl. induction items as [|item rest IH]; intros fin st; simpl.
  - apply frame_ret; exact _.
  - apply frame_bind; try exact _; [apply Hf|]. intros st'.
    apply frame_bind; try exact _; [apply Hl|]. intros _. apply IH.
Qed.

Lemma outputs_only_log_progress msg index total :
  Frame outputs_only any_exn (log_progress self msg index total).
Proof.
  intros w r w' H. split; [|intros; exact I]. unfold log_progress in H.
  destruct (quiet self || negb (isatty w)); [inversion H; subst; reflexivity|].
  destruct (Nat.eqb total 0); [inversion H; subst; reflexivity|].
  unfold bind, stdout_write, emit in H. simpl in H.
  destruct (Nat.eqb index total); inversion H; subst;
    (etransitivity; [apply outputs_only_event|apply outputs_only_event]); reflexivity.
Qed.

Lemma outputs_only_cmd_log msg : Frame outputs_only any_exn (cmd_log self msg).
Proof.
  intros w r w' H. split; [|intros; exact I]. unfold cmd_log, print, emit, ret in H.
  destruct (quiet self); inversion H; subst;
    [reflexivity | apply outputs_only_event; reflexivity].
Qed.

Lemma checksum_loop checksums msg total items :
  (items = [] \/ total <> 0) ->
  forall fin st w,
    exists st' w',
      execute_loop self (check_item popen checksums false) items msg total fin st w
        = (Ok st', w') /\
      outputs_only w w' /\
      count_ev is_report (trace w') = count_ev is_report (trace w) + length items /\
      failures st' + failure_reports w = failures st + failure_reports w' /\
      integrity st' = integrity st.
Proof.
  intros Ht. induction items as [|item rest IH]; intros fin st w.
  - exists st, w. simpl. split; [reflexivity|]. split; [reflexivity|]. repeat split; lia.
  - destruct Ht as [Habs|Ht]; [discriminate|].
    destruct (check_item_checksum_only checksums item st w)
      as (st1 & e & Hci & Hrep & Hout & Hint & Hfail).
    destruct (log_progress_Ok self msg (fin + 1) total (add_event e w) Ht) as [w2 Hl].
    destruct (IH (or_intror Ht) (fin + 1) st1 w2) as (st' & w' & Hrun & Ho & Hc & Hf & Hi).
    exists st', w'.
    rewrite (proj1 (loop_step_Ok self (fun _ => ret tt) _ item rest _ _ _ _ _ _ _ _ Hci Hl)).
    split; [exact Hrun|].
    pose proof (proj1 (outputs_only_log_progress _ _ _ _ _ _ Hl)) as Hlo.
    assert (Ho2 : outputs_only w w2).
    { transitivity (add_event e w); [apply outputs_only_event, Hout | exact Hlo]. }
    split; [transitivity w2; assumption|].
    assert (Hrep2 : count_ev is_report (trace w2) = count_ev is_report (trace w) + 1).
    { rewrite (log_progress_counts popen self _ _ _ _ _ _ _ is_report_log Hl).
      rewrite trace_add_event, count_ev_snoc, Hrep. reflexivity. }
    assert (Hf2 : failure_reports w2
                  = failure_reports w + (if is_failed e || is_error e then 1 else 0)).
    { unfold failure_reports.
      rewrite (log_progress_counts popen self _ _ _ _ _ _ _ is_failed_log Hl),
        (log_progress_counts popen self _ _ _ _ _ _ _ is_error_log Hl).
      rewrite trace_add_event, !count_ev_snoc.
      destruct e as [| lv m | | | | |]; try discriminate.
      destruct lv, m; simpl in *; try discriminate; lia. }
    split; [rewrite Hc, Hrep2; simpl; lia|]. split; [lia | congruence].
Qed.


(** X17. A check run without integrity checks (by the argument or, with
    no argument, by the configuration) ends in one of two ways: it
    returns, or it leaves through [sys.exit(15)].  It reports every
    selected item once, spawns no subprocess and changes nothing. *)
Theorem check_checksums_only integ w r w' :
  match integ with Some b => b | None => check_integrity self end = false ->
  check popen matches self true integ w = (r, w') ->
  (r = Ok tt \/ r = Raise (SystemExit 15)) /\
  outputs_only w w' /\
  count_ev is_report (trace w')
    = count_ev is_report (trace w) + length (List.filter (matches (query self)) (db w)) /\
  count_ev is_popen (trace w') = count_ev is_popen (trace w).
Proof.
  intros Hint. unfold check. rewrite Hint.
  unfold bind at 1. unfold ret at 1. cbv iota.
  unfold bind at 1. unfold ret at 1. cbv iota.
  unfold bind at 1. unfold lib_items at 1. cbv iota. simpl andb. cbv iota.
  unfold bind at 1. unfold ret at 1. cbv iota.
  set (items := List.filter (matches (query self)) (db w)).
  assert (Ht : items = [] \/ length items <> 0).
  { destruct items; [left; reflexivity | right; discriminate]. }
  destruct (checksum_loop true "Verifying checksums" (length items) items Ht 0
              {| failures := 0; integrity := 0 |} w)
    as (st & w1 & Hrun & Ho & Hc & Hf & Hi).
  assert (Hp : count_ev is_popen (trace w1) = count_ev is_popen (trace w)).
  { apply (outputs_only_count is_popen); [|exact Ho].
    intros [] He; try discriminate; reflexivity. }
  unfold execute_with_progress. unfold bind at 1. rewrite Hrun. intros H.
  destruct (check_summary_spec self true st w1 r w' H) as (Hs & Hnz & Hz).
  assert (Ho2 : outputs_only w1 w').
  { refine (proj1 (_ w1 r w' H)). apply frame_bind; try exact _.
    - destruct (negb (Nat.eqb (integrity st) 0)); [apply outputs_only_cmd_log|].
      simpl. apply frame_ret; exact _.
    - intros _. destruct (negb (Nat.eqb (failures st) 0)).
      + apply frame_bind; try exact _; [apply outputs_only_cmd_log|].
        intros _. apply frame_raise; [exact _ | exact I].
      + apply outputs_only_cmd_log. }
  assert (Hrep' : count_ev is_report (trace w') = count_ev is_report (trace w1)).
  { apply silent_count. refine (proj1 (_ w1 r w' H)).
    assert (Hlog : forall m, Frame (silent (counting is_report)) any_exn (cmd_log self m)).
    { intros m. apply frame_cmd_log; try exact _. intros w0.
      apply silent_add_event. reflexivity. }
    apply frame_bind; try exact _.
    - destruct (negb (Nat.eqb (integrity st) 0)); [apply Hlog|].
      simpl. apply frame_ret; exact _.
    - intros _. destruct (negb (Nat.eqb (failures st) 0)).
      + apply frame_bind; try exact _; [apply Hlog|].
        intros _. apply frame_raise; [exact _ | exact I].
      + apply Hlog. }
  split.
  - destruct (Nat.eq_dec (failures st) 0) as [Hz'|Hnz']; [left; auto | right; auto].
  - assert (Ho3 : outputs_only w w') by (transitivity w1; assumption).
    split; [exact Ho3|]. split.
    + rewrite <- Hc. exact Hrep'.
    + apply (outputs_only_count is_popen); [|exact Ho3].
      intros [] He; try discriminate; reflexivity.
Qed.

End ChecksumOnly.

Section Executor.

Variable popen : list string -> gmap string string -> option ProcResult.
Variable self : CheckCommand.

(** X18. An item without a checksum (the field is absent or empty) is
    reported OK by a checksum-only check and counted nowhere; its file
    is not even opened, so this holds for a file that is missing too. *)
Theorem check_item_without_checksum checksums item st w :
  get_checksum_truthy item = false ->
  check_item popen checksums false item st w
  = (Ok st, add_event (EvLog DEBUG (MsgOK (path item))) w).
Proof.
  intros Ht. unfold check_item, check_body, try_except.
  rewrite Ht, andb_false_r. reflexivity.
Qed.



End Executor.

(** ** Further properties: [update] and [add] *)

Global Instance adds_only_preorder (P : event -> Prop) : PreOrder (adds_only P).
Proof.
  split.
  - intros w. exists []. rewrite app_nil_r. split; [reflexivity | constructor].
  - intros w1 w2 w3 (d1 & T1 & P1) (d2 & T2 & P2). exists (d1 ++ d2).
    rewrite T2, T1, app_assoc. split; [reflexivity | apply Forall_app; split; assumption].
Qed.

Lemma adds_only_event (P : event -> Prop) e w : P e -> adds_only P w (add_event e w).
Proof. intros He. exists [e]. split; [reflexivity | repeat constructor; exact He]. Qed.

Lemma adds_only_same (P : event -> Prop) w w' : trace w' = trace w -> adds_only P w w'.
Proof. intros H. exists []. rewrite app_nil_r. split; [exact H | constructor]. Qed.

Lemma adds_only_count (P : event -> Prop) p w w' :
  (forall e, P e -> p e = false) ->
  adds_only P w w' -> count_ev p (trace w') = count_ev p (trace w).
Proof.
  intros Hp (d & Ht & Hd). rewrite Ht, count_ev_app.
  assert (Hz : count_ev p d = 0).
  { clear Ht. induction Hd as [|e d He _ IH]; [reflexivity|].
    change (e :: d) with ([e] ++ d). rewrite count_ev_app, count_ev_one, (Hp e He), IH.
    reflexivity. }
  rewrite Hz. lia.
Qed.

Section UpdateAdd.

Variable popen : list string -> gmap string string -> option ProcResult.
Variable matches : list string -> Item -> bool.
Variable displayable_path : string -> string.
Variable self : CheckCommand.

Lemma log_progress_writes msg index total w r w' :
  log_progress self msg index total w = (r, w') ->
  same_state w w' /\ adds_only (fun e => is_write e = true) w w'.
Proof.
  unfold log_progress.
  destruct (quiet self || negb (isatty w)).
  { intros H. inversion H; subst. split; [repeat split | reflexivity]. }
  destruct (Nat.eqb total 0).
  { intros H. inversion H; subst. split; [repeat split | reflexivity]. }
  unfold bind, stdout_write, emit. simpl.
  destruct (Nat.eqb index total); intros H; inversion H; subst;
    (split; [repeat split|]);
    (etransitivity; [apply adds_only_event | apply adds_only_event]); reflexivity.
Qed.

Lemma is_write_not (p : event -> bool) :
  (forall s, p (EvStdoutWrite s) = false) ->
  forall e, is_write e = true -> p e = false.
Proof. intros Hp e. destruct e; simpl; try discriminate. intros _. apply Hp. Qed.

Lemma update_item_cases item st w :
  update_item displayable_path item st w
  = match fs w !! path item with
    | Some data =>
        (Ok tt,
         snd (set_checksum item
                (add_event (EvLog DEBUG
                              (MsgText ("updating checksum: "
                                        +:+ displayable_path (path item)))) w)))
    | None =>
        (Ok tt,
         add_event (EvLog ERROR (MsgERROR (IOError (path item))))
           (add_event (EvLog DEBUG
                         (MsgText ("updating checksum: "
                                   +:+ displayable_path (path item)))) w))
    end.
Proof.
  unfold update_item, try_except, log_debug, log_error.
  unfold bind at 1. unfold emit at 1. cbv iota.
  set (w0 := add_event _ w).
  assert (Hfs : fs w0 !! path item = fs w !! path item) by reflexivity.
  destruct (fs w !! path item) as [data|] eqn:Hd.
  - unfold bind at 1. rewrite (set_checksum_readable _ _ _ Hfs). reflexivity.
  - unfold bind at 1. rewrite (set_checksum_unreadable _ _ Hfs). reflexivity.
Qed.

Lemma update_item_step item st w :
  exists w1,
    update_item displayable_path item st w = (Ok tt, w1) /\
    fs w1 = fs w /\ stdin w1 = stdin w /\
    update_handled w1 = update_handled w + 1 /\
    count_ev is_prompt (trace w1) = count_ev is_prompt (trace w).
Proof.
  rewrite update_item_cases. unfold update_handled.
  destruct (fs w !! path item) as [data|] eqn:Hd.
  - rewrite (set_checksum_readable _ data); [|exact Hd].
    eexists. split; [reflexivity|]. simpl.
    rewrite <- !app_assoc, !count_ev_app. unfold count_ev. simpl. repeat split; lia.
  - eexists. split; [reflexivity|]. simpl.
    rewrite <- !app_assoc, !count_ev_app. unfold count_ev. simpl. repeat split; lia.
Qed.

Lemma update_loop msg total items :
  (items = [] \/ total <> 0) ->
  forall fin w,
    exists w',
      execute_loop self (update_item displayable_path) items msg total fin tt w
        = (Ok tt, w') /\
      fs w' = fs w /\ stdin w' = stdin w /\
      update_handled w' = update_handled w + length items /\
      count_ev is_prompt (trace w') = count_ev is_prompt (trace w).
Proof.
  intros Ht. induction items as [|item rest IH]; intros fin w.
  - exists w. simpl. repeat split; lia.
  - destruct Ht as [Habs|Ht]; [discriminate|].
    destruct (update_item_step item tt w) as (w1 & Hu & Hf1 & Hs1 & Hh1 & Hp1).
    destruct (log_progress_Ok self msg (fin + 1) total w1 Ht) as [w2 Hl].
    destruct (log_progress_writes _ _ _ _ _ _ Hl) as [(Hf2 & _ & Hs2 & _) Hw2].
    destruct (IH (or_intror Ht) (fin + 1) w2) as (w' & Hrun & Hf & Hs & Hh & Hp).
    exists w'.
    rewrite (proj1 (loop_step_Ok self (fun _ => ret tt) _ item rest _ _ _ _ _ _ _ _ Hu Hl)).
    split; [exact Hrun|].
    assert (Hh2 : update_handled w2 = update_handled w1).
    { unfold update_handled.
      rewrite (adds_only_count _ is_store _ _ (is_write_not is_store (fun _ => eq_refl)) Hw2),
        (adds_only_count _ is_error _ _ (is_write_not is_error (fun _ => eq_refl)) Hw2).
      reflexivity. }
    assert (Hp2 : count_ev is_prompt (trace w2) = count_ev is_prompt (trace w1)).
    { apply (adds_only_count _ is_prompt _ _
               (is_write_not is_prompt (fun _ => eq_refl)) Hw2). }
    simpl length. repeat split; try congruence; lia.
Qed.

(** X20. [update] cannot fail on a file: unlike [add], its closure
    catches the [IOError] of an unreadable file and logs an ERROR line.
    When a query is given or the update is forced, nobody is asked, the
    run returns, every selected item is either stored with a new
    checksum or reported with an ERROR line, and no file changes. *)
Theorem update_completes w :
  (query self <> [] \/ force_update self = true) ->
  exists w',
    update matches displayable_path self w = (Ok tt, w') /\
    update_handled w'
      = update_handled w + length (List.filter (matches (query self)) (db w)) /\
    fs w' = fs w /\ stdin w' = stdin w /\
    count_ev is_prompt (trace w') = count_ev is_prompt (trace w).
Proof.
  intros Hgo. unfold update.
  assert (Hcond : (match query self with [] => true | _ :: _ => false end
                   && negb (force_update self)) = false).
  { destruct Hgo as [Hq| ->]; [|apply andb_false_r].
    destruct (query self); [contradiction | reflexivity]. }
  rewrite Hcond. unfold bind at 1. unfold ret at 1. cbv iota. simpl negb. cbv iota.
  unfold bind at 1. unfold lib_items at 1. cbv iota.
  unfold execute_with_progress.
  set (items := List.filter (matches (query self)) (db w)).
  assert (Ht : items = [] \/ length items <> 0).
  { destruct items; [left; reflexivity | right; discriminate]. }
  destruct (update_loop "Updating checksums" (length items) items Ht 0 w)
    as (w' & Hrun & Hf & Hs & Hh & Hp).
  exists w'. repeat split; assumption.
Qed.

(** X21. Without a query and without force, [update] asks before it
    overwrites anything; when the answer is no it returns at once:
    nothing is read, stored or logged. *)
Theorem update_declined w rest :
  query self = [] -> force_update self = false ->
  stdin w = false :: rest ->
  update matches displayable_path self w
  = (Ok tt,
     set_stdin rest
       (add_event
          (EvInputYn "Do you want to overwrite all checksums in your database? (y/n)")
          w)).
Proof.
  intros Hq Hf Hin. unfold update. rewrite Hq, Hf. simpl andb. cbv iota.
  unfold bind at 1. unfold input_yn, bind, emit. simpl. rewrite Hin. reflexivity.
Qed.

End UpdateAdd.

Section AddProperties.

Variable popen : list string -> gmap string string -> option ProcResult.
Variable matches : list string -> Item -> bool.
Variable self : CheckCommand.

Lemma valsafe_adds_only (P : event -> Prop) :
  (forall s, P (EvStdoutWrite s)) ->
  (forall argv, is_repair_argv argv = false -> P (EvPopen argv)) ->
  ValSafe popen (adds_only P).
Proof.
  intros Hw Hp. split.
  - exact _.
  - intros c w. apply adds_only_same. reflexivity.
  - intros s w. apply adds_only_event, Hw.
  - intros argv w Ha. apply adds_only_event, Hp, Ha.
  - intros argv w pr _ _. apply adds_only_same. reflexivity.
Qed.

Lemma frame_loop_in (R : World -> World -> Prop) `{!PreOrder R} E {S}
    (func : Item -> S -> M S) msg total items :
  (forall item st, In item items -> Frame R E (func item st)) ->
  (forall index, Frame R E (log_progress self msg index total)) ->
  forall fin st, Frame R E (execute_loop self func items msg total fin st).
Proof.
  intros Hf Hl. induction items as [|item rest IH]; intros fin st; simpl.
  - apply frame_ret; exact _.
  - apply frame_bind; try exact _; [apply Hf; left; reflexivity|]. intros st'.
    apply frame_bind; try exact _; [apply Hl|]. intros _.
    apply IH. intros i s Hi. apply Hf. right. exact Hi.
Qed.

Lemma frame_set_checksum (P : event -> Prop) item :
  (forall c, P (EvStore (with_checksum c item))) ->
  Frame (adds_only P) batch_exn (set_checksum item).
Proof.
  intros HP w r w' H.
  destruct (fs w !! path item) as [data|] eqn:Hd.
  - rewrite (set_checksum_readable _ _ _ Hd) in H. inversion H; subst.
    split; [|discriminate]. exists [EvStore (with_checksum (Hashlib.sha256_hexdigest data) item)].
    split; [reflexivity | repeat constructor; apply HP].
  - rewrite (set_checksum_unreadable _ _ Hd) in H. inversion H; subst.
    split; [reflexivity|]. intros e He. inversion He; subst. exact I.
Qed.

Lemma frame_add_item selected item st :
  In item selected ->
  Frame (adds_only (add_event_allowed selected)) batch_exn (add_item popen self item st).
Proof.
  intros Hin.
  pose proof (valsafe_adds_only (add_event_allowed selected)
                (fun _ => I) (fun _ H => H)) as VS.
  unfold add_item.
  apply frame_bind; try exact _.
  { apply frame_emit. intros w. apply adds_only_event. exact I. }
  intros _. apply frame_bind; try exact _.
  { apply frame_set_checksum. intros c. exists item, c. split; [exact Hin | reflexivity]. }
  intros item'. destruct (check_integrity self); [|apply frame_ret; exact _].
  apply (frame_try_except _ batch_exn batch_exn); try exact _.
  - apply frame_verify_integrity; exact _.
  - intros e handler He. destruct e; inversion He; subst.
    apply frame_emit. intros w. apply adds_only_event. exact I.
  - intros e He _. exact He.
Qed.




(** X23. Whatever its result, [add] stores only items of its selection
    (selected rows without a checksum), each with a checksum put in; it
    runs no repair, removes no file and asks nothing. *)
Theorem add_only_fills_missing w r w' :
  add popen matches self w = (r, w') ->
  adds_only (add_event_allowed (add_selection matches self w)) w w'.
Proof.
  intros H.
  set (P := add_event_allowed (add_selection matches self w)).
  pose proof (valsafe_adds_only P (fun _ => I) (fun _ H => H)) as VS.
  unfold add in H.
  destruct (bind_inv _ _ _ _ _ H) as [([] & w0 & H0 & H1)|(e & H0 & _)].
  - assert (R0 : adds_only P w w0 /\ db w0 = db w).
    { unfold cmd_log, print, emit, ret in H0.
      destruct (quiet self); inversion H0; subst;
        (split; [|reflexivity]); [reflexivity | apply adds_only_event; exact I]. }
    destruct R0 as [R0 Hd0].
    unfold bind at 1 in H1. unfold lib_items at 1 in H1. cbv iota in H1.
    rewrite Hd0 in H1. unfold execute_with_progress in H1.
    transitivity w0; [exact R0|].
    refine (proj1 (frame_loop_in (adds_only P) batch_exn _ _ _ _ _ _ 0 tt _ _ _ H1)).
    + intros item st Hin. apply frame_add_item. exact Hin.
    + intros index. apply frame_log_progress with (popen := popen). exact VS.
  - unfold cmd_log, print, emit, ret in H0. destruct (quiet self); discriminate.
Qed.

End AddProperties.

(** ** Further properties: prompts *)

Global Instance untouched_preorder : PreOrder untouched.
Proof.
  split.
  - intros w. repeat split.
  - intros w1 w2 w3 (D1 & S1 & C1) (D2 & S2 & C2). repeat split; congruence.
Qed.

Lemma untouched_event e w : is_change e = false -> untouched w (add_event e w).
Proof.
  intros He. repeat split. rewrite trace_add_event, count_ev_snoc, He. lia.
Qed.

Lemma valsafe_untouched popen : ValSafe popen untouched.
Proof.
  split.
  - exact _.
  - intros c w. repeat split.
  - intros s w. apply untouched_event. reflexivity.
  - intros argv w Ha. apply untouched_event. exact Ha.
  - intros argv w pr _ _. repeat split.
Qed.

Section FixDeclined.

Variable popen : list string -> gmap string string -> option ProcResult.
Variable matches : list string -> Item -> bool.
Variable self : CheckCommand.

(** X24. [fix] with [ask] changes nothing unless the pending answer to
    its question is yes: when the answer is no, when the input has ended,
    and when the question is never reached, no repair is run, no file is
    removed and no library row is stored. *)
Theorem fix_declined backup w r w' :
  hd_error (stdin w) <> Some true ->
  fix_ popen matches self true backup w = (r, w') ->
  db w' = db w /\ count_ev is_change (trace w') = count_ev is_change (trace w).
Proof.
  intros Hans H.
  pose proof (valsafe_untouched popen) as VS.
  assert (Hgoal : untouched w w' \/
                  exists w2, untouched w w2 /\ db w' = db w2 /\
                                  trace w' = trace w2 ++ [EvInputYn
                                    ("Do you want to fix these files? "
                                     +:+ (if backup then "Backup files will be created."
                                          else "No backup files will be created.")
                                     +:+ " (y/n)")]).
  { unfold fix_ in H.
    destruct (bind_inv _ _ _ _ _ H) as [(items & w0 & H0 & H1)|(e & H0 & _)];
      [|inversion H0].
    inversion H0; subst. clear H0.
    assert (Hphase : forall r1 w1,
               execute_with_progress self (fix_check_item popen)
                 (List.filter (matches (query self)) (db w0)) "Verifying integrity" [] w0
               = (r1, w1) -> untouched w0 w1).
    { intros r1 w1 Hrun.
      refine (proj1 (frame_execute_loop popen self untouched _ _ _ _ _ 0 [] _ _ _ Hrun)).
      intros item st. apply frame_fix_check_item; [exact VS | |];
        intros; apply untouched_event; reflexivity. }
    destruct (bind_inv _ _ _ _ _ H1) as [(failed & w1 & Hph & H2)|(e & Hph & _)];
      [|left; exact (Hphase _ _ Hph)].
    pose proof (Hphase _ _ Hph) as U1.
    destruct failed as [|f fs0].
    - left. transitivity w1; [exact U1|].
      refine (proj1 (frame_cmd_log self untouched any_exn _ _ _ _ _ H2)).
      intros w2. apply untouched_event. reflexivity.
    - assert (Hlist : forall r2 w2,
                 for_each (f :: fs0) (fun item => log_info (MsgPath (path item))) w1
                 = (r2, w2) -> untouched w1 w2).
      { intros r2 w2 Hl.
        refine (proj1 (frame_for_each untouched any_exn _ _ _ _ _ _ Hl)).
        intros x _. apply frame_emit. intros w3. apply untouched_event. reflexivity. }
      destruct (bind_inv _ _ _ _ _ H2) as [([] & w2 & Hl & H3)|(e & Hl & _)];
        [|left; transitivity w1; [exact U1 | exact (Hlist _ _ Hl)]].
      assert (U2 : untouched w0 w2) by (transitivity w1; [exact U1 | exact (Hlist _ _ Hl)]).
      right. exists w2. split; [exact U2|].
      destruct U2 as (_ & Hs2 & _).
      unfold bind at 1 in H3. unfold input_yn, bind, emit in H3. simpl in H3.
      rewrite Hs2 in H3.
      destruct (stdin w0) as [|[|] rest].
      + inversion H3; subst. split; reflexivity.
      + exfalso. apply Hans. reflexivity.
      + simpl in H3. inversion H3; subst. split; reflexivity. }
  destruct Hgoal as [(D & _ & C)|(w2 & (D & _ & C) & D' & T')].
  - split; assumption.
  - split; [congruence|]. rewrite T', count_ev_snoc. simpl. lia.
Qed.

End FixDeclined.

Global Instance no_prompt_preorder : PreOrder no_prompt.
Proof.
  split.
  - intros w. split; reflexivity.
  - intros w1 w2 w3 [S1 C1] [S2 C2]. split; congruence.
Qed.

Lemma no_prompt_event e w : is_prompt e = false -> no_prompt w (add_event e w).
Proof.
  intros He. split; [reflexivity|]. rewrite trace_add_event, count_ev_snoc, He. lia.
Qed.

Lemma valsafe_no_prompt popen : ValSafe popen no_prompt.
Proof.
  split.
  - exact _.
  - intros c w. split; reflexivity.
  - intros s w. apply no_prompt_event. reflexivity.
  - intros argv w _. apply no_prompt_event. reflexivity.
  - intros argv w pr _ _. split; reflexivity.
Qed.

Section NoPrompt.

Variable popen : list string -> gmap string string -> option ProcResult.
Variable matches : list string -> Item -> bool.
Variable displayable_path : string -> string.
Variable colorize : string -> string -> string.

Local Notation "'NP'" := (Frame no_prompt any_exn).

Lemma np_intro {A} (m : M A) :
  (forall w r w', m w = (r, w') -> no_prompt w w') -> NP m.
Proof. intros Hm w r w' H. split; [exact (Hm _ _ _ H) | intros; exact I]. Qed.

Lemma np_batch {A} (m : M A) : Frame no_prompt batch_exn m -> NP m.
Proof. apply frame_weaken. intros; exact I. Qed.

Lemma np_ret {A} (a : A) : NP (ret a).
Proof. apply frame_ret. exact _. Qed.

Lemma np_raise {A} e : NP (@raise A e).
Proof. apply frame_raise; [exact _ | exact I]. Qed.

Lemma np_bind {A B} (m : M A) (k : A -> M B) :
  NP m -> (forall a, NP (k a)) -> NP (bind m k).
Proof. apply frame_bind. exact _. Qed.

Lemma np_try {A} (m : M A) h :
  NP m -> (forall e handler, h e = Some handler -> NP handler) -> NP (try_except m h).
Proof.
  intros Hm Hh. apply (frame_try_except no_prompt any_exn any_exn); try assumption.
  intros; exact I.
Qed.

Lemma np_emit e : is_prompt e = false -> NP (emit e).
Proof. intros He. apply frame_emit. intros w. apply no_prompt_event, He. Qed.

Lemma np_for_each {A} (l : list A) (f : A -> M unit) :
  (forall x, NP (f x)) -> NP (for_each l f).
Proof. intros Hf. apply frame_for_each; [exact _|]. intros x _. apply Hf. Qed.

Lemma np_map_m {A B} (f : A -> M B) (l : list A) :
  (forall x, NP (f x)) -> NP (map_m f l).
Proof.
  intros Hf. induction l as [|x rest IH]; simpl.
  - apply np_ret.
  - apply np_bind; [apply Hf|]. intros b. apply np_bind; [exact IH|].
    intros tl. apply np_ret.
Qed.

Lemma np_store item : NP (store item).
Proof.
  apply np_intro. intros w r w' H. unfold store, bind, emit in H.
  inversion H; subst. split; [reflexivity|]. simpl.
  rewrite count_ev_snoc. simpl. lia.
Qed.

Lemma np_set_checksum item : NP (set_checksum item).
Proof.
  unfold set_checksum, compute_checksum.
  apply np_bind.
  - apply np_bind; [|intros; apply np_ret].
    apply frame_open_read; [exact _ | exact I].
  - intros c. apply np_bind; [apply np_store | intros; apply np_ret].
Qed.

Lemma np_Popen argv : NP (Popen_communicate popen argv).
Proof.
  unfold Popen_communicate. apply np_bind; [apply np_emit; reflexivity|].
  intros _. apply np_intro. intros w r w' H.
  destruct (popen argv (fs w)); inversion H; subst; split; reflexivity.
Qed.

Lemma np_os_remove p : NP (os_remove p).
Proof.
  unfold os_remove. apply np_bind; [apply np_emit; reflexivity|].
  intros _. apply np_intro. intros w r w' H.
  destruct (fs w !! p); inversion H; subst; split; reflexivity.
Qed.

Lemma np_checker_fix c item backup : NP (checker_fix popen c item backup).
Proof.
  unfold checker_fix. destruct c; try apply np_raise.
  apply np_bind; [apply np_Popen|]. intros _.
  destruct (negb backup); [apply np_os_remove | apply np_ret].
Qed.

Variable self : CheckCommand.

Lemma np_log_progress msg index total : NP (log_progress self msg index total).
Proof. apply np_batch, frame_log_progress with (popen := popen), valsafe_no_prompt. Qed.

Lemma np_loop {S} (func : Item -> S -> M S) items msg st :
  (forall item st0, NP (func item st0)) ->
  NP (execute_with_progress self func items msg st).
Proof.
  intros Hf. unfold execute_with_progress. apply frame_loop; try exact _; [exact Hf|].
  intros index. apply np_log_progress.
Qed.

Lemma np_cmd_log msg : NP (cmd_log self msg).
Proof.
  apply frame_cmd_log; [exact _|]. intros w. apply no_prompt_event. reflexivity.
Qed.

Lemma np_allAvailable : NP (allAvailable popen).
Proof. apply np_batch, frame_allAvailable, valsafe_no_prompt. Qed.

Lemma np_verify_integrity item : NP (verify_integrity popen item).
Proof. apply np_batch, frame_verify_integrity, valsafe_no_prompt. Qed.

Lemma np_verify_checksum item : NP (verify_checksum item).
Proof. apply np_batch, frame_checksum_batch with (popen := popen), valsafe_no_prompt. Qed.

Lemma np_check_item checksums integ item st :
  NP (check_item popen checksums integ item st).
Proof.
  unfold check_item, check_body. apply np_try.
  - apply np_bind; [|intros; apply np_ret].
    apply np_bind.
    + destruct (checksums && get_checksum_truthy item);
        [apply np_verify_checksum | apply np_ret].
    + intros _. apply np_bind.
      * destruct integ; [apply np_verify_integrity | apply np_ret].
      * intros _. apply np_emit. reflexivity.
  - intros e handler He. destruct e; inversion He; subst;
      (apply np_bind; [apply np_emit; reflexivity | intros; apply np_ret]).
Qed.

Lemma np_check checksums integ : NP (check popen matches self checksums integ).
Proof.
  unfold check. apply np_bind.
  - destruct (match integ with Some b => b | None => check_integrity self end);
      [|apply np_ret].
    apply np_bind; [apply np_allAvailable|]. intros [|c l]; [|apply np_ret].
    destruct (negb checksums); [apply np_raise|].
    apply np_bind; [apply np_emit; reflexivity | intros; apply np_ret].
  - intros integ1. apply np_bind.
    + destruct integ1; [|apply np_ret].
      apply np_bind; [apply np_allAvailable|]. intros avail. apply np_cmd_log.
    + intros _. apply np_bind; [apply frame_lib_items; exact _|]. intros items.
      apply np_bind.
      * destruct (checksums && integ1); [apply np_ret|].
        destruct checksums; [apply np_ret|].
        destruct integ1; [apply np_ret | apply np_raise].
      * intros msg. apply np_bind; [apply np_loop; intros; apply np_check_item|].
        intros st. apply np_bind.
        -- destruct (negb (Nat.eqb (integrity st) 0)); [apply np_cmd_log|].
           destruct (negb checksums); [apply np_cmd_log | apply np_ret].
        -- intros _. destruct (negb (Nat.eqb (failures st) 0)).
           ++ apply np_bind; [apply np_cmd_log | intros; apply np_raise].
           ++ destruct checksums; [apply np_cmd_log | apply np_ret].
Qed.

Lemma np_add : NP (add popen matches self).
Proof.
  unfold add. apply np_bind; [apply np_cmd_log|]. intros _.
  apply np_bind; [apply frame_lib_items; exact _|]. intros selected.
  apply np_loop. intros item st. unfold add_item.
  apply np_bind; [apply np_emit; reflexivity|]. intros _.
  apply np_bind; [apply np_set_checksum|]. intros item'.
  destruct (check_integrity self); [|apply np_ret].
  apply np_try; [apply np_verify_integrity|].
  intros e handler He. destruct e; inversion He; subst. apply np_emit. reflexivity.
Qed.

Lemma np_update_forced :
  force_update self = true -> NP (update matches displayable_path self).
Proof.
  intros Hf. unfold update. rewrite Hf, andb_false_r.
  apply np_bind; [apply np_ret|]. intros go. destruct (negb go); [apply np_ret|].
  apply np_bind; [apply frame_lib_items; exact _|]. intros items.
  apply np_loop. intros item st. unfold update_item.
  apply np_bind; [apply np_emit; reflexivity|]. intros _.
  apply np_try.
  - apply np_bind; [apply np_set_checksum | intros; apply np_ret].
  - intros e handler He. destruct e; inversion He; subst. apply np_emit. reflexivity.
Qed.

Lemma np_export : NP (export matches displayable_path self).
Proof.
  unfold export. apply np_bind; [apply frame_lib_items; exact _|]. intros items.
  apply np_for_each. intros item.
  destruct (get_checksum_truthy item); [apply np_emit; reflexivity | apply np_ret].
Qed.

Lemma np_fix_forced backup : NP (fix_ popen matches self false backup).
Proof.
  pose proof (valsafe_no_prompt popen) as VS.
  unfold fix_. apply np_bind; [apply frame_lib_items; exact _|]. intros items.
  apply np_bind.
  - apply np_loop. intros item st. apply np_batch, frame_fix_check_item; [exact VS | |];
      intros; apply no_prompt_event; reflexivity.
  - intros [|f failed]; [apply np_cmd_log|].
    apply np_bind; [apply np_for_each; intros; apply np_emit; reflexivity|].
    intros _. apply np_bind; [apply np_ret|]. intros go.
    destruct (negb go); [apply np_ret|].
    apply np_loop. intros item st. unfold fix_item.
    apply np_bind; [apply np_batch, frame_fixer, VS|]. intros [c|]; [|apply np_ret].
    apply np_bind; [apply np_checker_fix|]. intros _.
    apply np_bind; [apply np_emit; reflexivity|]. intros _.
    apply np_bind; [apply np_set_checksum | intros; apply np_ret].
Qed.

Lemma np_list_tools : NP (list_tools popen colorize).
Proof.
  unfold list_tools. apply np_bind.
  - apply np_map_m. intros c.
    apply np_bind; [apply np_batch, frame_available, valsafe_no_prompt|].
    intros; apply np_ret.
  - intros checkers. apply np_for_each. intros c. apply np_emit. reflexivity.
Qed.

End NoPrompt.

(** X25. With [--force] no mode of the command asks anything: whatever
    the options, the query and the outcome, [func] shows no prompt and
    takes no answer from the input. *)
Theorem forced_run_never_prompts popen matches displayable_path colorize
    (self : CheckCommand) (options : Options) (arguments : list string) w r w' :
  opt_force options = true ->
  func popen matches displayable_path colorize self options arguments w = (r, w') ->
  stdin w' = stdin w /\
  count_ev is_prompt (trace w') = count_ev is_prompt (trace w).
Proof.
  intros Hforce H. change (no_prompt w w').
  unfold func in H. rewrite Hforce in H. simpl negb in H.
  destruct (opt_add options); [exact (proj1 (np_add popen matches _ _ _ _ H))|].
  destruct (opt_update options);
    [eapply proj1, (np_update_forced popen matches displayable_path); [|exact H];
     reflexivity|].
  destruct (opt_export options);
    [exact (proj1 (np_export matches displayable_path _ _ _ _ H))|].
  destruct (opt_fix options); [exact (proj1 (np_fix_forced popen matches _ _ _ _ _ H))|].
  destruct (opt_list_tools options); [exact (proj1 (np_list_tools popen colorize _ _ _ H))|].
  destruct (opt_only_integrity options); exact (proj1 (np_check popen matches _ _ _ _ _ _ H)).
Qed.

(** ** Further properties: the import check and [list_tools] *)

Lemma for_each_emit {A} (l : list A) (g : A -> event) w :
  exists w2,
    for_each l (fun x => emit (g x)) w = (Ok tt, w2) /\
    same_state w w2 /\ trace w2 = trace w ++ map g l.
Proof.
  revert w. induction l as [|x rest IH]; intros w.
  - exists w. split; [reflexivity|]. split; [repeat split|].
    simpl. rewrite app_nil_r. reflexivity.
  - destruct (IH (add_event (g x) w)) as (w2 & Hrun & (F & D & S & C) & T).
    exists w2. simpl for_each. unfold bind at 1. unfold emit at 1. cbv iota.
    split; [exact Hrun|]. split; [repeat split; assumption|].
    rewrite T, trace_add_event, <- app_assoc. reflexivity.
Qed.

Section ImportCheck.

Variable popen : list string -> gmap string string -> option ProcResult.
Variable exn_str : exn -> string.

Lemma frame_import_errors (R : World -> World -> Prop) `{!ValSafe popen R} items :
  forall errors, Frame R batch_exn (import_integrity_errors popen items errors).
Proof.
  induction items as [|item rest IH]; intros errors; simpl.
  - apply frame_ret; exact _.
  - apply frame_bind; try exact _; [|intros errors'; apply IH].
    apply (frame_try_except R batch_exn batch_exn); try exact _.
    + apply frame_bind; try exact _; [apply frame_verify_integrity; exact _|].
      intros _. apply frame_ret; exact _.
    + intros e handler He. destruct e; inversion He; subst. apply frame_ret; exact _.
    + intros e He _. exact He.
Qed.

Lemma import_warnings item errs w :
  exists w2,
    for_each errs
      (fun error =>
         log_warn (MsgText ("  " +:+ path item +:+ ": " +:+ exn_str error)))
      (add_event (EvLog WARN (MsgText "Warning: failed to verify integrity")) w)
    = (Ok tt, w2) /\
    stdin w2 = stdin w /\
    trace w2
    = trace w
      ++ EvLog WARN (MsgText "Warning: failed to verify integrity")
         :: map (fun error =>
                   EvLog WARN (MsgText ("  " +:+ path item +:+ ": " +:+ exn_str error)))
              errs.
Proof.
  destruct (for_each_emit errs
              (fun error =>
                 EvLog WARN (MsgText ("  " +:+ path item +:+ ": " +:+ exn_str error)))
              (add_event (EvLog WARN (MsgText "Warning: failed to verify integrity")) w))
    as (w2 & Hrun & (_ & _ & S & _) & T).
  exists w2. split; [exact Hrun|]. split; [exact S|].
  rewrite T, trace_add_event, <- app_assoc. reflexivity.
Qed.

(** X26. The import check skips an album exactly when a file of it
    failed validation and either the import is quiet or the user agrees:
    without integrity errors the result is not to skip, whatever the
    input; with errors in quiet mode it is to skip; otherwise
    it is the pending answer, and a [UserError] when the input has
    ended. *)
Theorem import_skip_decision import_quiet items w errs w1 :
  items <> [] ->
  import_integrity_errors popen items [] w = (Ok errs, w1) ->
  fst (verify_import_integrity popen exn_str import_quiet items w)
  = match errs with
    | [] => Ok false
    | _ :: _ =>
        if import_quiet then Ok true
        else match stdin w with
             | answer :: _ => Ok answer
             | [] => Raise (UserError "stdin stream ended while input required")
             end
    end.
Proof.
  intros Hne Hph.
  pose proof (proj1 (frame_import_errors same_stdin (ValSafe0 := valsafe_same_stdin popen)
                       items [] _ _ _ Hph)) as Hs1.
  unfold verify_import_integrity.
  destruct (last items) as [item|] eqn:Hlast;
    [|apply last_None in Hlast; contradiction].
  unfold bind at 1. rewrite Hph.
  destruct errs as [|e errs]; [reflexivity|].
  destruct (import_warnings item (e :: errs) w1) as (w2 & Hw & Hs2 & _).
  unfold bind at 1. unfold log_warn at 1. unfold emit at 1. cbv iota.
  unfold bind at 1. rewrite Hw.
  destruct import_quiet; [reflexivity|].
  unfold bind at 1. unfold input_yn, bind, emit. simpl.
  rewrite Hs2, Hs1.
  destruct (stdin w) as [|[|] rest]; reflexivity.
Qed.

(** X27. When files failed validation the import check logs the header
    and then one warning per failure, in order; every one of these lines
    names the path of the last item of the task, whichever file
    failed. *)
Theorem import_warnings_name_last_item import_quiet items item w errs w1 r w' :
  last items = Some item ->
  import_integrity_errors popen items [] w = (Ok errs, w1) ->
  errs <> [] ->
  verify_import_integrity popen exn_str import_quiet items w = (r, w') ->
  exists rest,
    trace w'
    = trace w1
      ++ EvLog WARN (MsgText "Warning: failed to verify integrity")
         :: map (fun error =>
                   EvLog WARN (MsgText ("  " +:+ path item +:+ ": " +:+ exn_str error)))
              errs
      ++ rest.
Proof.
  intros Hlast Hph Hne. unfold verify_import_integrity. rewrite Hlast.
  unfold bind at 1. rewrite Hph.
  destruct errs as [|e errs]; [contradiction|].
  destruct (import_warnings item (e :: errs) w1) as (w2 & Hw & Hs2 & T).
  unfold bind at 1. unfold log_warn at 1. unfold emit at 1. cbv iota.
  unfold bind at 1. rewrite Hw.
  destruct import_quiet.
  - unfold bind, ret, log_info, emit. intros H. inversion H; subst.
    eexists. simpl trace. rewrite T, <- app_assoc. reflexivity.
  - unfold bind at 1. unfold input_yn, bind, emit. simpl.
    destruct (stdin w2) as [|[|] rest0]; intros H; inversion H; subst;
      eexists; simpl trace; rewrite T, <- ?app_assoc; reflexivity.
Qed.

End ImportCheck.

Section ListTools.

Variable popen : list string -> gmap string string -> option ProcResult.
Variable colorize : string -> string -> string.

Lemma available_probe c w r w1 :
  available popen c w = (r, w1) ->
  trace w1 = trace w ++ [EvPopen [program c; "-v"]] /\
  all_available w1 = all_available w /\
  (forall e, r = Raise e -> exists code, e = CalledProcessError code).
Proof.
  rewrite available_cases.
  destruct (popen [program c; "-v"] (fs w)) as [pr|].
  - destruct (Z.eqb (p_returncode pr) 0); intros H; inversion H; subst;
      (split; [reflexivity|]); (split; [reflexivity|]).
    + discriminate.
    + intros e He. inversion He. eexists. reflexivity.
  - intros H. inversion H; subst. split; [reflexivity|]. split; [reflexivity|].
    discriminate.
Qed.

Lemma probe_all l :
  forall w r w1,
    map_m (fun c => a <- available popen c ;; ret (program c, a)) l w = (r, w1) ->
    all_available w1 = all_available w /\
    match r with
    | Ok cs =>
        map fst cs = map program l /\
        trace w1 = trace w ++ map (fun c => EvPopen [program c; "-v"]) l
    | Raise e =>
        (exists code, e = CalledProcessError code) /\
        exists n, trace w1
                  = trace w ++ map (fun c => EvPopen [program c; "-v"]) (firstn n l)
    end.
Proof.
  induction l as [|c rest IH]; intros w r w1 H.
  - inversion H; subst. split; [reflexivity|]. split; [reflexivity|].
    simpl. rewrite app_nil_r. reflexivity.
  - simpl in H.
    destruct (bind_inv _ _ _ _ _ H) as [(b & w0 & H1 & H2)|(e & H1 & ->)].
    + destruct (bind_inv _ _ _ _ _ H1) as [(a & w00 & Ha & Hr)|(e & Ha & Habs)];
        [|discriminate].
      inversion Hr; subst.
      destruct (available_probe _ _ _ _ Ha) as (T0 & C0 & _).
      destruct (bind_inv _ _ _ _ _ H2) as [(tl & w2 & H3 & H4)|(e & H3 & ->)].
      * inversion H4; subst. destruct (IH _ _ _ H3) as (C & F & T).
        split; [congruence|]. split; [simpl; rewrite F; reflexivity|].
        rewrite T, T0, <- app_assoc. reflexivity.
      * destruct (IH _ _ _ H3) as (C & Hcode & n & T).
        split; [congruence|]. split; [exact Hcode|].
        exists (S n). rewrite T, T0, <- app_assoc. reflexivity.
    + destruct (bind_inv _ _ _ _ _ H1) as [(a & w00 & Ha & Hr)|(e0 & Ha & He)];
        [inversion Hr|].
      inversion He; subst.
      destruct (available_probe _ _ _ _ Ha) as (T0 & C0 & Hcode).
      split; [exact C0|]. split; [apply Hcode; reflexivity|].
      exists 1. rewrite T0. reflexivity.
Qed.

(** X28. [list_tools] probes the three tools first, each time it is
    called: the cache of available checkers is neither read nor written.
    When it returns it has then printed one line per tool, in the order
    mp3val, flac, oggz-validate, the name padded to 16 columns before
    the verdict.  A probe that exits with a non-zero status makes it
    raise [CalledProcessError] before anything is printed. *)
Theorem list_tools_report w r w' :
  list_tools popen colorize w = (r, w') ->
  all_available w' = all_available w /\
  match r with
  | Ok _ =>
      exists checkers,
        map fst checkers = ["mp3val"; "flac"; "oggz-validate"] /\
        trace w'
        = trace w
          ++ map (fun c => EvPopen [program c; "-v"]) all_checkers
          ++ map (fun c : string * bool =>
                    EvPrint ((fst c +:+ PyStr.spaces (16 - String.length (fst c)))
                             +:+ (if snd c then colorize "green" "found"
                                  else colorize "red" "not found")))
               checkers
  | Raise e =>
      (exists code, e = CalledProcessError code) /\
      exists n, trace w'
                = trace w ++ map (fun c => EvPopen [program c; "-v"]) (firstn n all_checkers)
  end.
Proof.
  intros H. unfold list_tools in H.
  destruct (bind_inv _ _ _ _ _ H) as [(cs & w1 & H1 & H2)|(e & H1 & ->)].
  - destruct (probe_all _ _ _ _ H1) as (C & F & T).
    assert (Hlen : list_max (map (fun c : string * bool => String.length (fst c)) cs) + 3
                   = 16).
    { rewrite <- (map_map fst String.length), F. reflexivity. }
    cbv zeta in H2. rewrite Hlen in H2.
    destruct (for_each_emit cs
                (fun c : string * bool =>
                   EvPrint ((fst c +:+ PyStr.spaces (16 - String.length (fst c)))
                            +:+ (if snd c then colorize "green" "found"
                                 else colorize "red" "not found"))) w1)
      as (w2 & Hrun & (_ & _ & _ & C2) & T2).
    unfold print in H2. rewrite Hrun in H2. inversion H2; subst.
    split; [congruence|]. exists cs. split; [exact F|].
    rewrite T2, T, <- app_assoc. reflexivity.
  - destruct (probe_all _ _ _ _ H1) as (C & Hcode & n & T).
    split; [exact C|]. split; [exact Hcode|]. exists n. exact T.
Qed.

End ListTools.

(** ** Further properties: [album_imported] *)

(** X29. On import of an album whose files without a checksum can all
    be read, [album_imported] returns and stores exactly those items,
    in order, each with the digest of its file; an item that already has
    a checksum is neither read nor stored.  No file is changed. *)
Theorem album_imported_fills_missing items :
  forall w,
    (forall item, In item items ->
       get_checksum_truthy item = false -> fs w !! path item <> None) ->
    exists w',
      album_imported items w = (Ok tt, w') /\
      fs w' = fs w /\
      trace w' = trace w ++ omap (imported_store (fs w)) items.
Proof.
  unfold album_imported.
  induction items as [|item rest IH]; intros w Hread.
  - exists w. split; [reflexivity|]. split; [reflexivity|].
    simpl. rewrite app_nil_r. reflexivity.
  - assert (Hstep : exists item' w1,
               item_imported item w = (Ok item', w1) /\
               fs w1 = fs w /\
               trace w1 = trace w ++ match imported_store (fs w) item with
                                     | Some e => [e]
                                     | None => []
                                     end).
    { unfold item_imported, imported_store.
      destruct (get_checksum_truthy item) eqn:Ht;
        [change (negb true) with false | change (negb false) with true]; cbv iota.
      - exists item, w. split; [reflexivity|]. split; [reflexivity|].
        rewrite app_nil_r. reflexivity.
      - destruct (fs w !! path item) as [data|] eqn:Hd;
          [|exfalso; apply (Hread item (or_introl eq_refl) Ht); exact Hd].
        rewrite (set_checksum_readable _ _ _ Hd). eexists. eexists.
        split; [reflexivity|]. split; reflexivity. }
    destruct Hstep as (item' & w1 & Hi & F1 & T1).
    destruct (IH w1) as (w' & Hrun & F & T).
    { intros i Hin Ht. rewrite F1. apply Hread; [right; exact Hin | exact Ht]. }
    exists w'. simpl for_each. unfold bind at 1. unfold bind at 1. rewrite Hi.
    unfold ret at 1. cbv iota. split; [exact Hrun|]. split; [congruence|].
    rewrite T, T1, F1, <- app_assoc. f_equal. simpl omap.
    destruct (imported_store (fs w) item); reflexivity.
Qed.

(** ** The further properties at the concrete installation *)

Lemma available_spec_witness :
  available Demo.popen MP3Val Demo.world
    = (Ok true, snd (available Demo.popen MP3Val Demo.world)) /\
  trace (snd (available Demo.popen MP3Val Demo.world))
    = trace Demo.world ++ [EvPopen [program MP3Val; "-v"]].
Proof.
  assert (H : available Demo.popen MP3Val Demo.world
              = (Ok true, snd (available Demo.popen MP3Val Demo.world)))
    by (vm_compute; reflexivity).
  split; [exact H | exact (proj1 (available_spec Demo.popen MP3Val Demo.world _ _ H))].
Defined.


Lemma fixer_only_mp3_witness :
  fixer Demo.popen Demo.itemC Demo.world
    = (Ok (Some MP3Val), snd (fixer Demo.popen Demo.itemC Demo.world)) /\
  exists l,
    allAvailable Demo.popen Demo.world
      = (Ok l, snd (fixer Demo.popen Demo.itemC Demo.world)) /\
    (forall c, Some MP3Val = Some c -> c = MP3Val) /\
    (Some MP3Val = Some MP3Val <-> format Demo.itemC = "MP3" /\ In MP3Val l).
Proof.
  assert (H : fixer Demo.popen Demo.itemC Demo.world
              = (Ok (Some MP3Val), snd (fixer Demo.popen Demo.itemC Demo.world)))
    by (vm_compute; reflexivity).
  split; [exact H | exact (fixer_only_mp3 Demo.popen Demo.itemC Demo.world _ _ H)].
Defined.

Lemma verify_integrity_format_scoped_witness :
  allAvailable Demo.popen Demo.world
    = (Ok [MP3Val], snd (allAvailable Demo.popen Demo.world)) /\
  verify_integrity Demo.popen Demo.itemA Demo.world
    = for_each (List.filter (in_formats (format Demo.itemA)) [MP3Val])
        (fun c => run Demo.popen c Demo.itemA)
        (snd (allAvailable Demo.popen Demo.world)).
Proof.
  assert (H : allAvailable Demo.popen Demo.world
              = (Ok [MP3Val], snd (allAvailable Demo.popen Demo.world)))
    by (vm_compute; reflexivity).
  split; [exact H|].
  exact (proj1 (verify_integrity_format_scoped Demo.popen Demo.itemA Demo.world _ _ H)).
Defined.

Lemma parse_first_match_wins_witness :
  PyStr.split PyStr.newline Demo.mp3val_output = ["fine"] ++ Demo.warning_line :: [] /\
  MP3Val_parse Demo.mp3val_output "" 0 "/music/c.mp3"
    = Raise (IntegrityError "/music/c.mp3" "Garbage at the end of the file").
Proof.
  assert (H : PyStr.split PyStr.newline Demo.mp3val_output
              = ["fine"] ++ Demo.warning_line :: [])
    by (vm_compute; reflexivity).
  split; [exact H|].
  refine (proj1 (parse_first_match_wins ["fine"] [] Demo.warning_line
                   Demo.mp3val_output "" 0 "/music/c.mp3" H)
            ["Garbage at the end of the file"] _ _).
  - intros l [<-|[]]. vm_compute. reflexivity.
  - vm_compute. reflexivity.
Defined.

Lemma check_item_classifies_witness :
  check_item Demo.popen true false Demo.itemB {| failures := 0; integrity := 0 |} Demo.world
    = (Ok {| failures := 1; integrity := 0 |},
       snd (check_item Demo.popen true false Demo.itemB
              {| failures := 0; integrity := 0 |} Demo.world)) /\
  count_ev is_report
    (trace (snd (check_item Demo.popen true false Demo.itemB
                   {| failures := 0; integrity := 0 |} Demo.world)))
    = count_ev is_report (trace Demo.world) + 1.
Proof.
  assert (H : check_item Demo.popen true false Demo.itemB
                {| failures := 0; integrity := 0 |} Demo.world
              = (Ok {| failures := 1; integrity := 0 |},
                 snd (check_item Demo.popen true false Demo.itemB
                        {| failures := 0; integrity := 0 |} Demo.world)))
    by (vm_compute; reflexivity).
  split; [exact H|].
  exact (proj1 (proj2 (check_item_classifies Demo.popen true false Demo.itemB _
                         Demo.world _ _ H) _ eq_refl)).
Defined.

Lemma check_item_mismatch_skips_validation_witness :
  fs Demo.world !! path Demo.itemB = Some "abd" /\
  Hashlib.sha256_hexdigest "abd" <> Demo.sha_abc /\
  check_item Demo.popen true true Demo.itemB {| failures := 0; integrity := 0 |} Demo.world
    = (Ok {| failures := 0 + 1; integrity := 0 |},
       add_event (EvLog ERROR (MsgFAILED (path Demo.itemB))) Demo.world).
Proof.
  assert (H1 : fs Demo.world !! path Demo.itemB = Some "abd") by (vm_compute; reflexivity).
  assert (H2 : Hashlib.sha256_hexdigest "abd" <> Demo.sha_abc)
    by (vm_compute; discriminate).
  split; [exact H1|]. split; [exact H2|].
  apply (check_item_mismatch_skips_validation Demo.popen true Demo.itemB Demo.sha_abc "abd"
           {| failures := 0; integrity := 0 |} Demo.world);
    [reflexivity | vm_compute; reflexivity | exact H1 | exact H2].
Defined.

Lemma check_checksums_only_witness :
  fst (check Demo.popen Demo.matches Demo.cmd true None Demo.world)
    = Raise (SystemExit 15) /\
  count_ev is_report
    (trace (snd (check Demo.popen Demo.matches Demo.cmd true None Demo.world)))
    = count_ev is_report (trace Demo.world)
      + length (List.filter (Demo.matches (query Demo.cmd)) (db Demo.world)) /\
  count_ev is_popen
    (trace (snd (check Demo.popen Demo.matches Demo.cmd true None Demo.world)))
    = count_ev is_popen (trace Demo.world).
Proof.
  assert (H : check Demo.popen Demo.matches Demo.cmd true None Demo.world
              = (fst (check Demo.popen Demo.matches Demo.cmd true None Demo.world),
                 snd (check Demo.popen Demo.matches Demo.cmd true None Demo.world)))
    by (vm_compute; reflexivity).
  assert (Hr : fst (check Demo.popen Demo.matches Demo.cmd true None Demo.world)
               = Raise (SystemExit 15)) by (vm_compute; reflexivity).
  split; [exact Hr|].
  exact (proj2 (proj2 (check_checksums_only Demo.popen Demo.matches Demo.cmd None
                         Demo.world _ _ eq_refl H))).
Defined.

Lemma check_item_without_checksum_witness :
  get_checksum_truthy Demo.itemC = false /\
  check_item Demo.popen true false Demo.itemC {| failures := 0; integrity := 0 |} Demo.world
    = (Ok {| failures := 0; integrity := 0 |},
       add_event (EvLog DEBUG (MsgOK (path Demo.itemC))) Demo.world).
Proof.
  assert (H : get_checksum_truthy Demo.itemC = false) by reflexivity.
  split; [exact H|].
  exact (check_item_without_checksum Demo.popen true Demo.itemC
           {| failures := 0; integrity := 0 |} Demo.world H).
Defined.


Lemma update_completes_witness :
  force_update Demo.cmd_forced = true /\
  exists w',
    update Demo.matches Demo.displayable_path Demo.cmd_forced Demo.world = (Ok tt, w') /\
    update_handled w' = update_handled Demo.world + 3.
Proof.
  assert (H : force_update Demo.cmd_forced = true) by reflexivity.
  split; [exact H|].
  destruct (update_completes Demo.matches Demo.displayable_path Demo.cmd_forced Demo.world
              (or_intror H)) as (w' & Hrun & Hh & _).
  exists w'. split; [exact Hrun | exact Hh].
Defined.

Lemma update_declined_witness :
  stdin Demo.world_declining = [false] /\
  update Demo.matches Demo.displayable_path Demo.cmd Demo.world_declining
  = (Ok tt,
     set_stdin []
       (add_event
          (EvInputYn "Do you want to overwrite all checksums in your database? (y/n)")
          Demo.world_declining)).
Proof.
  assert (H : stdin Demo.world_declining = [false]) by reflexivity.
  split; [exact H|].
  exact (update_declined Demo.matches Demo.displayable_path Demo.cmd Demo.world_declining
           [] eq_refl eq_refl H).
Defined.


Lemma add_only_fills_missing_witness :
  adds_only (add_event_allowed (add_selection Demo.matches Demo.cmd Demo.world))
    Demo.world (snd (add Demo.popen Demo.matches Demo.cmd Demo.world)).
Proof.
  assert (H : add Demo.popen Demo.matches Demo.cmd Demo.world
              = (fst (add Demo.popen Demo.matches Demo.cmd Demo.world),
                 snd (add Demo.popen Demo.matches Demo.cmd Demo.world)))
    by (vm_compute; reflexivity).
  exact (add_only_fills_missing Demo.popen Demo.matches Demo.cmd Demo.world _ _ H).
Defined.

Lemma fix_declined_witness :
  hd_error (stdin Demo.world_declining) = Some false /\
  db (snd (fix_ Demo.popen Demo.matches Demo.cmd true true Demo.world_declining))
    = db Demo.world_declining /\
  count_ev is_change
    (trace (snd (fix_ Demo.popen Demo.matches Demo.cmd true true Demo.world_declining)))
    = count_ev is_change (trace Demo.world_declining).
Proof.
  assert (Hs : hd_error (stdin Demo.world_declining) = Some false) by reflexivity.
  assert (Hn : hd_error (stdin Demo.world_declining) <> Some true)
    by (rewrite Hs; discriminate).
  assert (H : fix_ Demo.popen Demo.matches Demo.cmd true true Demo.world_declining
              = (fst (fix_ Demo.popen Demo.matches Demo.cmd true true Demo.world_declining),
                 snd (fix_ Demo.popen Demo.matches Demo.cmd true true
                        Demo.world_declining)))
    by (vm_compute; reflexivity).
  split; [exact Hs|].
  exact (fix_declined Demo.popen Demo.matches Demo.cmd true Demo.world_declining _ _ Hn H).
Defined.

Lemma forced_run_never_prompts_witness :
  opt_force Demo.options_fix_forced = true /\
  stdin (snd (func Demo.popen Demo.matches Demo.displayable_path Demo.colorize Demo.cmd
                Demo.options_fix_forced [] Demo.world_declining))
    = stdin Demo.world_declining /\
  count_ev is_prompt
    (trace (snd (func Demo.popen Demo.matches Demo.displayable_path Demo.colorize Demo.cmd
                   Demo.options_fix_forced [] Demo.world_declining)))
    = count_ev is_prompt (trace Demo.world_declining).
Proof.
  assert (Hf : opt_force Demo.options_fix_forced = true) by reflexivity.
  assert (H : func Demo.popen Demo.matches Demo.displayable_path Demo.colorize Demo.cmd
                Demo.options_fix_forced [] Demo.world_declining
              = (fst (func Demo.popen Demo.matches Demo.displayable_path Demo.colorize
                        Demo.cmd Demo.options_fix_forced [] Demo.world_declining),
                 snd (func Demo.popen Demo.matches Demo.displayable_path Demo.colorize
                        Demo.cmd Demo.options_fix_forced [] Demo.world_declining)))
    by (vm_compute; reflexivity).
  split; [exact Hf|].
  exact (forced_run_never_prompts Demo.popen Demo.matches Demo.displayable_path
           Demo.colorize Demo.cmd Demo.options_fix_forced [] Demo.world_declining _ _ Hf H).
Defined.

Lemma import_skip_decision_witness :
  import_integrity_errors Demo.popen [Demo.itemC] [] Demo.world_declining
    = (Ok [IntegrityError "/music/c.mp3" "Garbage at the end of the file"],
       snd (import_integrity_errors Demo.popen [Demo.itemC] [] Demo.world_declining)) /\
  fst (verify_import_integrity Demo.popen Demo.exn_str true [Demo.itemC]
         Demo.world_declining) = Ok true /\
  fst (verify_import_integrity Demo.popen Demo.exn_str false [Demo.itemC]
         Demo.world_declining) = Ok false.
Proof.
  assert (Hne : [Demo.itemC] <> []) by discriminate.
  assert (H : import_integrity_errors Demo.popen [Demo.itemC] [] Demo.world_declining
              = (Ok [IntegrityError "/music/c.mp3" "Garbage at the end of the file"],
                 snd (import_integrity_errors Demo.popen [Demo.itemC] []
                        Demo.world_declining)))
    by (vm_compute; reflexivity).
  split; [exact H|]. split.
  - exact (import_skip_decision Demo.popen Demo.exn_str true [Demo.itemC]
             Demo.world_declining _ _ Hne H).
  - exact (import_skip_decision Demo.popen Demo.exn_str false [Demo.itemC]
             Demo.world_declining _ _ Hne H).
Defined.

Lemma import_warnings_name_last_item_witness :
  last [Demo.itemC; Demo.itemA] = Some Demo.itemA /\
  exists rest,
    trace (snd (verify_import_integrity Demo.popen Demo.exn_str true
                  [Demo.itemC; Demo.itemA] Demo.world_declining))
    = trace (snd (import_integrity_errors Demo.popen [Demo.itemC; Demo.itemA] []
                    Demo.world_declining))
      ++ EvLog WARN (MsgText "Warning: failed to verify integrity")
         :: map (fun error =>
                   EvLog WARN (MsgText ("  " +:+ path Demo.itemA +:+ ": "
                                        +:+ Demo.exn_str error)))
              [IntegrityError "/music/c.mp3" "Garbage at the end of the file"]
      ++ rest.
Proof.
  assert (Hl : last [Demo.itemC; Demo.itemA] = Some Demo.itemA) by reflexivity.
  split; [exact Hl|].
  assert (H : import_integrity_errors Demo.popen [Demo.itemC; Demo.itemA] []
                Demo.world_declining
              = (Ok [IntegrityError "/music/c.mp3" "Garbage at the end of the file"],
                 snd (import_integrity_errors Demo.popen [Demo.itemC; Demo.itemA] []
                        Demo.world_declining)))
    by (vm_compute; reflexivity).
  assert (Hne : [IntegrityError "/music/c.mp3" "Garbage at the end of the file"] <> [])
    by discriminate.
  assert (Hrun : verify_import_integrity Demo.popen Demo.exn_str true
                   [Demo.itemC; Demo.itemA] Demo.world_declining
                 = (fst (verify_import_integrity Demo.popen Demo.exn_str true
                           [Demo.itemC; Demo.itemA] Demo.world_declining),
                    snd (verify_import_integrity Demo.popen Demo.exn_str true
                           [Demo.itemC; Demo.itemA] Demo.world_declining)))
    by (vm_compute; reflexivity).
  exact (import_warnings_name_last_item Demo.popen Demo.exn_str true
           [Demo.itemC; Demo.itemA] Demo.itemA Demo.world_declining _ _ _ _
           Hl H Hne Hrun).
Defined.

Lemma list_tools_report_witness :
  all_available (snd (list_tools Demo.popen Demo.colorize Demo.world))
    = all_available Demo.world /\
  fst (list_tools Demo.popen Demo.colorize Demo.world) = Ok tt.
Proof.
  assert (H : list_tools Demo.popen Demo.colorize Demo.world
              = (fst (list_tools Demo.popen Demo.colorize Demo.world),
                 snd (list_tools Demo.popen Demo.colorize Demo.world)))
    by (vm_compute; reflexivity).
  split; [|vm_compute; reflexivity].
  exact (proj1 (list_tools_report Demo.popen Demo.colorize Demo.world _ _ H)).
Defined.

Lemma album_imported_fills_missing_witness :
  exists w',
    album_imported [Demo.itemA; Demo.itemC] Demo.world = (Ok tt, w') /\
    fs w' = fs Demo.world /\
    trace w'
    = trace Demo.world ++ omap (imported_store (fs Demo.world)) [Demo.itemA; Demo.itemC].
Proof.
  apply (album_imported_fills_missing [Demo.itemA; Demo.itemC] Demo.world).
  intros item [<-|[<-|[]]] _; vm_compute; discriminate.
Defined.
